(** * A verified model of [search_engines.py]

    The Python module builds two inverted indexes over a folder of encoded
    documents and answers conjunctive queries with a synchronized
    multi-cursor merge, cosine scoring and heap based top-k selection.

    Conventions of the embedding:
    - Python [int] is [Z]; list positions (which start at 0 and only ever
      grow by one) are [nat].
    - Python [float] is idealised as a real number ([R]): rounding, NaN and
      infinities are not modelled; the faults of the float operations
      ([ZeroDivisionError], [ValueError]) are.
    - a [dict] is a [gmap]. Where the code iterates over a dict the
      iteration sequence is [map_to_list], some enumeration of the entries
      without a repeated key; what is proved of the result is stated by
      lookup and holds for every such enumeration.
    - an exception is an outcome of the [py] monad. The [while] loop takes
      fuel; running out of fuel is a third outcome, distinct from every
      Python exception, and the theorems give the fuel that suffices.
    - reading the folder, the pickles and the tsv files is input: a file
      of the folder is given by its number and its dict. *)

From Stdlib Require Import Reals Lra Lia ZArith.
From stdpp Require Import gmap strings list sorting.

(** ** Python runtime: exceptions, subscripts, builtins *)

Inductive exception : Type :=
  | KeyError
  | IndexError
  | ZeroDivisionError
  | ValueError.

Inductive py (A : Type) : Type :=
  | Done (a : A)
  | Raise (e : exception)
  | OutOfFuel.

Arguments Done {A} a.
Arguments Raise {A} e.
Arguments OutOfFuel {A}.

#[global] Instance py_ret : MRet py := λ A a, Done a.
#[global] Instance py_bind : MBind py := λ A B f m,
  match m with
  | Done a => f a
  | Raise e => Raise e
  | OutOfFuel => OutOfFuel
  end.

(** [l[i]] for a position [i >= 0]. *)
Definition getitem {A} (l : list A) (i : nat) : py A :=
  match l !! i with
  | Some x => Done x
  | None => Raise IndexError
  end.

(** [d[k]] on a dict. *)
Definition dict_getitem `{Countable K} {V} (d : gmap K V) (k : K) : py V :=
  match d !! k with
  | Some v => Done v
  | None => Raise KeyError
  end.

(** [max(l)] on a list of ints. *)
Definition py_max (l : list Z) : py Z :=
  match l with
  | [] => Raise ValueError
  | x :: l' => Done (foldl Z.max x l')
  end.

(** [all(l)] on a list of bools. *)
Definition py_all (l : list bool) : bool := forallb (λ b, b) l.

(** [list(enumerate(l))]. *)
Definition enumerate {A} (l : list A) : list (nat * A) := imap pair l.

(** ** [encode_query] *)

(** The value returned by [encode_query]: the list of codes, or [False]. *)
Inductive encoded : Type :=
  | EncFalse
  | EncList (codes : list Z).

Fixpoint encode_loop (vocabulary : gmap string Z) (query : list string)
    (encoded_so_far : list Z) : encoded :=
  match query with
  | [] => EncList encoded_so_far
  | token :: rest =>
      match vocabulary !! token with
      | Some code => encode_loop vocabulary rest (encoded_so_far ++ [code])
      | None => EncFalse
      end
  end.

Definition encode_query (query : list string) (vocabulary : gmap string Z)
    : encoded :=
  encode_loop vocabulary query [].

(** [not encoded_query]: [False] and the empty list are falsy. *)
Definition py_not (e : encoded) : bool :=
  match e with
  | EncFalse => true
  | EncList [] => true
  | EncList (_ :: _) => false
  end.

(** Iterating over the encoded query once it is known to be truthy. *)
Definition codes_of (e : encoded) : list Z :=
  match e with
  | EncFalse => []
  | EncList codes => codes
  end.

(** ** The synchronized multi-cursor merge

    [search_engine] and [search_engine_2] run the same [while] loop; they
    differ in the element type of the posting lists (a document number, or a
    pair of a document number and a weight), hence in how the document
    number is read ([doc_of]), and in what is done with a match
    ([on_match]). *)

Section merge.
Context {A Acc : Type}.
Variable doc_of : A → Z.
Variable on_match : Z → list nat → list (nat * list A) → Acc → py Acc.

(** [[f(docs[idx[list_num]]) for list_num, docs in selected_lists2]] *)
Definition under_cursors {B} (f : A → B) (idx : list nat)
    (selected_lists2 : list (nat * list A)) : py (list B) :=
  mapM (λ '(list_num, docs),
          i ← getitem idx list_num;
          x ← getitem docs i;
          mret (f x)) selected_lists2.

(** [all([k < m for k, m in zip(idx, lists_len)])] *)
Definition loop_cond (idx lists_len : list nat) : bool :=
  py_all ((λ '(k, m), k <? m) <$> zip idx lists_len).

(** The [for my_list in selected_lists] loop of the [else] branch, with
    its counter [j] and the in-place update [idx[j] += 1]. *)
Fixpoint advance (max_num : Z) (selected_lists : list (list A)) (j : nat)
    (idx : list nat) : py (list nat) :=
  match selected_lists with
  | [] => Done idx
  | my_list :: rest =>
      i ← getitem idx j;
      x ← getitem my_list i;
      if bool_decide (doc_of x = max_num)
      then advance max_num rest (S j) idx
      else advance max_num rest (S j) (<[j := S i]> idx)
  end.

(** One iteration of the [while] body. *)
Definition loop_body (selected_lists : list (list A))
    (selected_lists2 : list (nat * list A)) (st : list nat * Acc)
    : py (list nat * Acc) :=
  let '(idx, acc) := st in
  docs ← under_cursors doc_of idx selected_lists2;
  max_num ← py_max docs;
  eqs ← under_cursors (λ x, bool_decide (doc_of x = max_num)) idx
          selected_lists2;
  if py_all eqs then
    acc' ← on_match max_num idx selected_lists2 acc;
    mret ((λ i, S i) <$> idx, acc')
  else
    idx' ← advance max_num selected_lists 0 idx;
    mret (idx', acc).

Fixpoint merge_loop (fuel : nat) (selected_lists : list (list A))
    (lists_len : list nat) (selected_lists2 : list (nat * list A))
    (st : list nat * Acc) : py Acc :=
  match fuel with
  | 0 => OutOfFuel
  | S fuel' =>
      if loop_cond st.1 lists_len then
        st' ← loop_body selected_lists selected_lists2 st;
        merge_loop fuel' selected_lists lists_len selected_lists2 st'
      else Done st.2
  end.

(** From [idx = [0] * len(selected_lists)] to the end of the loop. *)
Definition merge (fuel : nat) (selected_lists : list (list A)) (acc : Acc)
    : py Acc :=
  let idx := replicate (length selected_lists) 0 in
  let lists_len := length <$> selected_lists in
  let selected_lists2 := enumerate selected_lists in
  merge_loop fuel selected_lists lists_len selected_lists2 (idx, acc).
End merge.

(** ** [search_engine] *)

(** [result.append(max_num)] *)
Definition append_doc (max_num : Z) (idx : list nat)
    (selected_lists2 : list (nat * list Z)) (result : list Z)
    : py (list Z) :=
  Done (result ++ [max_num]).

Definition search_engine (fuel : nat) (encoded_query : encoded)
    (inverted_idx : gmap Z (list Z)) : py (list Z) :=
  let result := [] in
  if py_not encoded_query then Done result
  else
    selected_lists ← mapM (dict_getitem inverted_idx) (codes_of encoded_query);
    merge (λ doc, doc) append_doc fuel selected_lists result.

(** ** Floats, idealised *)

#[global] Instance R_eq_dec : EqDecision R := Req_dec_T.
#[global] Instance Rlt_decision : RelDecision Rlt := Rlt_dec.
#[global] Instance Rle_decision : RelDecision Rle := Rle_dec.

(** [a / b] *)
Definition py_truediv (a b : R) : py R :=
  if decide (b = 0%R) then Raise ZeroDivisionError else Done (a / b)%R.

(** [math.sqrt(x)] *)
Definition math_sqrt (x : R) : py R :=
  if decide (x < 0)%R then Raise ValueError else Done (sqrt x).

(** [math.log(x)] *)
Definition math_log (x : R) : py R :=
  if decide (x <= 0)%R then Raise ValueError else Done (ln x).

(** [sum(l)] *)
Definition py_sum (l : list R) : R := foldl Rplus 0%R l.

(** [for x in l: s = body(x, s)], stopping at the first exception. *)
Fixpoint for_each {A S} (body : A → S → py S) (l : list A) (s : S) : py S :=
  match l with
  | [] => Done s
  | x :: l' => s' ← body x s; for_each body l' s'
  end.

(** ** [sorted] and [heapq.nsmallest]

    Both are library functions; [sorted] is stable, and
    [heapq.nsmallest(n, it)] is documented as [sorted(it)[:n]]. *)

Section sorting.
Context {A : Type} (le : relation A) `{!RelDecision le}.

Fixpoint insert_sorted (x : A) (l : list A) : list A :=
  match l with
  | [] => [x]
  | y :: l' =>
      if decide (le x y) then x :: y :: l' else y :: insert_sorted x l'
  end.

Definition py_sorted (l : list A) : list A := foldr insert_sorted [] l.

Definition nsmallest (n : Z) (iterable : list A) : list A :=
  take (Z.to_nat n) (py_sorted iterable).
End sorting.

(** ** [get_top_k] *)

(** [a <= b] on the tuples [(-value, key)]: lexicographic. *)
Definition tuple_le (a b : R * Z) : Prop :=
  (a.1 < b.1)%R ∨ (a.1 = b.1 ∧ (a.2 ≤ b.2)%Z).

#[global] Instance tuple_le_dec : RelDecision tuple_le.
Proof. intros a b. unfold tuple_le. apply _. Defined.

(** The body of [get_top_k] on the sequence [dic.items()]. *)
Definition top_k_of_items (items : list (Z * R)) (k : Z) : list (Z * R) :=
  let heap := (λ '(key, value), ((- value)%R, key)) <$> items in
  let largest := nsmallest tuple_le k heap in
  (λ '(value, key), (key, (- value)%R)) <$> largest.

Definition get_top_k (dic : gmap Z R) (k : Z) : list (Z * R) :=
  top_k_of_items (map_to_list dic) k.

(** ** [compute_cosine_similarity] *)

Definition cos_similarity (encoded_query : list Z)
    (squared_tfidf_per_document : gmap Z R) (doc : Z) (score : R) : py R :=
  norm ← dict_getitem squared_tfidf_per_document doc;
  doc_len ← math_sqrt norm;
  query_len ← math_sqrt (INR (length encoded_query));
  py_truediv score (doc_len * query_len)%R.

(** The [for doc in docs_scores] loop, on the items of [docs_scores] in
    the order in which the dict yields them. A Python dict yields its keys
    in the order of their insertion, which a [gmap] does not record: what
    depends on that order is stated of [cosine_loop], for every order. *)
Definition cosine_loop (encoded_query : list Z) (items : list (Z * R))
    (squared_tfidf_per_document : gmap Z R) : py (gmap Z R) :=
  for_each
    (λ '(doc, score) similarity_scores,
       c ← cos_similarity encoded_query squared_tfidf_per_document doc score;
       mret (<[doc := c]> similarity_scores))
    items ∅.

Definition compute_cosine_similarity (encoded_query : list Z)
    (docs_scores squared_tfidf_per_document : gmap Z R) : py (gmap Z R) :=
  cosine_loop encoded_query (map_to_list docs_scores)
    squared_tfidf_per_document.

(** ** [search_engine_2] *)

(** [docs_scores[max_num] = sum([docs[idx[list_num]][1] for ...])] *)
Definition add_score (max_num : Z) (idx : list nat)
    (selected_lists2 : list (nat * list (Z * R))) (docs_scores : gmap Z R)
    : py (gmap Z R) :=
  weights ← under_cursors snd idx selected_lists2;
  mret (<[max_num := py_sum weights]> docs_scores).

Definition search_engine_2 (fuel : nat) (encoded_query : encoded)
    (inverted_idx2 : gmap Z (list (Z * R)))
    (squared_tfidf_per_document : gmap Z R) (k : Z) : py (list (Z * R)) :=
  let result := [] in
  if py_not encoded_query then Done result
  else
    selected_lists ←
      mapM (dict_getitem inverted_idx2) (codes_of encoded_query);
    docs_scores ← merge fst add_score fuel selected_lists ∅;
    all_scores ← compute_cosine_similarity (codes_of encoded_query)
                   docs_scores squared_tfidf_per_document;
    mret (get_top_k all_scores k).

(** ** Index construction *)

(** One file of the encoded-files folder, with the two numbers that the
    builders read off its name and the dict that it holds, which maps each
    encoded word of the document to its frequency:
    - [sort_key] is [int(os.path.splitext(file_name)[0])], the key of the
      sort;
    - [doc_number] is [int(file_name[:-7])], the number that is recorded
      in the lists.
    For a name [<n>.pickle] both are [n]. For another name they differ:
    [1234.pkl] is sorted as 1234 and recorded as 1. *)
Record encoded_file : Type := EncodedFile {
  sort_key : Z;
  doc_number : Z;
  dict_repr : gmap Z R
}.

(** The order of
    [sorted(file_list, key=lambda x: int(os.path.splitext(x)[0]))]. *)
Definition file_le (f g : encoded_file) : Prop :=
  (sort_key f ≤ sort_key g)%Z.

#[global] Instance file_le_dec : RelDecision file_le.
Proof. intros f g. unfold file_le. apply _. Defined.

(** [d.setdefault(key, []).append(x)] *)
Definition setdefault_append {V} (key : Z) (x : V) (d : gmap Z (list V))
    : gmap Z (list V) :=
  <[key := default [] (d !! key) ++ [x]]> d.

Definition create_inverted_idx (files : list encoded_file)
    : gmap Z (list Z) :=
  let file_list := py_sorted file_le files in
  foldl (λ inverted_idx file,
           foldl (λ inverted_idx '(key, _),
                    setdefault_append key (doc_number file) inverted_idx)
                 inverted_idx (map_to_list (dict_repr file)))
        ∅ file_list.

(** The first loop of [create_inverted_idx_2]: the state is
    [(docs_count, inverted_idx2)]. *)
Definition scan_files_2 (file_list : list encoded_file)
    : Z * gmap Z (list (Z * R)) :=
  foldl (λ '(docs_count, inverted_idx2) file,
           let docs_count := (docs_count + 1)%Z in
           (docs_count,
            foldl (λ inverted_idx2 '(key, tf),
                     setdefault_append key (doc_number file, tf) inverted_idx2)
                  inverted_idx2 (map_to_list (dict_repr file))))
        (0%Z, ∅) file_list.

(** [for idx, value in enumerate(postings): postings[idx] = ...]: the list
    is updated in place while it is enumerated, and its length is read
    again at every step. [steps] bounds the enumeration by the length the
    list has when the loop starts. *)
Fixpoint weigh_from (docs_count : Z) (steps idx : nat)
    (postings : list (Z * R)) : py (list (Z * R)) :=
  match steps with
  | 0 => Done postings
  | S steps' =>
      match postings !! idx with
      | None => Done postings
      | Some value =>
          ratio ← py_truediv (IZR docs_count) (INR (length postings));
          idf ← math_log ratio;
          weigh_from docs_count steps' (S idx)
            (<[idx := (value.1, (value.2 * idf)%R)]> postings)
      end
  end.

(** The second loop, [for key in inverted_idx2]. *)
Definition weigh_index (docs_count : Z)
    (inverted_idx2 : gmap Z (list (Z * R))) : py (gmap Z (list (Z * R))) :=
  for_each
    (λ key inverted_idx2,
       postings ← dict_getitem inverted_idx2 key;
       postings' ← weigh_from docs_count (length postings) 0 postings;
       mret (<[key := postings']> inverted_idx2))
    (map_to_list inverted_idx2).*1 inverted_idx2.

Definition create_inverted_idx_2 (files : list encoded_file)
    : py (gmap Z (list (Z * R))) :=
  let file_list := py_sorted file_le files in
  let '(docs_count, inverted_idx2) := scan_files_2 file_list in
  weigh_index docs_count inverted_idx2.

(** [store_squared_tfidf_per_document]: the squares are gathered in one
    list per document, then each list is replaced by its sum. Floats are
    read as real numbers: the [tfidf ** 2] of the code is 0.0 for a weight
    small enough and raises [OverflowError] for one large enough, and the
    square here does neither. *)
Definition store_squared_tfidf_per_document
    (inverted_idx2 : gmap Z (list (Z * R))) : gmap Z R :=
  let squared_tfidfs :=
    foldl (λ squared_tfidfs '(term, postings),
             foldl (λ squared_tfidfs '(doc, tfidf),
                      setdefault_append doc (tfidf ^ 2)%R squared_tfidfs)
                   squared_tfidfs postings)
          ∅ (map_to_list inverted_idx2) in
  py_sum <$> squared_tfidfs.

(** ** The re-scoring loop of [search_engine_3]

    [preprocess_text] comes from another module; it is a parameter here,
    together with the [in] test on what it returns and the reading of the
    third line of [article_<doc>.tsv], split on tabs. *)

Definition field_to_idx : gmap string nat :=
  <["booktitle" := 0]> (<["bookseries" := 1]> (<["bookauthors" := 2]>
  (<["publishingdate" := 8]> (<["characters" := 9]> (<["setting" := 10]> ∅))))).

Section refinement.
Context {Field : Type}.
Variable preprocess_text : string → Field.
Variable py_in : string → Field → bool.
Variable article_fields : Z → py (list string).

(** The [if] inside [for item in additional_info]. *)
Definition boost (all_fields : list Field) (item : list string)
    (total_score : R) : py R :=
  needle ← getitem item 1;
  name ← getitem item 0;
  pos ← dict_getitem field_to_idx name;
  field ← getitem all_fields pos;
  if py_in needle field
  then mret (total_score + total_score * 1 / 2)%R
  else mret total_score.

(** The body of [for doc, score in plot_result], up to [total_score]. *)
Definition refined_score (additional_info : list (list string)) (doc : Z)
    (score : R) : py R :=
  raw_fields ← article_fields doc;
  let all_fields := preprocess_text <$> raw_fields in
  for_each (boost all_fields) additional_info score.

Definition search_engine_3 (fuel : nat) (encoded_query : encoded)
    (inverted_idx2 : gmap Z (list (Z * R)))
    (squared_tfidf_per_document : gmap Z R)
    (additional_info : list (list string)) : py (list (Z * R)) :=
  plot_result ← search_engine_2 fuel encoded_query inverted_idx2
                  squared_tfidf_per_document 10;
  final_score ←
    for_each (λ '(doc, score) final_score,
                total_score ← refined_score additional_info doc score;
                mret (<[doc := total_score]> final_score))
             plot_result ∅;
  mret (get_top_k final_score 3).
End refinement.

(** * Specification vocabulary *)

Section merge_spec.
Context {A : Type}.
Variable doc_of : A → Z.

(** [cur] is what lies under the cursors [idx] in the lists [Ls]. *)
Definition under (idx : list nat) (Ls : list (list A)) (cur : list A)
    : Prop :=
  Forall3 (λ i L x, L !! i = Some x) idx Ls cur.

(** The cursor of a list moves unless the list points at [max_num]. *)
Definition moved (max_num : Z) (i : nat) (x : A) : nat :=
  if bool_decide (doc_of x = max_num) then i else S i.

(** [max_num] is the largest document number under the cursors. *)
Definition is_max (max_num : Z) (cur : list A) : Prop :=
  max_num ∈ doc_of <$> cur ∧ Forall (λ x, (doc_of x ≤ max_num)%Z) cur.

(** A posting list in strictly ascending order of document number. *)
Definition ascending (L : list A) : Prop :=
  StronglySorted (λ a b, (doc_of a < doc_of b)%Z) L.

(** [x] is a document of every list. *)
Definition common (Ls : list (list A)) (x : Z) : Prop :=
  Forall (λ L, x ∈ doc_of <$> L) Ls.

(** [x] is at or after the cursor in every list. *)
Definition ahead (Ls : list (list A)) (idx : list nat) (x : Z) : Prop :=
  Forall2 (λ i L, x ∈ doc_of <$> drop i L) idx Ls.

(** Every document at or after a cursor is larger than [x]. *)
Definition behind (Ls : list (list A)) (idx : list nat) (x : Z) : Prop :=
  Forall2 (λ i L, Forall (λ a, (x < doc_of a)%Z) (drop i L)) idx Ls.

(** The loop invariant on the cursors and the matches [ks] found so far. *)
Definition merge_inv (Ls : list (list A)) (idx : list nat) (ks : list Z)
    : Prop :=
  StronglySorted Z.lt ks
  ∧ (∀ x, x ∈ ks → behind Ls idx x)
  ∧ (∀ x, common Ls x ↔ x ∈ ks ∨ ahead Ls idx x).
End merge_spec.

(** The number of distinct terms of an encoded query. *)
Definition distinct_terms (encoded_query : list Z) : nat :=
  length (remove_dups encoded_query).

(** ** Index construction *)

(** The files that contain the encoded word [key]. *)
Definition files_with (key : Z) (files : list encoded_file)
    : list encoded_file :=
  filter (λ file, is_Some (dict_repr file !! key)) files.

(** The files are read in strictly ascending order of the document number
    that is recorded for them. *)
Definition read_ascending (files : list encoded_file) : Prop :=
  StronglySorted Z.lt (doc_number <$> py_sorted file_le files).

(** The file is named [<n>.pickle]: the number it is sorted by is the
    number that is recorded. *)
Definition conforming (file : encoded_file) : Prop :=
  sort_key file = doc_number file.

(** The frequency of [key] in a file (0 when the word is not in it). *)
Definition frequency (key : Z) (file : encoded_file) : R :=
  default 0%R (dict_repr file !! key).

(** The document frequency of [key]: the number of files that contain it. *)
Definition df (key : Z) (files : list encoded_file) : nat :=
  length (files_with key files).

(** The scan of the files, whatever is appended for a word of a file. *)
Definition scan_files {V} (entry : encoded_file → R → V)
    (file_list : list encoded_file) : gmap Z (list V) :=
  foldl (λ inverted_idx file,
           foldl (λ inverted_idx '(key, tf),
                    setdefault_append key (entry file tf) inverted_idx)
                 inverted_idx (map_to_list (dict_repr file)))
        ∅ file_list.

(** A dict entry holds a list only once something was appended to it. *)
Definition entry_of {V} (postings : list V) : option (list V) :=
  match postings with
  | [] => None
  | _ :: _ => Some postings
  end.

(** What the second loop of [create_inverted_idx_2] makes of a list. *)
Definition tfidf_postings (docs_count : Z) (postings : list (Z * R))
    : list (Z * R) :=
  (λ value, (value.1,
             (value.2 * ln (IZR docs_count / INR (length postings)))%R))
    <$> postings.

(** ** Refinement criteria *)

Section refinement_spec.
Context {Field : Type}.
Variable py_in : string → Field → bool.

(** The criterion [item] (a field name, a value) is well formed and its
    value is found in the named field of the document. *)
Definition criterion_matches (all_fields : list Field) (item : list string)
    : Prop :=
  ∃ name needle pos field,
    item !! 0 = Some name ∧ item !! 1 = Some needle
    ∧ field_to_idx !! name = Some pos ∧ all_fields !! pos = Some field
    ∧ py_in needle field = true.
End refinement_spec.

(** ** Accumulated scores *)

(** [score] is the sum, over the lists in their order, of the weights that
    the document [doc] carries in them. *)
Definition accumulated (Ls : list (list (Z * R))) (doc : Z) (score : R)
    : Prop :=
  ∃ cur, Forall2 (λ L a, a ∈ L ∧ a.1 = doc) Ls cur
         ∧ score = py_sum (snd <$> cur).

(** [docs_scores] holds the accumulated score of each match of [ks]. *)
Definition scores_of (Ls : list (list (Z * R))) (ks : list Z)
    (docs_scores : gmap Z R) : Prop :=
  (∀ doc, is_Some (docs_scores !! doc) ↔ doc ∈ ks)
  ∧ ∀ doc score, docs_scores !! doc = Some score → accumulated Ls doc score.


From Stdlib Require Import Ascii.
(** ** Stored norms *)

(** Every (document, weight) pair of a weighted index, list after list. *)
Definition all_entries (inverted_idx2 : gmap Z (list (Z * R)))
    : list (Z * R) :=
  mjoin (snd <$> map_to_list inverted_idx2).

(** The weights that a document carries in a weighted index. *)
Definition weights_of (doc : Z) (inverted_idx2 : gmap Z (list (Z * R)))
    : list R :=
  snd <$> filter (λ entry, entry.1 = doc) (all_entries inverted_idx2).

(** ** The prompt of [search_engine_3]

    [str.split(sep)] for a separator of one character: the pieces between
    the occurrences of the separator, empty pieces included. *)
Fixpoint py_split (sep : ascii) (s : string) : list string :=
  match s with
  | EmptyString => [EmptyString]
  | String c s' =>
      if Ascii.eqb c sep then EmptyString :: py_split sep s'
      else match py_split sep s' with
           | [] => [String c EmptyString]
           | piece :: pieces => String c piece :: pieces
           end
  end.

Section prompt.
(** [str.lower] is the library's; it is a parameter. *)
Variable py_lower : string → string.

(** The [while True] loop that reads the criteria, on the lines that
    [input] returns one after the other. A line that lowers to ["end"]
    leaves the loop. When the lines are used up [input] raises [EOFError],
    which the bare [except] catches, and the loop goes round for ever:
    there is no result. [info[0]] cannot fail, [split] returning at least
    one piece; the model still routes that case to the [except] branch. *)
Fixpoint read_additional_info (lines : list string)
    (additional_info : list (list string)) : py (list (list string)) :=
  match lines with
  | [] => OutOfFuel
  | line :: lines' =>
      let info := py_lower line in
      if String.eqb info "end" then Done additional_info
      else
        let info := py_split ":"%char info in
        match info !! 0 with
        | Some name =>
            if decide (is_Some (field_to_idx !! name))
            then read_additional_info lines' (additional_info ++ [info])
            else read_additional_info lines' additional_info
        | None => read_additional_info lines' additional_info
        end
  end.
End prompt.

(** A split line whose first piece is one of the field names. *)
Definition known_field (item : list string) : bool :=
  match item !! 0 with
  | Some name => bool_decide (is_Some (field_to_idx !! name))
  | None => false
  end.

(** ** Criteria, decided *)

Section criteria.
Context {Field : Type}.
Variable py_in : string → Field → bool.

(** Whether the value of a criterion is found in the field it names;
    [None] when the evaluation of the test raises: the criterion has no
    second piece, names no field, or names a field that the document
    lacks. *)
Definition criterion_hit (all_fields : list Field) (item : list string)
    : option bool :=
  needle ← item !! 1;
  name ← item !! 0;
  pos ← field_to_idx !! name;
  field ← all_fields !! pos;
  Some (py_in needle field).

(** The number of criteria that are found. *)
Definition hits (all_fields : list Field)
    (additional_info : list (list string)) : nat :=
  length (filter (λ item, criterion_hit all_fields item = Some true)
            additional_info).
End criteria.

(** * Properties *)

(** ** The [py] monad *)

Lemma py_bind_Done {A B} (f : A → py B) (m : py A) (b : B) :
  m ≫= f = Done b ↔ ∃ a, m = Done a ∧ f a = Done b.
Proof.
  destruct m as [a| |]; simpl; split.
  - intros Hf. exists a. done.
  - intros (a' & [= <-] & Hf). done.
  - done.
  - intros (? & [=] & _).
  - done.
  - intros (? & [=] & _).
Qed.

Lemma mapM_py_Done {A B} (f : A → py B) (l : list A) (k : list B) :
  mapM f l = Done k ↔ Forall2 (λ x y, f x = Done y) l k.
Proof.
  revert k. induction l as [|x l IH]; intros k; simpl.
  - split.
    + intros [= <-]. constructor.
    + intros Hk. inversion Hk. done.
  - split.
    + intros Hm. apply py_bind_Done in Hm as (y & Hy & Hm).
      apply py_bind_Done in Hm as (k' & Hk' & [= <-]).
      constructor; [done|]. by apply IH.
    + intros Hk. inversion Hk as [|? y ? k' Hy Hk']; subst.
      rewrite Hy. simpl. apply IH in Hk'. rewrite Hk'. done.
Qed.

Lemma for_each_app {A S} (body : A → S → py S) (l1 l2 : list A) (s : S) :
  for_each body (l1 ++ l2) s = for_each body l1 s ≫= for_each body l2.
Proof.
  revert s. induction l1 as [|x l1 IH]; intros s; simpl; [done|].
  destruct (body x s) as [s'| |]; simpl; [apply IH|done|done].
Qed.

Lemma getitem_Done {A} (l : list A) (i : nat) (x : A) :
  getitem l i = Done x ↔ l !! i = Some x.
Proof.
  unfold getitem. destruct (l !! i); split; intros H; by simplify_eq.
Qed.

Lemma dict_getitem_Done `{Countable K} {V} (d : gmap K V) (k : K) (v : V) :
  dict_getitem d k = Done v ↔ d !! k = Some v.
Proof.
  unfold dict_getitem. destruct (d !! k); split; intros ?; by simplify_eq.
Qed.

Lemma py_all_true (l : list bool) : py_all l = true ↔ Forall (λ b, b = true) l.
Proof.
  unfold py_all. rewrite forallb_forall, Forall_forall.
  split; intros Hl b Hb; apply Hl; by apply list_elem_of_In.
Qed.

Lemma py_max_spec (x : Z) (l : list Z) :
  ∃ m, py_max (x :: l) = Done m ∧ m ∈ x :: l ∧ Forall (λ y, (y ≤ m)%Z) (x :: l).
Proof.
  simpl. exists (foldl Z.max x l). split; [done|].
  revert x. induction l as [|y l IH]; intros x; simpl.
  - split; [apply list_elem_of_here|]. repeat constructor. lia.
  - destruct (IH (Z.max x y)) as [Hin Hle]. split.
    + apply elem_of_cons in Hin as [Hin|Hin].
      * rewrite Hin. destruct (Z.max_spec x y) as [[_ ->]|[_ ->]].
        -- apply list_elem_of_further, list_elem_of_here.
        -- apply list_elem_of_here.
      * by do 2 apply list_elem_of_further.
    + inversion Hle as [|? ? Hxy Hl]; subst.
      constructor; [lia|]. constructor; [lia|done].
Qed.

(** ** The merge loop: reading under the cursors *)

Section merge_facts.
Context {A Acc : Type}.
Variable doc_of : A → Z.
Variable on_match : Z → list nat → list (nat * list A) → Acc → py Acc.

Lemma loop_cond_true (idx : list nat) (Ls : list (list A)) :
  length idx = length Ls →
  loop_cond idx (length <$> Ls) = true →
  ∃ cur, under idx Ls cur.
Proof.
  unfold loop_cond. rewrite py_all_true.
  revert Ls. induction idx as [|i idx IH]; intros [|L Ls] Hlen Hall;
    simplify_eq/=.
  - exists []. constructor.
  - inversion Hall as [|? ? Hi Hrest]; subst.
    apply Nat.ltb_lt in Hi. apply lookup_lt_is_Some_2 in Hi as [x Hx].
    destruct (IH Ls) as [cur Hcur]; [done|done|].
    exists (x :: cur). by constructor.
Qed.

Lemma loop_cond_false (idx : list nat) (Ls : list (list A)) :
  length idx = length Ls →
  loop_cond idx (length <$> Ls) = false →
  Exists (λ '(i, L), length L ≤ i) (zip idx Ls).
Proof.
  unfold loop_cond, py_all.
  revert Ls. induction idx as [|i idx IH]; intros [|L Ls] Hlen Hall;
    simplify_eq/=.
  apply andb_false_iff in Hall as [Hi|Hrest].
  - apply Exists_cons_hd. apply Nat.ltb_ge in Hi. done.
  - apply Exists_cons_tl. by apply IH.
Qed.

Lemma under_cursors_from {B} (f : A → B) (idx : list nat) (off : nat)
    (isuf : list nat) (Ls : list (list A)) (cur : list A) :
  under isuf Ls cur →
  (∀ k, k < length isuf → idx !! (off + k) = isuf !! k) →
  under_cursors f idx (imap (λ k, pair (off + k)) Ls) = Done (f <$> cur).
Proof.
  unfold under_cursors. intros Hu. revert off.
  induction Hu as [|i L x isuf Ls cur Hx Hu IH]; intros off Hidx; [done|].
  rewrite imap_cons. cbn [mapM].
  assert (getitem idx (off + 0) = Done i) as ->.
  { apply getitem_Done. rewrite Hidx by (simpl; lia). done. }
  simpl. assert (getitem L i = Done x) as -> by by apply getitem_Done.
  simpl. rewrite (imap_ext _ (λ k, pair (S off + k))).
  2:{ intros k ? _. simpl. f_equal. lia. }
  rewrite IH; [done|].
  intros k Hk. specialize (Hidx (S k)). simpl in Hidx.
  rewrite <- Hidx by lia. f_equal. lia.
Qed.

Lemma under_cursors_spec {B} (f : A → B) (idx : list nat)
    (Ls : list (list A)) (cur : list A) :
  under idx Ls cur →
  under_cursors f idx (enumerate Ls) = Done (f <$> cur).
Proof.
  intros Hu. apply (under_cursors_from f idx 0 idx Ls cur Hu). done.
Qed.

Lemma advance_from (max_num : Z) (pre isuf : list nat)
    (Ls : list (list A)) (cur : list A) :
  under isuf Ls cur →
  advance doc_of max_num Ls (length pre) (pre ++ isuf)
  = Done (pre ++ zip_with (moved doc_of max_num) isuf cur).
Proof.
  intros Hu. revert pre.
  induction Hu as [|i L x isuf Ls cur Hx Hu IH]; intros pre; [done|].
  cbn [advance].
  assert (getitem (pre ++ i :: isuf) (length pre) = Done i) as ->.
  { apply getitem_Done. by rewrite list_lookup_middle. }
  simpl. assert (getitem L i = Done x) as -> by by apply getitem_Done.
  simpl. unfold moved at 1.
  destruct (bool_decide (doc_of x = max_num)).
  - specialize (IH (pre ++ [i])).
    rewrite length_app, Nat.add_1_r, <- !app_assoc in IH. exact IH.
  - specialize (IH (pre ++ [S i])).
    rewrite length_app, Nat.add_1_r, <- !app_assoc in IH.
    rewrite insert_app_r_alt, Nat.sub_diag by done. exact IH.
Qed.

Lemma advance_spec (max_num : Z) (idx : list nat) (Ls : list (list A))
    (cur : list A) :
  under idx Ls cur →
  advance doc_of max_num Ls 0 idx = Done (zip_with (moved doc_of max_num) idx cur).
Proof. intros Hu. apply (advance_from max_num [] idx Ls cur Hu). Qed.

Lemma py_all_eqs (max_num : Z) (cur : list A) :
  py_all ((λ x, bool_decide (doc_of x = max_num)) <$> cur) = true
  ↔ Forall (λ x, doc_of x = max_num) cur.
Proof.
  rewrite py_all_true, Forall_fmap. apply Forall_iff. intros x. simpl.
  by rewrite bool_decide_eq_true.
Qed.

(** What one iteration does, when every cursor is inside its list. *)
Lemma loop_body_spec (idx : list nat) (Ls : list (list A)) (cur : list A)
    (acc : Acc) :
  Ls ≠ [] →
  under idx Ls cur →
  ∃ max_num, is_max doc_of max_num cur ∧
    ((Forall (λ x, doc_of x = max_num) cur ∧
      loop_body doc_of on_match Ls (enumerate Ls) (idx, acc)
      = acc' ← on_match max_num idx (enumerate Ls) acc;
        mret (S <$> idx, acc'))
     ∨ (¬ Forall (λ x, doc_of x = max_num) cur ∧
        loop_body doc_of on_match Ls (enumerate Ls) (idx, acc)
        = Done (zip_with (moved doc_of max_num) idx cur, acc))).
Proof.
  intros Hne Hu. unfold loop_body.
  rewrite (under_cursors_spec doc_of idx Ls cur Hu).
  destruct cur as [|x cur]; [inversion Hu; simplify_eq|].
  destruct (py_max_spec (doc_of x) (doc_of <$> cur))
    as (max_num & Hmax & Hin & Hle).
  rewrite <- fmap_cons in Hmax, Hin, Hle.
  remember (x :: cur) as c eqn:Hc. clear Hc.
  exists max_num. split.
  { split; [done|]. by rewrite Forall_fmap in Hle. }
  simpl. rewrite Hmax. simpl.
  rewrite (under_cursors_spec _ idx Ls c Hu). simpl.
  destruct (py_all _) eqn:Hall.
  - left. split; [by apply py_all_eqs|done].
  - right. split.
    + intros Hcontra. apply py_all_eqs in Hcontra. congruence.
    + rewrite (advance_spec max_num idx Ls c Hu). done.
Qed.

(** *** Progress of the cursors *)

Lemma under_inside (idx : list nat) (Ls : list (list A)) (cur : list A) :
  under idx Ls cur → Forall2 (λ i L, i < length L) idx Ls.
Proof.
  induction 1 as [|i L x idx Ls cur Hx _ IH]; constructor; [|done].
  by apply lookup_lt_Some in Hx.
Qed.

Lemma inside_sum (idx : list nat) (Ls : list (list A)) :
  Ls ≠ [] →
  Forall2 (λ i L, i < length L) idx Ls →
  sum_list idx < sum_list (length <$> Ls).
Proof.
  intros Hne Hin. induction Hin as [|i L idx Ls Hi Hin IH]; [done|].
  simpl. destruct Ls as [|L' Ls].
  - inversion Hin. simpl. lia.
  - specialize (IH ltac:(done)). simpl in *. lia.
Qed.

Lemma within_sum (idx : list nat) (Ls : list (list A)) :
  Forall2 (λ i L, i ≤ length L) idx Ls →
  sum_list idx ≤ sum_list (length <$> Ls).
Proof. induction 1; csimpl; lia. Qed.

Lemma within_all_moved (idx : list nat) (Ls : list (list A))
    (cur : list A) :
  under idx Ls cur → Forall2 (λ i L, i ≤ length L) (S <$> idx) Ls.
Proof.
  induction 1 as [|i L x idx Ls cur Hx _ IH]; simpl; constructor; [|done].
  apply lookup_lt_Some in Hx. lia.
Qed.

Lemma within_moved (max_num : Z) (idx : list nat) (Ls : list (list A))
    (cur : list A) :
  under idx Ls cur →
  Forall2 (λ i L, i ≤ length L) (zip_with (moved doc_of max_num) idx cur) Ls.
Proof.
  induction 1 as [|i L x idx Ls cur Hx _ IH]; simpl; constructor; [|done].
  apply lookup_lt_Some in Hx. unfold moved. case_bool_decide; lia.
Qed.

Lemma sum_all_moved (idx : list nat) :
  sum_list (S <$> idx) = sum_list idx + length idx.
Proof. induction idx; csimpl; lia. Qed.

Lemma sum_moved_le (max_num : Z) (idx : list nat) (cur : list A) :
  length idx = length cur →
  sum_list idx ≤ sum_list (zip_with (moved doc_of max_num) idx cur).
Proof.
  revert cur. induction idx as [|i idx IH]; intros [|x cur] Hlen;
    simplify_eq/=; [done|].
  specialize (IH cur ltac:(done)). unfold moved at 1.
  case_bool_decide; lia.
Qed.

Lemma sum_moved_lt (max_num : Z) (idx : list nat) (cur : list A) :
  length idx = length cur →
  ¬ Forall (λ x, doc_of x = max_num) cur →
  sum_list idx < sum_list (zip_with (moved doc_of max_num) idx cur).
Proof.
  revert cur. induction idx as [|i idx IH]; intros [|x cur] Hlen Hsome;
    simplify_eq/=.
  { destruct Hsome. constructor. }
  pose proof (sum_moved_le max_num idx cur ltac:(done)) as Hle.
  unfold moved at 1. case_bool_decide as Hx; [|lia].
  assert (¬ Forall (λ x, doc_of x = max_num) cur) as Hrest.
  { intros Hall. apply Hsome. by constructor. }
  specialize (IH cur ltac:(done) Hrest). lia.
Qed.

(** Every iteration moves at least one cursor forward, none backward and
    none beyond the end of its list. *)
Lemma loop_body_progress (idx : list nat) (Ls : list (list A))
    (cur : list A) (acc : Acc) (idx' : list nat) (acc' : Acc) :
  Ls ≠ [] →
  under idx Ls cur →
  loop_body doc_of on_match Ls (enumerate Ls) (idx, acc) = Done (idx', acc') →
  sum_list idx < sum_list idx' ∧
  Forall2 (λ i i', i ≤ i' ≤ S i) idx idx' ∧
  Forall2 (λ i L, i ≤ length L) idx' Ls.
Proof.
  intros Hne Hu Hbody.
  destruct (loop_body_spec idx Ls cur acc Hne Hu)
    as (max_num & _ & [[Hall Heq]|[Hsome Heq]]);
    rewrite Heq in Hbody.
  - apply py_bind_Done in Hbody as (acc1 & _ & [= <- <-]).
    split_and!.
    + rewrite sum_all_moved. apply Forall3_length_lm in Hu.
      destruct idx, Ls; simplify_eq/=. lia.
    + apply Forall2_fmap_r, Forall_Forall2_diag, Forall_true. intros i. simpl. lia.
    + by eapply within_all_moved.
  - injection Hbody as <- <-. split_and!.
    + apply sum_moved_lt; [|done]. by eapply Forall3_length_lr.
    + clear Hsome Heq Hne.
      induction Hu as [|i L x idx Ls cur _ _ IH]; simpl; [constructor|].
      constructor; [|done]. unfold moved. case_bool_decide; lia.
    + by apply within_moved.
Qed.

(** *** A total-correctness rule for the loop

    An invariant [I] that survives a match and a skip holds when the loop
    ends, and the loop does end within the given fuel. *)
Lemma merge_loop_rule (I : list nat → Acc → Prop) (Ls : list (list A)) :
  Ls ≠ [] →
  (∀ idx acc cur max_num,
     I idx acc → under idx Ls cur → is_max doc_of max_num cur →
     Forall (λ x, doc_of x = max_num) cur →
     ∃ acc', on_match max_num idx (enumerate Ls) acc = Done acc'
             ∧ I (S <$> idx) acc') →
  (∀ idx acc cur max_num,
     I idx acc → under idx Ls cur → is_max doc_of max_num cur →
     ¬ Forall (λ x, doc_of x = max_num) cur →
     I (zip_with (moved doc_of max_num) idx cur) acc) →
  ∀ fuel idx acc,
    I idx acc →
    Forall2 (λ i L, i ≤ length L) idx Ls →
    sum_list (length <$> Ls) - sum_list idx < fuel →
    ∃ idx' acc',
      merge_loop doc_of on_match fuel Ls (length <$> Ls) (enumerate Ls)
        (idx, acc) = Done acc'
      ∧ I idx' acc'
      ∧ length idx' = length Ls
      ∧ loop_cond idx' (length <$> Ls) = false.
Proof.
  intros Hne Hmatch Hskip fuel.
  induction fuel as [|fuel IH]; intros idx acc HI Hwithin Hfuel; [lia|].
  pose proof (Forall2_length _ _ _ Hwithin) as Hlen.
  cbn [merge_loop fst snd]. destruct (loop_cond idx _) eqn:Hcond.
  2:{ exists idx, acc. done. }
  destruct (loop_cond_true idx Ls Hlen Hcond) as [cur Hu].
  pose proof (inside_sum idx Ls Hne (under_inside _ _ _ Hu)) as Hspace.
  destruct (loop_body_spec idx Ls cur acc Hne Hu)
    as (max_num & Hmax & [[Hall Heq]|[Hsome Heq]]); rewrite Heq.
  - destruct (Hmatch idx acc cur max_num HI Hu Hmax Hall)
      as (acc' & -> & HI').
    simpl. apply IH; [done|by eapply within_all_moved|].
    rewrite sum_all_moved. destruct idx; simplify_eq/=; [|lia].
    by destruct Ls.
  - simpl. apply IH.
    + by eapply Hskip.
    + by apply within_moved.
    + apply Forall3_length_lr in Hu.
      pose proof (sum_moved_lt max_num idx cur Hu Hsome). lia.
Qed.
End merge_facts.

(** ** The merge loop computes the intersection *)

Section merge_intersection.
Context {A : Type}.
Variable doc_of : A → Z.

Lemma ascending_drop (i : nat) (L : list A) :
  ascending doc_of L → ascending doc_of (drop i L).
Proof.
  unfold ascending. revert i. induction L as [|a L IH]; intros i HL.
  - by rewrite drop_nil.
  - destruct i as [|i]; [done|]. simpl. apply IH.
    by inversion HL.
Qed.

Lemma ascending_after (i : nat) (L : list A) (a : A) :
  ascending doc_of L → L !! i = Some a →
  Forall (λ b, (doc_of a < doc_of b)%Z) (drop (S i) L).
Proof.
  intros HL Ha. apply (ascending_drop i) in HL.
  rewrite (drop_S _ _ _ Ha) in HL. by inversion HL.
Qed.

Lemma elem_of_drop_cursor (i : nat) (L : list A) (a : A) (x : Z) :
  L !! i = Some a →
  x ∈ doc_of <$> drop i L ↔ x = doc_of a ∨ x ∈ doc_of <$> drop (S i) L.
Proof.
  intros Ha. rewrite (drop_S _ _ _ Ha), fmap_cons. apply elem_of_cons.
Qed.

Lemma Forall_drop_S {P : A → Prop} (i : nat) (L : list A) :
  Forall P (drop i L) → Forall P (drop (S i) L).
Proof.
  intros HP. replace (S i) with (i + 1) by lia. rewrite <- drop_drop.
  by apply Forall_drop.
Qed.

Lemma elem_of_drop_S (i : nat) (L : list A) (x : Z) :
  x ∈ doc_of <$> drop (S i) L → x ∈ doc_of <$> drop i L.
Proof.
  intros Hx. replace (S i) with (i + 1) in Hx by lia.
  rewrite <- drop_drop, fmap_drop in Hx.
  by apply (subseteq_drop 1 (doc_of <$> drop i L)).
Qed.

(** *** Documents behind the cursors *)

Lemma behind_all_moved (idx : list nat) (Ls : list (list A)) (x : Z) :
  behind doc_of Ls idx x → behind doc_of Ls (S <$> idx) x.
Proof.
  unfold behind. induction 1 as [|i L idx Ls Hi _ IH]; csimpl;
    constructor; [|done].
  by apply Forall_drop_S.
Qed.

Lemma behind_moved (max_num : Z) (idx : list nat) (Ls : list (list A))
    (cur : list A) (x : Z) :
  under idx Ls cur →
  behind doc_of Ls idx x →
  behind doc_of Ls (zip_with (moved doc_of max_num) idx cur) x.
Proof.
  unfold behind. induction 1 as [|i L a idx Ls cur Ha _ IH]; intros Hb;
    [done|].
  inversion Hb as [|? ? ? ? Hi Hrest]; subst. simpl.
  constructor; [|by apply IH].
  unfold moved. case_bool_decide; [done|]. by apply Forall_drop_S.
Qed.

Lemma behind_match (max_num : Z) (idx : list nat) (Ls : list (list A))
    (cur : list A) :
  under idx Ls cur →
  Forall (ascending doc_of) Ls →
  Forall (λ a, doc_of a = max_num) cur →
  behind doc_of Ls (S <$> idx) max_num.
Proof.
  unfold behind. induction 1 as [|i L a idx Ls cur Ha _ IH];
    intros Hasc Hall; csimpl; [constructor|].
  inversion Hasc as [|? ? HL Hrest]; subst.
  inversion Hall as [|? ? Hdoc Hcur]; subst.
  constructor; [|by apply IH].
  by apply ascending_after.
Qed.

Lemma behind_lt (max_num : Z) (idx : list nat) (Ls : list (list A))
    (cur : list A) (x : Z) :
  Ls ≠ [] →
  under idx Ls cur →
  Forall (λ a, doc_of a = max_num) cur →
  behind doc_of Ls idx x →
  (x < max_num)%Z.
Proof.
  intros Hne Hu Hall Hb.
  destruct Hu as [|i L a idx Ls cur Ha _]; [done|].
  inversion Hall as [|? ? Hdoc _]; subst.
  inversion Hb as [|? ? ? ? Hi _]; subst.
  rewrite (drop_S _ _ _ Ha) in Hi. by inversion Hi.
Qed.

(** *** Documents ahead of the cursors *)

Lemma ahead_all_moved_inv (idx : list nat) (Ls : list (list A)) (x : Z) :
  ahead doc_of Ls (S <$> idx) x → ahead doc_of Ls idx x.
Proof.
  unfold ahead. intros Ha. apply Forall2_fmap_l in Ha.
  eapply Forall2_impl; [exact Ha|]. intros i L. apply elem_of_drop_S.
Qed.

Lemma ahead_moved_inv (max_num : Z) (idx : list nat) (Ls : list (list A))
    (cur : list A) (x : Z) :
  under idx Ls cur →
  ahead doc_of Ls (zip_with (moved doc_of max_num) idx cur) x →
  ahead doc_of Ls idx x.
Proof.
  unfold ahead. induction 1 as [|i L a idx Ls cur Ha _ IH]; intros Hx;
    [done|].
  simpl in Hx. inversion Hx as [|? ? ? ? Hi Hrest]; subst.
  constructor; [|by apply IH].
  unfold moved in Hi. case_bool_decide; [done|]. by apply elem_of_drop_S.
Qed.

Lemma ahead_match (max_num : Z) (idx : list nat) (Ls : list (list A))
    (cur : list A) :
  under idx Ls cur →
  Forall (λ a, doc_of a = max_num) cur →
  ahead doc_of Ls idx max_num.
Proof.
  unfold ahead. induction 1 as [|i L a idx Ls cur Ha _ IH]; intros Hall;
    [constructor|].
  inversion Hall as [|? ? Hdoc Hcur]; subst.
  constructor; [|by apply IH].
  apply (elem_of_drop_cursor i L a _ Ha). by left.
Qed.

Lemma ahead_not_match (max_num : Z) (idx : list nat) (Ls : list (list A))
    (cur : list A) (x : Z) :
  under idx Ls cur →
  Forall (λ a, doc_of a = max_num) cur →
  x ≠ max_num →
  ahead doc_of Ls idx x →
  ahead doc_of Ls (S <$> idx) x.
Proof.
  unfold ahead. induction 1 as [|i L a idx Ls cur Ha _ IH];
    intros Hall Hne Hx; csimpl; [constructor|].
  inversion Hall as [|? ? Hdoc Hcur]; subst.
  inversion Hx as [|? ? ? ? Hi Hrest]; subst.
  constructor; [|by apply IH].
  apply (elem_of_drop_cursor i L a _ Ha) in Hi as [?|?]; done.
Qed.

Lemma ahead_ge (idx : list nat) (Ls : list (list A)) (cur : list A)
    (x : Z) :
  under idx Ls cur →
  Forall (ascending doc_of) Ls →
  ahead doc_of Ls idx x →
  Forall (λ a, (doc_of a ≤ x)%Z) cur.
Proof.
  unfold ahead. induction 1 as [|i L a idx Ls cur Ha _ IH];
    intros Hasc Hx; [constructor|].
  inversion Hasc as [|? ? HL Hrest]; subst.
  inversion Hx as [|? ? ? ? Hi Hrest']; subst.
  constructor; [|by apply IH].
  apply (elem_of_drop_cursor i L a _ Ha) in Hi as [->|Hi]; [lia|].
  pose proof (ascending_after i L a HL Ha) as Hafter.
  apply list_elem_of_fmap in Hi as (b & -> & Hb).
  rewrite Forall_forall in Hafter. specialize (Hafter b Hb). lia.
Qed.

Lemma ahead_moved (max_num : Z) (idx : list nat) (Ls : list (list A))
    (cur : list A) (x : Z) :
  under idx Ls cur →
  Forall (λ a, (doc_of a ≤ max_num)%Z) cur →
  (max_num ≤ x)%Z →
  ahead doc_of Ls idx x →
  ahead doc_of Ls (zip_with (moved doc_of max_num) idx cur) x.
Proof.
  unfold ahead. induction 1 as [|i L a idx Ls cur Ha _ IH];
    intros Hle Hmx Hx; [constructor|].
  inversion Hle as [|? ? Hdoc Hcur]; subst.
  inversion Hx as [|? ? ? ? Hi Hrest]; subst.
  simpl. constructor; [|by apply IH].
  unfold moved. case_bool_decide as Hm; [done|].
  apply (elem_of_drop_cursor i L a _ Ha) in Hi as [->|Hi]; [lia|done].
Qed.

Lemma ahead_exhausted (idx : list nat) (Ls : list (list A)) (x : Z) :
  Exists (λ '(i, L), length L ≤ i) (zip idx Ls) →
  ¬ ahead doc_of Ls idx x.
Proof.
  unfold ahead. intros Hex Hx.
  induction Hx as [|i L idx Ls Hi _ IH]; [by inversion Hex|].
  simpl in Hex. apply Exists_cons in Hex as [Hend|Hex]; [|by apply IH].
  rewrite drop_ge in Hi by done. by apply elem_of_nil in Hi.
Qed.

Lemma ahead_start (Ls : list (list A)) (x : Z) :
  ahead doc_of Ls (replicate (length Ls) 0) x ↔ common doc_of Ls x.
Proof.
  unfold ahead, common. induction Ls as [|L Ls IH]; simpl.
  - split; constructor.
  - rewrite Forall2_cons, Forall_cons, IH. done.
Qed.

(** *** The invariant *)

Lemma merge_inv_start (Ls : list (list A)) :
  merge_inv doc_of Ls (replicate (length Ls) 0) [].
Proof.
  split_and!.
  - constructor.
  - intros x Hx. by apply elem_of_nil in Hx.
  - intros x. rewrite ahead_start. split; [by right|].
    intros [Hx|Hx]; [by apply elem_of_nil in Hx|done].
Qed.

Lemma merge_inv_match (max_num : Z) (idx : list nat) (Ls : list (list A))
    (cur : list A) (ks : list Z) :
  Ls ≠ [] →
  Forall (ascending doc_of) Ls →
  under idx Ls cur →
  Forall (λ a, doc_of a = max_num) cur →
  merge_inv doc_of Ls idx ks →
  merge_inv doc_of Ls (S <$> idx) (ks ++ [max_num]).
Proof.
  intros Hne Hasc Hu Hall (Hsorted & Hbehind & Hcommon). split_and!.
  - apply StronglySorted_app_2; [|done|repeat constructor].
    intros x y Hx Hy. apply list_elem_of_singleton in Hy as ->.
    eapply behind_lt; eauto.
  - intros x Hx. apply elem_of_app in Hx as [Hx|Hx].
    + apply behind_all_moved. by apply Hbehind.
    + apply list_elem_of_singleton in Hx as ->. by eapply behind_match.
  - intros x. rewrite Hcommon, elem_of_app, list_elem_of_singleton.
    split.
    + intros [Hx|Hx]; [by left; left|].
      destruct (decide (x = max_num)) as [->|Hne']; [by left; right|].
      right. by eapply ahead_not_match.
    + intros [[Hx| ->]|Hx]; [by left| |].
      * right. by eapply ahead_match.
      * right. by apply ahead_all_moved_inv.
Qed.

Lemma merge_inv_skip (max_num : Z) (idx : list nat) (Ls : list (list A))
    (cur : list A) (ks : list Z) :
  Forall (ascending doc_of) Ls →
  under idx Ls cur →
  is_max doc_of max_num cur →
  merge_inv doc_of Ls idx ks →
  merge_inv doc_of Ls (zip_with (moved doc_of max_num) idx cur) ks.
Proof.
  intros Hasc Hu [Hin Hle] (Hsorted & Hbehind & Hcommon). split_and!.
  - done.
  - intros x Hx. apply behind_moved; [done|]. by apply Hbehind.
  - intros x. rewrite Hcommon. split.
    + intros [Hx|Hx]; [by left|]. right.
      apply ahead_moved; [done..| |done].
      pose proof (ahead_ge idx Ls cur x Hu Hasc Hx) as Hge.
      apply list_elem_of_fmap in Hin as (a & -> & Ha).
      rewrite Forall_forall in Hge. by apply Hge.
    + intros [Hx|Hx]; [by left|]. right. by eapply ahead_moved_inv.
Qed.

Lemma merge_inv_end (idx : list nat) (Ls : list (list A)) (ks : list Z) :
  length idx = length Ls →
  loop_cond idx (length <$> Ls) = false →
  merge_inv doc_of Ls idx ks →
  StronglySorted Z.lt ks ∧ ∀ x, x ∈ ks ↔ common doc_of Ls x.
Proof.
  intros Hlen Hcond (Hsorted & _ & Hcommon). split; [done|].
  intros x. rewrite Hcommon. split; [by left|].
  intros [Hx|Hx]; [done|].
  by apply ahead_exhausted in Hx; [|apply loop_cond_false].
Qed.
End merge_intersection.

(** ** The merge loop, from start to end *)

Section merge_total.
Context {A Acc : Type}.
Variable doc_of : A → Z.
Variable on_match : Z → list nat → list (nat * list A) → Acc → py Acc.

Lemma within_start (Ls : list (list A)) :
  Forall2 (λ i L, i ≤ length L) (replicate (length Ls) 0) Ls.
Proof. induction Ls; simpl; constructor; [lia|done]. Qed.

(** The loop ends normally on any lists, sorted or not, provided the
    action taken on a match does. *)
Lemma merge_terminates (Ls : list (list A)) (acc : Acc) (fuel : nat) :
  Ls ≠ [] →
  (∀ max_num idx cur acc,
     under idx Ls cur →
     ∃ acc', on_match max_num idx (enumerate Ls) acc = Done acc') →
  sum_list (length <$> Ls) < fuel →
  ∃ acc', merge doc_of on_match fuel Ls acc = Done acc'.
Proof.
  intros Hne Hok Hfuel. unfold merge.
  destruct (merge_loop_rule doc_of on_match (λ _ _, True) Ls Hne)
    with (fuel := fuel) (idx := replicate (length Ls) 0) (acc := acc)
    as (idx' & acc' & Hrun & _).
  - intros idx acc0 cur max_num _ Hu _ _.
    destruct (Hok max_num idx cur acc0 Hu) as [acc' Hacc']. eauto.
  - done.
  - done.
  - apply within_start.
  - lia.
  - eauto.
Qed.

(** On ascending lists the matches are the common documents, ascending. *)
Lemma merge_intersects (P : list Z → Acc → Prop) (Ls : list (list A))
    (acc : Acc) (fuel : nat) :
  Ls ≠ [] →
  Forall (ascending doc_of) Ls →
  P [] acc →
  (∀ ks acc idx cur max_num,
     P ks acc → under idx Ls cur →
     Forall (λ a, doc_of a = max_num) cur →
     ∃ acc', on_match max_num idx (enumerate Ls) acc = Done acc'
             ∧ P (ks ++ [max_num]) acc') →
  sum_list (length <$> Ls) < fuel →
  ∃ ks acc',
    merge doc_of on_match fuel Ls acc = Done acc'
    ∧ P ks acc'
    ∧ StronglySorted Z.lt ks
    ∧ ∀ x, x ∈ ks ↔ common doc_of Ls x.
Proof.
  intros Hne Hasc HP Hok Hfuel. unfold merge.
  destruct (merge_loop_rule doc_of on_match
              (λ idx acc, ∃ ks, P ks acc ∧ merge_inv doc_of Ls idx ks)
              Ls Hne)
    with (fuel := fuel) (idx := replicate (length Ls) 0) (acc := acc)
    as (idx' & acc' & Hrun & (ks & HP' & Hinv) & Hlen & Hcond).
  - intros idx acc0 cur max_num (ks & HP0 & Hinv) Hu _ Hall.
    destruct (Hok ks acc0 idx cur max_num HP0 Hu Hall) as (acc' & ? & ?).
    exists acc'. split; [done|]. exists (ks ++ [max_num]).
    split; [done|]. by eapply merge_inv_match.
  - intros idx acc0 cur max_num (ks & HP0 & Hinv) Hu Hmax _.
    exists ks. split; [done|]. by apply merge_inv_skip.
  - exists []. split; [done|]. apply merge_inv_start.
  - apply within_start.
  - lia.
  - exists ks, acc'. split; [done|]. split; [done|].
    by eapply merge_inv_end.
Qed.

(** Once a cursor has passed the end of its list the loop is over. *)
Lemma loop_cond_exhausted (idx : list nat) (Ls : list (list A)) :
  Exists (λ '(i, L), length L ≤ i) (zip idx Ls) →
  loop_cond idx (length <$> Ls) = false.
Proof.
  unfold loop_cond, py_all. revert Ls.
  induction idx as [|i idx IH]; intros [|L Ls] Hex; simpl in *;
    try by inversion Hex.
  apply andb_false_iff. apply Exists_cons in Hex as [Hend|Hex].
  - left. by apply Nat.ltb_ge.
  - right. by apply IH.
Qed.

Lemma merge_loop_exit (fuel : nat) (idx : list nat) (Ls : list (list A))
    (acc : Acc) :
  Exists (λ '(i, L), length L ≤ i) (zip idx Ls) →
  merge_loop doc_of on_match (S fuel) Ls (length <$> Ls) (enumerate Ls)
    (idx, acc) = Done acc.
Proof.
  intros Hex. cbn [merge_loop fst snd].
  by rewrite (loop_cond_exhausted idx Ls Hex).
Qed.

(** While every cursor is inside its list an iteration goes through and
    moves the cursors on. *)
Lemma loop_body_advances (idx : list nat) (Ls : list (list A)) (acc : Acc) :
  Ls ≠ [] →
  (∀ max_num idx cur acc,
     under idx Ls cur →
     ∃ acc', on_match max_num idx (enumerate Ls) acc = Done acc') →
  length idx = length Ls →
  loop_cond idx (length <$> Ls) = true →
  ∃ idx' acc',
    loop_body doc_of on_match Ls (enumerate Ls) (idx, acc) = Done (idx', acc')
    ∧ sum_list idx < sum_list idx'
    ∧ Forall2 (λ i i', i ≤ i' ≤ S i) idx idx'
    ∧ Forall2 (λ i L, i ≤ length L) idx' Ls.
Proof.
  intros Hne Hok Hlen Hcond.
  destruct (loop_cond_true idx Ls Hlen Hcond) as [cur Hu].
  assert (∃ st', loop_body doc_of on_match Ls (enumerate Ls) (idx, acc)
                 = Done st') as [[idx' acc'] Hbody].
  { destruct (loop_body_spec doc_of on_match idx Ls cur acc Hne Hu)
      as (max_num & _ & [[_ Heq]|[_ Heq]]); rewrite Heq; [|eauto].
    destruct (Hok max_num idx cur acc Hu) as [acc' ->]. simpl. eauto. }
  exists idx', acc'. split; [done|].
  by eapply loop_body_progress.
Qed.
End merge_total.

(** Two strictly ascending lists with the same elements are equal. *)
Lemma ascending_ext (l1 l2 : list Z) :
  StronglySorted Z.lt l1 → StronglySorted Z.lt l2 →
  (∀ x, x ∈ l1 ↔ x ∈ l2) → l1 = l2.
Proof.
  intros H1 H2 Hext. apply (StronglySorted_unique_strong Z.lt); [|done..|].
  { intros; lia. }
  apply NoDup_Permutation; [| |done].
  - clear H2 Hext. induction H1 as [|x l _ IH Hx]; constructor; [|done].
    intros Hin. rewrite Forall_forall in Hx. specialize (Hx x Hin). lia.
  - clear H1 Hext. induction H2 as [|x l _ IH Hx]; constructor; [|done].
    intros Hin. rewrite Forall_forall in Hx. specialize (Hx x Hin). lia.
Qed.

Lemma ascending_id (L : list Z) :
  ascending (λ doc, doc) L ↔ StronglySorted Z.lt L.
Proof. done. Qed.

Lemma common_id (Ls : list (list Z)) (x : Z) :
  common (λ doc, doc) Ls x ↔ ∀ L, L ∈ Ls → x ∈ L.
Proof.
  unfold common. rewrite Forall_forall. apply forall_proper. intros L.
  by rewrite list_fmap_id.
Qed.

Lemma selected_lists_Done `{Countable K} {V} (d : gmap K V) (ks : list K)
    (vs : list V) :
  Forall2 (λ k v, d !! k = Some v) ks vs →
  mapM (dict_getitem d) ks = Done vs.
Proof.
  intros Hsel. apply mapM_py_Done. eapply Forall2_impl; [exact Hsel|].
  intros k v. apply dict_getitem_Done.
Qed.

(** C1. On the posting lists selected by a non-empty encoded query, each
    strictly ascending (ascending and duplicate-free), [search_engine]
    returns the documents that occur in every list, in strictly ascending
    order. The result is empty when one of the lists is empty and it is the
    list itself when there is only one. *)
Theorem search_engine_intersection (encoded_query : list Z)
    (inverted_idx : gmap Z (list Z)) (Ls : list (list Z)) (fuel : nat) :
  encoded_query ≠ [] →
  Forall2 (λ token L, inverted_idx !! token = Some L) encoded_query Ls →
  Forall (StronglySorted Z.lt) Ls →
  sum_list (length <$> Ls) < fuel →
  ∃ result,
    search_engine fuel (EncList encoded_query) inverted_idx = Done result
    ∧ StronglySorted Z.lt result
    ∧ (∀ doc, doc ∈ result ↔ ∀ L, L ∈ Ls → doc ∈ L)
    ∧ ([] ∈ Ls → result = [])
    ∧ (∀ L, Ls = [L] → result = L).
Proof.
  intros Hq Hsel Hasc Hfuel.
  assert (Ls ≠ []) as Hne.
  { intros ->. apply Forall2_nil_inv_r in Hsel. done. }
  destruct (merge_intersects (λ doc, doc) append_doc (λ ks acc, acc = ks)
              Ls [] fuel Hne) as (ks & result & Hrun & -> & Hsorted & Hin);
    [done|done| |done|].
  { intros ks acc idx cur max_num -> _ _. by exists (ks ++ [max_num]). }
  exists ks. split_and!.
  - unfold search_engine. destruct encoded_query as [|token q]; [done|].
    cbn [py_not codes_of]. rewrite (selected_lists_Done _ _ _ Hsel). done.
  - done.
  - intros doc. rewrite Hin. apply common_id.
  - intros Hempty. destruct ks as [|doc ks]; [done|].
    assert (doc ∈ doc :: ks) as Hdoc by apply list_elem_of_here.
    apply Hin in Hdoc.
    pose proof (proj1 (common_id Ls doc) Hdoc [] Hempty) as Hnil.
    by apply elem_of_nil in Hnil.
  - intros L ->. apply ascending_ext; [done|by inversion Hasc|].
    intros x. rewrite Hin, common_id. split.
    + intros Hx. apply Hx, list_elem_of_here.
    + intros Hx L0 HL0%list_elem_of_singleton. by subst.
Qed.

Lemma search_engine_intersection_witness :
  ∃ result,
    search_engine 12 (EncList [1; 2; 3]%Z)
      (<[1%Z := [1; 3; 5; 7]%Z]> (<[2%Z := [3; 4; 7; 9]%Z]>
         (<[3%Z := [0; 3; 7]%Z]> ∅))) = Done result
    ∧ StronglySorted Z.lt result
    ∧ (∀ doc, doc ∈ result ↔
         ∀ L, L ∈ [[1; 3; 5; 7]; [3; 4; 7; 9]; [0; 3; 7]]%Z → doc ∈ L)
    ∧ ([] ∈ [[1; 3; 5; 7]; [3; 4; 7; 9]; [0; 3; 7]]%Z → result = [])
    ∧ (∀ L, [[1; 3; 5; 7]; [3; 4; 7; 9]; [0; 3; 7]]%Z = [L] → result = L).
Proof.
  apply (search_engine_intersection [1; 2; 3]%Z _
           [[1; 3; 5; 7]; [3; 4; 7; 9]; [0; 3; 7]]%Z 12).
  - discriminate.
  - repeat constructor.
  - repeat constructor; lia.
  - simpl. lia.
Defined.


(** C9. On the posting lists selected by a non-empty encoded query, sorted
    or not, the loop of [search_engine] ends: with fuel beyond the total
    length of the lists the call returns a result; while the loop condition
    holds, an iteration moves no cursor backward, none by more than one,
    none beyond the end of its list, and at least one forward (the sum of
    the cursors grows); and the loop is left as soon as a cursor has passed
    the end of its list. *)
Theorem search_engine_terminates (encoded_query : list Z)
    (inverted_idx : gmap Z (list Z)) (Ls : list (list Z)) :
  encoded_query ≠ [] →
  Forall2 (λ token L, inverted_idx !! token = Some L) encoded_query Ls →
  (∀ fuel, sum_list (length <$> Ls) < fuel →
     ∃ result,
       search_engine fuel (EncList encoded_query) inverted_idx = Done result)
  ∧ (∀ idx result,
       length idx = length Ls →
       loop_cond idx (length <$> Ls) = true →
       ∃ idx' result',
         loop_body (λ doc, doc) append_doc Ls (enumerate Ls) (idx, result)
         = Done (idx', result')
         ∧ sum_list idx < sum_list idx'
         ∧ Forall2 (λ i i', i ≤ i' ≤ S i) idx idx'
         ∧ Forall2 (λ i L, i ≤ length L) idx' Ls)
  ∧ (∀ fuel idx result,
       Exists (λ '(i, L), length L ≤ i) (zip idx Ls) →
       merge_loop (λ doc, doc) append_doc (S fuel) Ls (length <$> Ls)
         (enumerate Ls) (idx, result) = Done result).
Proof.
  intros Hq Hsel.
  assert (Ls ≠ []) as Hne.
  { intros ->. apply Forall2_nil_inv_r in Hsel. done. }
  assert (∀ (max_num : Z) (idx : list nat) (cur result : list Z),
            under idx Ls cur →
            ∃ result', append_doc max_num idx (enumerate Ls) result
                       = Done result') as Hok.
  { intros max_num idx cur result _. unfold append_doc. eauto. }
  split_and!.
  - intros fuel Hfuel.
    destruct (merge_terminates (λ doc, doc) append_doc Ls [] fuel Hne Hok
                Hfuel) as [result Hrun].
    exists result. unfold search_engine.
    destruct encoded_query as [|token q]; [done|].
    cbn [py_not codes_of]. rewrite (selected_lists_Done _ _ _ Hsel). done.
  - intros idx result. by apply loop_body_advances.
  - intros fuel idx result. apply merge_loop_exit.
Qed.

Lemma search_engine_terminates_witness :
  (∀ fuel, sum_list (length <$> [[5; 1; 5]; [2; 5]]%Z) < fuel →
     ∃ result,
       search_engine fuel (EncList [1; 2]%Z)
         (<[1%Z := [5; 1; 5]%Z]> (<[2%Z := [2; 5]%Z]> ∅)) = Done result)
  ∧ (∀ idx result,
       length idx = length [[5; 1; 5]; [2; 5]]%Z →
       loop_cond idx (length <$> [[5; 1; 5]; [2; 5]]%Z) = true →
       ∃ idx' result',
         loop_body (λ doc, doc) append_doc [[5; 1; 5]; [2; 5]]%Z
           (enumerate [[5; 1; 5]; [2; 5]]%Z) (idx, result)
         = Done (idx', result')
         ∧ sum_list idx < sum_list idx'
         ∧ Forall2 (λ i i', i ≤ i' ≤ S i) idx idx'
         ∧ Forall2 (λ i L, i ≤ length L) idx' [[5; 1; 5]; [2; 5]]%Z)
  ∧ (∀ fuel idx result,
       Exists (λ '(i, L), length L ≤ i) (zip idx [[5; 1; 5]; [2; 5]]%Z) →
       merge_loop (λ doc, doc) append_doc (S fuel) [[5; 1; 5]; [2; 5]]%Z
         (length <$> [[5; 1; 5]; [2; 5]]%Z)
         (enumerate [[5; 1; 5]; [2; 5]]%Z) (idx, result) = Done result).
Proof.
  apply (search_engine_terminates [1; 2]%Z
           (<[1%Z := [5; 1; 5]%Z]> (<[2%Z := [2; 5]%Z]> ∅))
           [[5; 1; 5]; [2; 5]]%Z).
  - discriminate.
  - repeat constructor.
Defined.

(** The same loop in [search_engine_2], where a match reads the weights
    under the cursors and stores their sum. *)
Lemma add_score_Done (max_num : Z) (idx : list nat)
    (Ls : list (list (Z * R))) (cur : list (Z * R)) (docs_scores : gmap Z R) :
  under idx Ls cur →
  add_score max_num idx (enumerate Ls) docs_scores
  = Done (<[max_num := py_sum (snd <$> cur)]> docs_scores).
Proof.
  intros Hu. unfold add_score.
  by rewrite (under_cursors_spec snd idx Ls cur Hu).
Qed.

Lemma weighted_merge_terminates (Ls : list (list (Z * R))) (fuel : nat) :
  Ls ≠ [] →
  sum_list (length <$> Ls) < fuel →
  ∃ docs_scores, merge fst add_score fuel Ls ∅ = Done docs_scores.
Proof.
  intros Hne Hfuel. apply merge_terminates; [done| |done].
  intros max_num idx cur acc Hu. rewrite (add_score_Done _ _ _ _ _ Hu). eauto.
Qed.

Lemma under_accumulated (idx : list nat) (Ls : list (list (Z * R)))
    (cur : list (Z * R)) (doc : Z) :
  under idx Ls cur →
  Forall (λ a, a.1 = doc) cur →
  accumulated Ls doc (py_sum (snd <$> cur)).
Proof.
  intros Hu Hall. exists cur. split; [|done].
  induction Hu as [|i L a idx Ls cur Ha _ IH]; [constructor|].
  inversion Hall as [|? ? Hdoc Hcur]; subst.
  constructor; [|by apply IH].
  split; [|done]. by eapply list_elem_of_lookup_2.
Qed.

(** On ascending weighted lists the loop of [search_engine_2] leaves in
    [docs_scores] the documents common to all lists, each with the sum of
    its weights. *)
Lemma weighted_merge_intersection (Ls : list (list (Z * R))) (fuel : nat) :
  Ls ≠ [] →
  Forall (ascending fst) Ls →
  sum_list (length <$> Ls) < fuel →
  ∃ docs_scores,
    merge fst add_score fuel Ls ∅ = Done docs_scores
    ∧ (∀ doc, doc ∈ dom docs_scores ↔ common fst Ls doc)
    ∧ (∀ doc score,
         docs_scores !! doc = Some score → accumulated Ls doc score).
Proof.
  intros Hne Hasc Hfuel.
  destruct (merge_intersects fst add_score (scores_of Ls) Ls ∅ fuel Hne Hasc)
    as (ks & docs_scores & Hrun & [Hdom Hscores] & _ & Hks); [| |done|].
  { split.
    - intros doc. rewrite lookup_empty. split; [by intros [? ?]|].
      by intros ?%elem_of_nil.
    - intros doc score. by rewrite lookup_empty. }
  { intros ks acc idx cur max_num [Hdom Hscores] Hu Hall.
    rewrite (add_score_Done _ _ _ _ _ Hu). eexists. split; [done|]. split.
    - intros doc. rewrite elem_of_app, list_elem_of_singleton, <- Hdom.
      destruct (decide (doc = max_num)) as [->|Hdoc].
      + rewrite lookup_insert_eq. split; [by right|by eauto].
      + rewrite lookup_insert_ne by done. split; [by left|].
        by intros [?|?].
    - intros doc score. destruct (decide (doc = max_num)) as [->|Hdoc].
      + rewrite lookup_insert_eq. intros [= <-].
        by apply (under_accumulated idx).
      + rewrite lookup_insert_ne by done. apply Hscores. }
  exists docs_scores. split; [done|]. split; [|done].
  intros doc. by rewrite elem_of_dom, Hdom, Hks.
Qed.

(** ** A small corpus

    Document 1 is "the cat sat", document 2 "the dog sat" and document 3
    "cat and dog", with the vocabulary the=0, cat=1, sat=2, dog=3, and=4;
    the files are listed out of order. *)

Lemma small_corpus_search :
  let vocabulary : gmap string Z :=
    <["the" := 0%Z]> (<["cat" := 1%Z]> (<["sat" := 2%Z]>
      (<["dog" := 3%Z]> {["and" := 4%Z]}))) in
  let files :=
    [EncodedFile 3 3 (<[1%Z := 1%R]> (<[4%Z := 1%R]> {[3%Z := 1%R]}));
     EncodedFile 1 1 (<[0%Z := 1%R]> (<[1%Z := 1%R]> {[2%Z := 1%R]}));
     EncodedFile 2 2 (<[0%Z := 1%R]> (<[3%Z := 1%R]> {[2%Z := 1%R]}))] in
  let inverted_idx := create_inverted_idx files in
  inverted_idx !! 0%Z = Some [1; 2]%Z
  ∧ inverted_idx !! 1%Z = Some [1; 3]%Z
  ∧ inverted_idx !! 3%Z = Some [2; 3]%Z
  ∧ search_engine 5 (encode_query ["cat"; "dog"] vocabulary) inverted_idx
    = Done [3%Z]
  ∧ search_engine 5 (encode_query ["the"; "sat"] vocabulary) inverted_idx
    = Done [1; 2]%Z
  ∧ search_engine 5 (encode_query ["cat"; "bird"] vocabulary) inverted_idx
    = Done []
  ∧ search_engine 2 (encode_query ["cat"; "dog"] vocabulary) inverted_idx
    = OutOfFuel.
Proof. vm_compute. repeat split. Qed.

(** ** [encode_query] *)

Lemma encode_loop_False (vocabulary : gmap string Z) (query : list string)
    (encoded_so_far : list Z) :
  (∃ token, token ∈ query ∧ vocabulary !! token = None) →
  encode_loop vocabulary query encoded_so_far = EncFalse.
Proof.
  intros (token & Hin & Hnone). revert encoded_so_far.
  induction query as [|t query IH]; intros encoded_so_far.
  - by apply elem_of_nil in Hin.
  - simpl. destruct (vocabulary !! t) as [code|] eqn:Ht; [|done].
    apply elem_of_cons in Hin as [->|Hin]; [congruence|]. by apply IH.
Qed.

Lemma encode_loop_List (vocabulary : gmap string Z) (query : list string)
    (encoded_so_far codes : list Z) :
  Forall2 (λ token code, vocabulary !! token = Some code) query codes →
  encode_loop vocabulary query encoded_so_far
  = EncList (encoded_so_far ++ codes).
Proof.
  intros Hcodes. revert encoded_so_far.
  induction Hcodes as [|token code query codes Hcode _ IH];
    intros encoded_so_far; simpl.
  - by rewrite app_nil_r.
  - rewrite Hcode, IH, <- app_assoc. done.
Qed.

(** C3. When the query is empty, or one of its tokens is not in the
    vocabulary, [encode_query] followed by [search_engine] or by
    [search_engine_2] returns the empty list: whatever the indexes hold
    (none of their entries is read, an empty index gives the same answer)
    and without a single iteration of the loop (no fuel is used). *)
Theorem search_unknown_or_empty_query (query : list string)
    (vocabulary : gmap string Z) :
  query = [] ∨ (∃ token, token ∈ query ∧ vocabulary !! token = None) →
  ∀ (fuel : nat) (inverted_idx : gmap Z (list Z))
    (inverted_idx2 : gmap Z (list (Z * R)))
    (squared_tfidf_per_document : gmap Z R) (k : Z),
    search_engine fuel (encode_query query vocabulary) inverted_idx = Done []
    ∧ search_engine_2 fuel (encode_query query vocabulary) inverted_idx2
        squared_tfidf_per_document k = Done [].
Proof.
  intros Hq fuel inverted_idx inverted_idx2 squared k.
  assert (py_not (encode_query query vocabulary) = true) as Hnot.
  { destruct Hq as [->|Habsent]; [done|].
    unfold encode_query. by rewrite encode_loop_False. }
  unfold search_engine, search_engine_2. by rewrite Hnot.
Qed.

Lemma search_unknown_or_empty_query_witness :
  search_engine 0 (encode_query ["cat"; "dog"] (<["cat" := 1%Z]> ∅)) ∅
  = Done []
  ∧ search_engine_2 0 (encode_query ["cat"; "dog"] (<["cat" := 1%Z]> ∅)) ∅ ∅ 5
    = Done [].
Proof.
  apply (search_unknown_or_empty_query ["cat"; "dog"] (<["cat" := 1%Z]> ∅)).
  right. exists "dog". split.
  - apply list_elem_of_In. simpl. right. left. reflexivity.
  - reflexivity.
Defined.

(** ** [sorted] sorts *)

Section sorting_facts.
Context {A : Type} (le : relation A) `{!RelDecision le}.

Lemma insert_sorted_Permutation (x : A) (l : list A) :
  insert_sorted le x l ≡ₚ x :: l.
Proof.
  induction l as [|y l IH]; simpl; [done|].
  case_decide; [done|]. rewrite IH. apply Permutation_swap.
Qed.

Lemma py_sorted_Permutation (l : list A) : py_sorted le l ≡ₚ l.
Proof.
  unfold py_sorted. induction l as [|x l IH]; simpl; [done|].
  by rewrite insert_sorted_Permutation, IH.
Qed.

Lemma py_sorted_length (l : list A) : length (py_sorted le l) = length l.
Proof. apply Permutation_length, py_sorted_Permutation. Qed.

Context `{!Total le, !Transitive le}.

Lemma insert_sorted_StronglySorted (x : A) (l : list A) :
  StronglySorted le l → StronglySorted le (insert_sorted le x l).
Proof.
  induction 1 as [|y l Hl IH Hy]; simpl.
  - repeat constructor.
  - case_decide as Hxy.
    + constructor; [by constructor|].
      constructor; [done|]. eapply Forall_impl; [exact Hy|].
      intros z Hz. by transitivity y.
    + constructor; [done|].
      rewrite insert_sorted_Permutation. constructor; [|done].
      by destruct (total le x y).
Qed.

Lemma py_sorted_StronglySorted (l : list A) :
  StronglySorted le (py_sorted le l).
Proof.
  unfold py_sorted. induction l as [|x l IH]; simpl; [constructor|].
  by apply insert_sorted_StronglySorted.
Qed.

(** With an antisymmetric order the result depends on the elements only,
    not on the order in which they come. *)
Lemma py_sorted_order_irrelevant `{!AntiSymm (=) le} (l1 l2 : list A) :
  l1 ≡ₚ l2 → py_sorted le l1 = py_sorted le l2.
Proof.
  intros Hperm. apply (StronglySorted_unique le).
  - apply py_sorted_StronglySorted.
  - apply py_sorted_StronglySorted.
  - by rewrite !py_sorted_Permutation.
Qed.
End sorting_facts.

Lemma StronglySorted_lookup {A} (R : relation A) (l : list A) (i j : nat)
    (a b : A) :
  StronglySorted R l → i < j → l !! i = Some a → l !! j = Some b → R a b.
Proof.
  intros Hl. revert i j. induction Hl as [|x l _ IH Hx]; intros i j Hij Ha Hb.
  - by rewrite lookup_nil in Ha.
  - destruct j as [|j]; [lia|]. simpl in Hb. destruct i as [|i].
    + simplify_eq/=. rewrite Forall_forall in Hx. apply Hx.
      by eapply list_elem_of_lookup_2.
    + simpl in Ha. apply (IH i j); [lia|done..].
Qed.

Lemma StronglySorted_take {A} (R : relation A) (n : nat) (l : list A) :
  StronglySorted R l → StronglySorted R (take n l).
Proof.
  intros Hl. rewrite <- (take_drop n l) in Hl.
  by apply StronglySorted_app_1_l in Hl.
Qed.

(** ** The order on the tuples [(-value, key)] *)

#[global] Instance tuple_le_total : Total tuple_le.
Proof.
  intros [v1 k1] [v2 k2]. unfold tuple_le. simpl.
  destruct (Rtotal_order v1 v2) as [?|[->|?]]; [by left; left| |by right; left].
  destruct (Z.le_ge_cases k1 k2); [left|right]; by right.
Qed.

#[global] Instance tuple_le_trans : Transitive tuple_le.
Proof.
  intros [v1 k1] [v2 k2] [v3 k3]. unfold tuple_le. simpl.
  intros [H1|[-> H1]] [H2|[-> H2]].
  - left. lra.
  - by left.
  - by left.
  - right. split; [done|lia].
Qed.

#[global] Instance tuple_le_antisymm : AntiSymm (=) tuple_le.
Proof.
  intros [v1 k1] [v2 k2]. unfold tuple_le. simpl.
  intros [H1|[-> H1]] [H2|[H2 H2']]; try lra.
  f_equal. lia.
Qed.

(** ** [get_top_k] *)

Lemma tuple_swap_back (items : list (Z * R)) :
  (λ '(value, key), (key, (- value)%R))
    <$> ((λ '(key, value), ((- value)%R, key)) <$> items) = items.
Proof.
  rewrite <- list_fmap_compose. rewrite <- (list_fmap_id items) at 2.
  apply list_fmap_ext. intros _ [key value] _. simpl. f_equal. lra.
Qed.

(** The items [dic.items()] yields, largest score first, ties by key. *)
Lemma top_k_of_items_split (items : list (Z * R)) (k : Z) :
  ∃ rest,
    items ≡ₚ top_k_of_items items k ++ rest
    ∧ length (top_k_of_items items k) = Z.to_nat k `min` length items
    ∧ (∀ a b, a ∈ top_k_of_items items k → b ∈ rest → (b.2 <= a.2)%R).
Proof.
  unfold top_k_of_items, nsmallest.
  set (heap := (λ '(key, value), ((- value)%R, key)) <$> items).
  set (back := λ '(value, key), (key, (- value)%R) : Z * R).
  exists (back <$> drop (Z.to_nat k) (py_sorted tuple_le heap)). split_and!.
  - rewrite <- fmap_app, take_drop, py_sorted_Permutation.
    unfold heap, back. by rewrite tuple_swap_back.
  - rewrite length_fmap, length_take, py_sorted_length. unfold heap.
    by rewrite length_fmap.
  - intros a b Ha Hb.
    apply list_elem_of_fmap in Ha as ([va ka] & -> & Ha).
    apply list_elem_of_fmap in Hb as ([vb kb] & -> & Hb).
    pose proof (py_sorted_StronglySorted tuple_le heap) as Hsorted.
    rewrite <- (take_drop (Z.to_nat k)) in Hsorted.
    pose proof (StronglySorted_app_1_elem_of _ _ _ _ _ Hsorted Ha Hb) as Hle.
    unfold tuple_le in Hle. simpl in *. lra.
Qed.

Lemma top_k_of_items_descending (items : list (Z * R)) (k : Z) :
  StronglySorted (λ a b, (b.2 <= a.2)%R) (top_k_of_items items k).
Proof.
  unfold top_k_of_items, nsmallest.
  apply (StronglySorted_fmap _ tuple_le).
  - intros [va ka] [vb kb]. unfold tuple_le. simpl. lra.
  - apply StronglySorted_take, py_sorted_StronglySorted; apply _.
Qed.

(** C5. [get_top_k dic k] has [min(k, len(dic))] entries, in descending
    order of score; they are entries of [dic], and no entry left out has a
    larger score than one returned. For [k = 0] the result is empty; for
    [k >= len(dic)] it holds every entry of [dic]. *)
Theorem get_top_k_largest (dic : gmap Z R) (k : Z) :
  (0 ≤ k)%Z →
  length (get_top_k dic k) = Z.to_nat k `min` size dic
  ∧ StronglySorted (λ a b, (b.2 <= a.2)%R) (get_top_k dic k)
  ∧ (∃ rest,
       map_to_list dic ≡ₚ get_top_k dic k ++ rest
       ∧ ∀ a b, a ∈ get_top_k dic k → b ∈ rest → (b.2 <= a.2)%R)
  ∧ (∀ key score, (key, score) ∈ get_top_k dic k → dic !! key = Some score)
  ∧ (k = 0%Z → get_top_k dic k = [])
  ∧ ((Z.of_nat (size dic) ≤ k)%Z → get_top_k dic k ≡ₚ map_to_list dic).
Proof.
  intros Hk. unfold get_top_k.
  destruct (top_k_of_items_split (map_to_list dic) k)
    as (rest & Hperm & Hlen & Hrest).
  rewrite length_map_to_list in Hlen. split_and!.
  - done.
  - apply top_k_of_items_descending.
  - by exists rest.
  - intros key score Hin. apply elem_of_map_to_list.
    rewrite Hperm. apply elem_of_app. by left.
  - intros ->. by apply nil_length_inv.
  - intros Hall.
    apply Permutation_length in Hperm as Hlens.
    rewrite length_map_to_list, length_app, Hlen in Hlens.
    assert (length rest = 0) as Hnil by lia.
    apply nil_length_inv in Hnil. subst rest.
    by rewrite app_nil_r in Hperm.
Qed.

Lemma get_top_k_largest_witness :
  length (get_top_k (<[1%Z := 2%R]> (<[2%Z := 3%R]> ∅)) 1)
  = Z.to_nat 1 `min` size (<[1%Z := 2%R]> (<[2%Z := 3%R]> ∅) : gmap Z R)
  ∧ StronglySorted (λ a b, (b.2 <= a.2)%R)
      (get_top_k (<[1%Z := 2%R]> (<[2%Z := 3%R]> ∅)) 1)
  ∧ (∃ rest,
       map_to_list (<[1%Z := 2%R]> (<[2%Z := 3%R]> ∅) : gmap Z R)
       ≡ₚ get_top_k (<[1%Z := 2%R]> (<[2%Z := 3%R]> ∅)) 1 ++ rest
       ∧ ∀ a b, a ∈ get_top_k (<[1%Z := 2%R]> (<[2%Z := 3%R]> ∅)) 1 →
                b ∈ rest → (b.2 <= a.2)%R)
  ∧ (∀ key score,
       (key, score) ∈ get_top_k (<[1%Z := 2%R]> (<[2%Z := 3%R]> ∅)) 1 →
       (<[1%Z := 2%R]> (<[2%Z := 3%R]> ∅) : gmap Z R) !! key = Some score)
  ∧ (1%Z = 0%Z → get_top_k (<[1%Z := 2%R]> (<[2%Z := 3%R]> ∅)) 1 = [])
  ∧ ((Z.of_nat (size (<[1%Z := 2%R]> (<[2%Z := 3%R]> ∅) : gmap Z R)) ≤ 1)%Z →
     get_top_k (<[1%Z := 2%R]> (<[2%Z := 3%R]> ∅)) 1
     ≡ₚ map_to_list (<[1%Z := 2%R]> (<[2%Z := 3%R]> ∅) : gmap Z R)).
Proof.
  apply (get_top_k_largest (<[1%Z := 2%R]> (<[2%Z := 3%R]> ∅)) 1). lia.
Defined.

(** Keys are unique in a dict, hence in the sorted heap. *)
Lemma heap_keys_NoDup (dic : gmap Z R) (items : list (Z * R)) :
  items ≡ₚ map_to_list dic →
  NoDup (snd <$> py_sorted tuple_le
                   ((λ '(key, value), ((- value)%R, key)) <$> items)).
Proof.
  intros Hperm. rewrite py_sorted_Permutation, <- list_fmap_compose.
  rewrite (list_fmap_ext _ fst items) by (by intros ? [??]).
  rewrite Hperm. apply NoDup_fst_map_to_list.
Qed.

(** C10. In the result of [get_top_k] two entries of equal score come in
    ascending order of key, and the result is the same whatever the order
    in which the dict yields its items. *)
Theorem get_top_k_ties (dic : gmap Z R) (k : Z) :
  (∀ i j a b,
     i < j → get_top_k dic k !! i = Some a → get_top_k dic k !! j = Some b →
     a.2 = b.2 → (a.1 < b.1)%Z)
  ∧ (∀ items, items ≡ₚ map_to_list dic →
       top_k_of_items items k = get_top_k dic k).
Proof.
  split.
  - unfold get_top_k, top_k_of_items, nsmallest. intros i j a b Hij Ha Hb Heq.
    set (heap := (λ '(key, value), ((- value)%R, key))
                   <$> map_to_list dic) in *.
    apply list_lookup_fmap_Some_1 in Ha as ([va ka] & -> & Ha).
    apply list_lookup_fmap_Some_1 in Hb as ([vb kb] & -> & Hb).
    apply lookup_take_Some in Ha as [Ha _].
    apply lookup_take_Some in Hb as [Hb _].
    pose proof (py_sorted_StronglySorted tuple_le heap) as Hsorted.
    pose proof (StronglySorted_lookup _ _ _ _ _ _ Hsorted Hij Ha Hb) as Hle.
    pose proof (heap_keys_NoDup dic (map_to_list dic) ltac:(done)) as Hnd.
    fold heap in Hnd.
    assert (ka ≠ kb) as Hne.
    { intros ->. assert (i = j); [|lia].
      eapply NoDup_lookup; [exact Hnd| |].
      - by rewrite list_lookup_fmap, Ha.
      - by rewrite list_lookup_fmap, Hb. }
    unfold tuple_le in Hle. simpl in *.
    destruct Hle as [Hlt|[_ Hle]]; [lra|lia].
  - intros items Hperm. unfold get_top_k, top_k_of_items, nsmallest.
    do 2 f_equal. apply py_sorted_order_irrelevant; try apply _.
    by rewrite Hperm.
Qed.

Lemma get_top_k_ties_witness :
  (∀ i j a b,
     i < j →
     get_top_k (<[1%Z := 2%R]> {[2%Z := 2%R]}) 2 !! i = Some a →
     get_top_k (<[1%Z := 2%R]> {[2%Z := 2%R]}) 2 !! j = Some b →
     a.2 = b.2 → (a.1 < b.1)%Z)
  ∧ (∀ items, items ≡ₚ map_to_list (<[1%Z := 2%R]> {[2%Z := 2%R]}) →
       top_k_of_items items 2
       = get_top_k (<[1%Z := 2%R]> {[2%Z := 2%R]}) 2).
Proof.
  apply (get_top_k_ties (<[1%Z := 2%R]> {[2%Z := 2%R]}) 2).
Defined.

(** ** [compute_cosine_similarity] *)

(** A loop that stores one computed value per item of a dict. *)
Lemma for_each_store {V W} (f : Z → V → py W) (items : list (Z * V))
    (acc : gmap Z W) :
  NoDup items.*1 →
  (∀ k v, (k, v) ∈ items → ∃ w, f k v = Done w) →
  ∃ m,
    for_each (λ '(k, v) m, w ← f k v; mret (<[k := w]> m)) items acc = Done m
    ∧ (∀ k v, (k, v) ∈ items → ∃ w, f k v = Done w ∧ m !! k = Some w)
    ∧ (∀ k, k ∉ items.*1 → m !! k = acc !! k).
Proof.
  revert acc. induction items as [|[k0 v0] items IH]; intros acc Hnd Hok.
  - exists acc. split_and!; [done| |done].
    intros k v Hin. by apply elem_of_nil in Hin.
  - apply NoDup_cons in Hnd as [Hk0 Hnd].
    destruct (Hok k0 v0) as [w0 Hw0]; [apply list_elem_of_here|].
    destruct (IH (<[k0 := w0]> acc) Hnd) as (m & Hrun & Hin & Hout).
    { intros k v Hkv. apply Hok. by apply list_elem_of_further. }
    exists m. split_and!.
    + simpl. rewrite Hw0. simpl. exact Hrun.
    + intros k v Hkv. apply elem_of_cons in Hkv as [[= -> ->]|Hkv].
      * exists w0. split; [done|]. rewrite (Hout k0 Hk0).
        apply lookup_insert_eq.
      * by apply Hin.
    + intros k Hk. apply not_elem_of_cons in Hk as [Hne Hk].
      rewrite (Hout k Hk). by apply lookup_insert_ne.
Qed.

(** The first item whose computation raises ends the loop. *)
Lemma for_each_store_Raise {V W} (f : Z → V → py W) (items : list (Z * V))
    (acc : gmap Z W) :
  (∀ k v, (k, v) ∈ items → f k v ≠ OutOfFuel) →
  (∃ k v e, (k, v) ∈ items ∧ f k v = Raise e) →
  ∃ e,
    for_each (λ '(k, v) m, w ← f k v; mret (<[k := w]> m)) items acc
    = Raise e.
Proof.
  revert acc. induction items as [|[k0 v0] items IH];
    intros acc Hfuel (k & v & e & Hin & He).
  - by apply elem_of_nil in Hin.
  - simpl. destruct (f k0 v0) as [w0|e0|] eqn:Hf0; simpl.
    + apply IH.
      * intros k' v' Hin'. apply Hfuel. by apply list_elem_of_further.
      * apply elem_of_cons in Hin as [[= -> ->]|Hin]; [congruence|].
        by exists k, v, e.
    + by exists e0.
    + destruct (Hfuel k0 v0); [apply list_elem_of_here|done].
Qed.

Lemma INR_length_pos {A} (l : list A) : l ≠ [] → (0 < INR (length l))%R.
Proof.
  intros Hl. destruct l as [|x l]; [done|].
  apply lt_0_INR. simpl. lia.
Qed.

Lemma cos_similarity_Done (encoded_query : list Z)
    (squared_tfidf_per_document : gmap Z R) (doc : Z) (score norm : R) :
  encoded_query ≠ [] →
  squared_tfidf_per_document !! doc = Some norm →
  (0 < norm)%R →
  (sqrt norm * sqrt (INR (length encoded_query)) ≠ 0)%R
  ∧ cos_similarity encoded_query squared_tfidf_per_document doc score
    = Done (score / (sqrt norm * sqrt (INR (length encoded_query))))%R.
Proof.
  intros Hq Hnorm Hpos. pose proof (INR_length_pos _ Hq) as Hlen.
  assert (sqrt norm * sqrt (INR (length encoded_query)) ≠ 0)%R as Hden.
  { pose proof (sqrt_lt_R0 _ Hpos). pose proof (sqrt_lt_R0 _ Hlen). nra. }
  split; [done|].
  unfold cos_similarity, dict_getitem, math_sqrt, py_truediv.
  rewrite Hnorm. simpl.
  destruct (decide (norm < 0)%R); [lra|]. simpl.
  destruct (decide (INR (length encoded_query) < 0)%R); [lra|]. simpl.
  destruct (decide _); done.
Qed.

(** A candidate without a norm, or with a zero norm, raises. *)
Lemma cos_similarity_degenerate (encoded_query : list Z)
    (squared_tfidf_per_document : gmap Z R) (doc : Z) (score : R) :
  squared_tfidf_per_document !! doc = None
  ∨ squared_tfidf_per_document !! doc = Some 0%R →
  ∃ e, cos_similarity encoded_query squared_tfidf_per_document doc score
       = Raise e.
Proof.
  unfold cos_similarity, dict_getitem, math_sqrt, py_truediv.
  intros [-> | ->]; simpl; [by eauto|].
  destruct (decide (0 < 0)%R); [lra|]. simpl.
  destruct (decide (INR (length encoded_query) < 0)%R); simpl; [by eauto|].
  rewrite sqrt_0, Rmult_0_l. destruct (decide _); [by eauto|done].
Qed.

Lemma cos_similarity_fuel (encoded_query : list Z)
    (squared_tfidf_per_document : gmap Z R) (doc : Z) (score : R) :
  cos_similarity encoded_query squared_tfidf_per_document doc score
  ≠ OutOfFuel.
Proof.
  unfold cos_similarity, dict_getitem, math_sqrt, py_truediv.
  destruct (squared_tfidf_per_document !! doc) as [norm|]; simpl; [|done].
  destruct (decide (norm < 0)%R); simpl; [done|].
  destruct (decide (INR (length encoded_query) < 0)%R); simpl; [done|].
  destruct (decide _); done.
Qed.

Lemma compute_cosine_similarity_Done (encoded_query : list Z)
    (docs_scores squared_tfidf_per_document : gmap Z R) :
  encoded_query ≠ [] →
  (∀ doc score, docs_scores !! doc = Some score →
     ∃ norm, squared_tfidf_per_document !! doc = Some norm ∧ (0 < norm)%R) →
  ∃ similarity_scores,
    compute_cosine_similarity encoded_query docs_scores
      squared_tfidf_per_document = Done similarity_scores
    ∧ dom similarity_scores = dom docs_scores
    ∧ ∀ doc score norm,
        docs_scores !! doc = Some score →
        squared_tfidf_per_document !! doc = Some norm →
        similarity_scores !! doc
        = Some (score / (sqrt norm * sqrt (INR (length encoded_query))))%R.
Proof.
  intros Hq Hnorms. unfold compute_cosine_similarity, cosine_loop.
  destruct (for_each_store
              (cos_similarity encoded_query squared_tfidf_per_document)
              (map_to_list docs_scores) ∅)
    as (sims & Hrun & Hin & Hout).
  { apply NoDup_fst_map_to_list. }
  { intros doc score Hdoc%elem_of_map_to_list.
    destruct (Hnorms doc score Hdoc) as (norm & Hnorm & Hpos).
    destruct (cos_similarity_Done encoded_query _ doc score norm Hq Hnorm Hpos)
      as [_ ->]. eauto. }
  exists sims. split; [done|]. split.
  - apply set_eq. intros doc. rewrite !elem_of_dom. split.
    + intros [c Hc]. destruct (docs_scores !! doc) as [score|] eqn:Hdoc;
        [by eauto|].
      rewrite Hout, lookup_empty in Hc; [done|].
      intros ([k v] & -> & Hkv%elem_of_map_to_list)%list_elem_of_fmap.
      simpl in Hdoc. congruence.
    + intros [score Hdoc]. apply elem_of_map_to_list in Hdoc.
      destruct (Hin doc score Hdoc) as (c & _ & Hc). eauto.
  - intros doc score norm Hdoc Hnorm.
    destruct (Hnorms doc score Hdoc) as (norm' & Hnorm' & Hpos).
    assert (norm' = norm) as -> by congruence.
    apply elem_of_map_to_list in Hdoc.
    destruct (Hin doc score Hdoc) as (c & Hc & ->).
    destruct (cos_similarity_Done encoded_query _ doc score norm Hq Hnorm Hpos)
      as [_ Heq]. congruence.
Qed.

Lemma compute_cosine_similarity_Raise (encoded_query : list Z)
    (docs_scores squared_tfidf_per_document : gmap Z R) :
  (∃ doc, doc ∈ dom docs_scores ∧
     (squared_tfidf_per_document !! doc = None
      ∨ squared_tfidf_per_document !! doc = Some 0%R)) →
  ∃ e, compute_cosine_similarity encoded_query docs_scores
         squared_tfidf_per_document = Raise e.
Proof.
  intros (doc & [score Hdoc]%elem_of_dom & Hdeg).
  unfold compute_cosine_similarity, cosine_loop. apply for_each_store_Raise.
  - intros k v _. apply cos_similarity_fuel.
  - destruct (cos_similarity_degenerate encoded_query _ doc score Hdeg)
      as [e He].
    exists doc, score, e. split; [|done]. by apply elem_of_map_to_list.
Qed.

Lemma remove_dups_NoDup (l : list Z) : NoDup l → remove_dups l = l.
Proof.
  induction 1 as [|x l Hx _ IH]; simpl; [done|].
  case_decide; [done|]. by rewrite IH.
Qed.

(** The kind of the exception: a missing norm stops the lookup, a zero
    norm the division. *)
Lemma cos_similarity_fault (encoded_query : list Z)
    (squared_tfidf_per_document : gmap Z R) (doc : Z) (score : R) :
  (squared_tfidf_per_document !! doc = None →
   cos_similarity encoded_query squared_tfidf_per_document doc score
   = Raise KeyError)
  ∧ (squared_tfidf_per_document !! doc = Some 0%R →
     cos_similarity encoded_query squared_tfidf_per_document doc score
     = Raise ZeroDivisionError).
Proof.
  unfold cos_similarity, dict_getitem, math_sqrt, py_truediv.
  split; intros ->; simpl; [done|].
  destruct (decide (0 < 0)%R); [lra|]. simpl.
  pose proof (pos_INR (length encoded_query)).
  destruct (decide (INR (length encoded_query) < 0)%R); [lra|]. simpl.
  rewrite sqrt_0, Rmult_0_l. by destruct (decide _).
Qed.

Lemma for_each_store_returns {V W} (f : Z → V → py W)
    (items : list (Z * V)) (acc : gmap Z W) :
  (∀ k v, (k, v) ∈ items → ∃ w, f k v = Done w) →
  ∃ m, for_each (λ '(k, v) m, w ← f k v; mret (<[k := w]> m)) items acc
       = Done m.
Proof.
  revert acc. induction items as [|[k0 v0] items IH]; intros acc Hok;
    [by exists acc|].
  destruct (Hok k0 v0) as [w0 Hw0]; [apply list_elem_of_here|].
  cbn [for_each]. rewrite Hw0. simpl. apply IH.
  intros k v Hin. apply Hok. by apply list_elem_of_further.
Qed.

(** The loop ends at the first candidate whose similarity raises, with
    the exception of that candidate. *)
Lemma cosine_loop_first_fault (encoded_query : list Z)
    (before after : list (Z * R)) (doc : Z) (score : R)
    (squared_tfidf_per_document : gmap Z R) (e : exception) :
  encoded_query ≠ [] →
  (∀ doc0 score0, (doc0, score0) ∈ before →
     ∃ norm, squared_tfidf_per_document !! doc0 = Some norm
             ∧ (0 < norm)%R) →
  cos_similarity encoded_query squared_tfidf_per_document doc score
  = Raise e →
  cosine_loop encoded_query (before ++ (doc, score) :: after)
    squared_tfidf_per_document
  = Raise e.
Proof.
  intros Hq Hbefore Hfault. unfold cosine_loop. rewrite for_each_app.
  destruct (for_each_store_returns
              (cos_similarity encoded_query squared_tfidf_per_document)
              before ∅) as [m ->].
  { intros doc0 score0 Hin.
    destruct (Hbefore doc0 score0 Hin) as (norm & Hnorm & Hpos).
    destruct (cos_similarity_Done encoded_query _ doc0 score0 norm
                Hq Hnorm Hpos) as [_ ->]. eauto. }
  cbn [mbind py_bind for_each]. by rewrite Hfault.
Qed.

Lemma cosine_loop_Done (encoded_query : list Z) (items : list (Z * R))
    (squared_tfidf_per_document : gmap Z R) :
  encoded_query ≠ [] →
  NoDup items.*1 →
  (∀ doc score, (doc, score) ∈ items →
     ∃ norm, squared_tfidf_per_document !! doc = Some norm ∧ (0 < norm)%R) →
  ∃ similarity_scores,
    cosine_loop encoded_query items squared_tfidf_per_document
    = Done similarity_scores
    ∧ ∀ doc, doc ∈ dom similarity_scores ↔ doc ∈ items.*1.
Proof.
  intros Hq Hnd Hnorms. unfold cosine_loop.
  destruct (for_each_store
              (cos_similarity encoded_query squared_tfidf_per_document)
              items ∅ Hnd)
    as (sims & Hrun & Hin & Hout).
  { intros doc score Hdoc.
    destruct (Hnorms doc score Hdoc) as (norm & Hnorm & Hpos).
    destruct (cos_similarity_Done encoded_query _ doc score norm Hq Hnorm Hpos)
      as [_ ->]. eauto. }
  exists sims. split; [done|]. intros doc. rewrite elem_of_dom. split.
  - intros [c Hc]. destruct (decide (doc ∈ items.*1)) as [|Hnot]; [done|].
    by rewrite (Hout doc Hnot), lookup_empty in Hc.
  - intros ([doc' score] & -> & Hitem)%list_elem_of_fmap.
    destruct (Hin doc' score Hitem) as (c & _ & Hc). eauto.
Qed.

Lemma cosine_loop_Raise (encoded_query : list Z) (items : list (Z * R))
    (squared_tfidf_per_document : gmap Z R) :
  (∃ doc score, (doc, score) ∈ items ∧
     (squared_tfidf_per_document !! doc = None
      ∨ squared_tfidf_per_document !! doc = Some 0%R)) →
  ∃ e, cosine_loop encoded_query items squared_tfidf_per_document = Raise e.
Proof.
  intros (doc & score & Hdoc & Hdeg).
  unfold cosine_loop. apply for_each_store_Raise.
  - intros k v _. apply cos_similarity_fuel.
  - destruct (cos_similarity_degenerate encoded_query _ doc score Hdeg)
      as [e He].
    by exists doc, score, e.
Qed.

(** C2, as the code has it. [compute_cosine_similarity] excludes no
    candidate and guards no division. Whatever the order [items] in which
    the dict [docs_scores] yields the candidates:
    - when the encoded query is not empty and every candidate has a stored
      norm that is strictly positive, no denominator is zero and every
      candidate gets a similarity;
    - a candidate whose stored norm is zero or absent is not skipped: the
      call raises, and the first such candidate, the ones before it having
      positive norms, ends the call with [ZeroDivisionError] when its norm
      is zero and with [KeyError] when it has none. *)
Theorem cosine_division_unguarded (encoded_query : list Z)
    (docs_scores squared_tfidf_per_document : gmap Z R)
    (items : list (Z * R)) :
  items ≡ₚ map_to_list docs_scores →
  (encoded_query ≠ [] →
   (∀ doc, doc ∈ dom docs_scores →
      ∃ norm, squared_tfidf_per_document !! doc = Some norm ∧ (0 < norm)%R) →
   (∀ doc norm,
      doc ∈ dom docs_scores → squared_tfidf_per_document !! doc = Some norm →
      (sqrt norm * sqrt (INR (length encoded_query)) ≠ 0)%R)
   ∧ ∃ similarity_scores,
       cosine_loop encoded_query items squared_tfidf_per_document
       = Done similarity_scores
       ∧ dom similarity_scores = dom docs_scores)
  ∧ ((∃ doc, doc ∈ dom docs_scores ∧
        (squared_tfidf_per_document !! doc = None
         ∨ squared_tfidf_per_document !! doc = Some 0%R)) →
     ∃ e, cosine_loop encoded_query items squared_tfidf_per_document
          = Raise e)
  ∧ (∀ before doc score after,
       items = before ++ (doc, score) :: after →
       encoded_query ≠ [] →
       (∀ doc0 score0, (doc0, score0) ∈ before →
          ∃ norm, squared_tfidf_per_document !! doc0 = Some norm
                  ∧ (0 < norm)%R) →
       (squared_tfidf_per_document !! doc = Some 0%R →
        cosine_loop encoded_query items squared_tfidf_per_document
        = Raise ZeroDivisionError)
       ∧ (squared_tfidf_per_document !! doc = None →
          cosine_loop encoded_query items squared_tfidf_per_document
          = Raise KeyError)).
Proof.
  intros Hitems.
  assert (∀ doc score, (doc, score) ∈ items ↔ docs_scores !! doc = Some score)
    as Hitem.
  { intros doc score. by rewrite Hitems, elem_of_map_to_list. }
  split_and!.
  - intros Hq Hnorms. split.
    + intros doc norm Hdoc Hnorm.
      destruct (Hnorms doc Hdoc) as (norm' & Hnorm' & Hpos).
      assert (norm' = norm) as -> by congruence.
      by apply (cos_similarity_Done encoded_query squared_tfidf_per_document
                  doc 0%R norm).
    + destruct (cosine_loop_Done encoded_query items
                  squared_tfidf_per_document Hq) as (sims & Hrun & Hdom).
      { rewrite Hitems. apply NoDup_fst_map_to_list. }
      { intros doc score Hdoc%Hitem. apply Hnorms, elem_of_dom. eauto. }
      exists sims. split; [done|]. apply set_eq. intros doc.
      rewrite Hdom, elem_of_dom, list_elem_of_fmap. split.
      * intros ([doc' score] & -> & Hin%Hitem). eauto.
      * intros [score Hdoc%Hitem]. by exists (doc, score).
  - intros (doc & [score Hdoc%Hitem]%elem_of_dom & Hdeg).
    apply cosine_loop_Raise. eauto.
  - intros before doc score after -> Hq Hbefore.
    destruct (cos_similarity_fault encoded_query squared_tfidf_per_document
                doc score) as [Hnone Hzero].
    split; intros Hnorm; apply cosine_loop_first_fault; auto.
Qed.

Lemma cosine_division_unguarded_witness :
  ((∀ doc norm,
      doc ∈ dom ({[1%Z := 3%R]} : gmap Z R) →
      ({[1%Z := 4%R]} : gmap Z R) !! doc = Some norm →
      (sqrt norm * sqrt (INR (length [7%Z])) ≠ 0)%R)
   ∧ ∃ similarity_scores,
       cosine_loop [7%Z] [(1%Z, 3%R)] {[1%Z := 4%R]} = Done similarity_scores
       ∧ dom similarity_scores = dom ({[1%Z := 3%R]} : gmap Z R))
  ∧ (∃ e, cosine_loop [7%Z] [(1%Z, 3%R)] {[1%Z := 0%R]} = Raise e)
  ∧ cosine_loop [7%Z] [(1%Z, 1%R); (2%Z, 1%R)] {[1%Z := 0%R]}
    = Raise ZeroDivisionError
  ∧ cosine_loop [7%Z] [(2%Z, 1%R); (1%Z, 1%R)] {[1%Z := 0%R]}
    = Raise KeyError.
Proof.
  assert ([(1%Z, 3%R)] ≡ₚ map_to_list ({[1%Z := 3%R]} : gmap Z R)) as Hone.
  { by rewrite map_to_list_singleton. }
  assert ([(1%Z, 1%R); (2%Z, 1%R)]
          ≡ₚ map_to_list (<[1%Z := 1%R]> {[2%Z := 1%R]} : gmap Z R)) as Htwo.
  { rewrite map_to_list_insert by done. by rewrite map_to_list_singleton. }
  assert ([(2%Z, 1%R); (1%Z, 1%R)]
          ≡ₚ map_to_list (<[1%Z := 1%R]> {[2%Z := 1%R]} : gmap Z R)) as Hrev.
  { rewrite <- Htwo. apply Permutation_swap. }
  split; [|split; [|split]].
  - apply (proj1 (cosine_division_unguarded [7%Z] {[1%Z := 3%R]}
                    {[1%Z := 4%R]} [(1%Z, 3%R)] Hone)).
    + discriminate.
    + intros doc Hdoc. exists 4%R.
      rewrite dom_singleton_L in Hdoc. apply elem_of_singleton in Hdoc.
      subst doc. split; [reflexivity|lra].
  - apply (proj1 (proj2 (cosine_division_unguarded [7%Z] {[1%Z := 3%R]}
                           {[1%Z := 0%R]} [(1%Z, 3%R)] Hone))).
    exists 1%Z. split.
    + rewrite dom_singleton_L. apply elem_of_singleton. reflexivity.
    + right. reflexivity.
  - apply (proj2 (proj2 (cosine_division_unguarded [7%Z]
                           (<[1%Z := 1%R]> {[2%Z := 1%R]}) {[1%Z := 0%R]}
                           [(1%Z, 1%R); (2%Z, 1%R)] Htwo))
             [] 1%Z 1%R [(2%Z, 1%R)]).
    + reflexivity.
    + discriminate.
    + intros doc0 score0 Hin. by apply elem_of_nil in Hin.
    + reflexivity.
  - apply (proj2 (proj2 (cosine_division_unguarded [7%Z]
                           (<[1%Z := 1%R]> {[2%Z := 1%R]}) {[1%Z := 0%R]}
                           [(2%Z, 1%R); (1%Z, 1%R)] Hrev))
             [] 2%Z 1%R [(1%Z, 1%R)]).
    + reflexivity.
    + discriminate.
    + intros doc0 score0 Hin. by apply elem_of_nil in Hin.
    + reflexivity.
Defined.

(** Without a guard, a zero norm is divided by and a missing norm stops
    the call at the lookup. *)
Lemma zero_norm_division :
  compute_cosine_similarity [10%Z] {[1%Z := 0%R]} {[1%Z := 0%R]}
  = Raise ZeroDivisionError
  ∧ compute_cosine_similarity [10%Z] {[1%Z := 0%R]} ∅ = Raise KeyError.
Proof.
  unfold compute_cosine_similarity, cosine_loop. rewrite map_to_list_singleton.
  cbn [for_each]. unfold cos_similarity, dict_getitem. split.
  - rewrite lookup_singleton_eq. simpl. unfold math_sqrt, py_truediv.
    destruct (decide (0 < 0)%R); [lra|]. simpl.
    destruct (decide (1 < 0)%R); [lra|]. simpl.
    destruct (decide (sqrt 0 * sqrt 1 = 0)%R) as [_|Hne]; [done|].
    destruct Hne. rewrite sqrt_0. lra.
  - rewrite lookup_empty. done.
Qed.

(** C4, as the code has it. With a non-empty encoded query and positive
    stored norms, the similarity of a candidate with accumulated score [s]
    and stored norm [n] is [s / (sqrt n * sqrt q)] where [q] is
    [len(encoded_query)], the number of encoded query terms counted with
    their repetitions; it is the number of distinct terms when no term is
    repeated. *)
Theorem cosine_formula (encoded_query : list Z)
    (docs_scores squared_tfidf_per_document : gmap Z R) :
  encoded_query ≠ [] →
  (∀ doc, doc ∈ dom docs_scores →
     ∃ norm, squared_tfidf_per_document !! doc = Some norm ∧ (0 < norm)%R) →
  ∃ similarity_scores,
    compute_cosine_similarity encoded_query docs_scores
      squared_tfidf_per_document = Done similarity_scores
    ∧ ∀ doc s n,
        docs_scores !! doc = Some s →
        squared_tfidf_per_document !! doc = Some n →
        similarity_scores !! doc
        = Some (s / (sqrt n * sqrt (INR (length encoded_query))))%R
        ∧ (NoDup encoded_query →
           similarity_scores !! doc
           = Some (s / (sqrt n * sqrt (INR (distinct_terms encoded_query))))%R).
Proof.
  intros Hq Hnorms.
  destruct (compute_cosine_similarity_Done encoded_query docs_scores
              squared_tfidf_per_document Hq) as (sims & Hrun & _ & Hsims).
  { intros doc score Hdoc. apply Hnorms, elem_of_dom. eauto. }
  exists sims. split; [done|]. intros doc s n Hs Hn.
  split; [by apply Hsims|].
  intros Hnd. unfold distinct_terms. rewrite remove_dups_NoDup by done.
  by apply Hsims.
Qed.

Lemma cosine_formula_witness :
  ∃ similarity_scores,
    compute_cosine_similarity [7; 8]%Z {[1%Z := 3%R]} {[1%Z := 4%R]}
    = Done similarity_scores
    ∧ ∀ doc s n,
        ({[1%Z := 3%R]} : gmap Z R) !! doc = Some s →
        ({[1%Z := 4%R]} : gmap Z R) !! doc = Some n →
        similarity_scores !! doc
        = Some (s / (sqrt n * sqrt (INR (length [7; 8]%Z))))%R
        ∧ (NoDup [7; 8]%Z →
           similarity_scores !! doc
           = Some (s / (sqrt n * sqrt (INR (distinct_terms [7; 8]%Z))))%R).
Proof.
  apply (cosine_formula [7; 8]%Z {[1%Z := 3%R]} {[1%Z := 4%R]}).
  - discriminate.
  - intros doc Hdoc. exists 4%R.
    rewrite dom_singleton_L in Hdoc. apply elem_of_singleton in Hdoc.
    subst doc. split; [reflexivity|lra].
Defined.

Lemma sqrt_2_neq_1 : sqrt 2 ≠ 1%R.
Proof.
  intros Heq. assert (sqrt 2 * sqrt 2 = 2)%R as Hsq by (apply sqrt_sqrt; lra).
  rewrite Heq in Hsq. lra.
Qed.

(** C4 fails as stated: a query that repeats a word is encoded with the
    repetition, [[7, 7]] has one distinct term, and the similarity is
    computed with [sqrt 2]. *)
Lemma cosine_counts_repeated_terms :
  encode_query ["cat"; "cat"] {["cat" := 7%Z]} = EncList [7; 7]%Z
  ∧ distinct_terms [7; 7]%Z = 1
  ∧ ∃ similarity_scores,
      compute_cosine_similarity [7; 7]%Z {[1%Z := 1%R]} {[1%Z := 1%R]}
      = Done similarity_scores
      ∧ similarity_scores !! 1%Z = Some (1 / (sqrt 1 * sqrt 2))%R
      ∧ similarity_scores !! 1%Z
        ≠ Some (1 / (sqrt 1 * sqrt (INR (distinct_terms [7; 7]%Z))))%R.
Proof.
  split; [reflexivity|]. split; [reflexivity|].
  destruct (compute_cosine_similarity_Done [7; 7]%Z {[1%Z := 1%R]}
              {[1%Z := 1%R]}) as (sims & Hrun & _ & Hsims); [done| |].
  { intros doc score [<- <-]%lookup_singleton_Some. exists 1%R.
    rewrite lookup_singleton_eq. split; [done|lra]. }
  exists sims. split; [done|].
  specialize (Hsims 1%Z 1%R 1%R (lookup_singleton_eq _ _)
                (lookup_singleton_eq _ _)).
  replace (INR (length [7; 7]%Z)) with 2%R in Hsims by (simpl; lra).
  split; [done|].
  rewrite Hsims. replace (distinct_terms [7; 7]%Z) with 1 by reflexivity.
  intros [= Heq]. apply sqrt_2_neq_1.
  simpl in Heq. rewrite sqrt_1 in Heq. unfold Rdiv in Heq.
  rewrite !Rmult_1_l in Heq. apply (f_equal Rinv) in Heq.
  by rewrite !Rinv_inv in Heq.
Qed.

(** ** Index construction: the scan of the files *)

Section scan.
Context {V : Type} (entry : encoded_file → R → V).

Lemma scan_items_lookup (file : encoded_file) (items : list (Z * R))
    (inverted_idx : gmap Z (list V)) (key : Z) :
  NoDup items.*1 →
  let scanned :=
    foldl (λ inverted_idx '(key, tf),
             setdefault_append key (entry file tf) inverted_idx)
          inverted_idx items in
  (∀ tf, (key, tf) ∈ items →
     scanned !! key
     = Some (default [] (inverted_idx !! key) ++ [entry file tf]))
  ∧ (key ∉ items.*1 → scanned !! key = inverted_idx !! key).
Proof.
  revert inverted_idx. induction items as [|[k0 tf0] items IH];
    intros inverted_idx Hnd; simpl.
  { split; [|done]. intros tf Hin. by apply elem_of_nil in Hin. }
  apply NoDup_cons in Hnd as [Hk0 Hnd].
  destruct (IH (setdefault_append k0 (entry file tf0) inverted_idx) Hnd)
    as [Hin Hout].
  split.
  - intros tf Htf. apply elem_of_cons in Htf as [[= -> ->]|Htf].
    + rewrite (Hout Hk0). unfold setdefault_append.
      apply lookup_insert_eq.
    + rewrite (Hin tf Htf). unfold setdefault_append.
      rewrite lookup_insert_ne; [done|].
      intros ->. apply Hk0. apply list_elem_of_fmap. by exists (key, tf).
  - intros Hkey. apply not_elem_of_cons in Hkey as [Hne Hkey].
    rewrite (Hout Hkey). unfold setdefault_append.
    by rewrite lookup_insert_ne.
Qed.

Lemma scan_file_lookup (file : encoded_file)
    (inverted_idx : gmap Z (list V)) (key : Z) :
  foldl (λ inverted_idx '(key, tf),
           setdefault_append key (entry file tf) inverted_idx)
        inverted_idx (map_to_list (dict_repr file)) !! key
  = match dict_repr file !! key with
    | Some tf => Some (default [] (inverted_idx !! key) ++ [entry file tf])
    | None => inverted_idx !! key
    end.
Proof.
  destruct (scan_items_lookup file (map_to_list (dict_repr file))
              inverted_idx key (NoDup_fst_map_to_list _)) as [Hin Hout].
  destruct (dict_repr file !! key) as [tf|] eqn:Hkey.
  - apply Hin. by apply elem_of_map_to_list.
  - apply Hout.
    intros ([k tf] & -> & Hk%elem_of_map_to_list)%list_elem_of_fmap.
    simpl in Hkey. congruence.
Qed.

Lemma default_entry_of (postings : list V) :
  default [] (entry_of postings) = postings.
Proof. by destruct postings. Qed.

Lemma entry_of_snoc (postings : list V) (x : V) :
  entry_of (postings ++ [x]) = Some (postings ++ [x]).
Proof. by destruct postings. Qed.

(** The list of a word holds one entry per file that contains the word, in
    the order of the files. *)
Lemma scan_files_lookup (file_list : list encoded_file) (key : Z) :
  scan_files entry file_list !! key
  = entry_of ((λ file, entry file (frequency key file))
                <$> files_with key file_list).
Proof.
  unfold scan_files, files_with.
  induction file_list as [|file file_list IH] using rev_ind; [done|].
  rewrite foldl_app. cbn [foldl]. rewrite scan_file_lookup, IH.
  rewrite filter_app, fmap_app, filter_cons, filter_nil.
  unfold frequency. destruct (dict_repr file !! key) as [tf|] eqn:Hkey.
  - rewrite decide_True by eauto. simpl.
    by rewrite default_entry_of, entry_of_snoc, Hkey.
  - rewrite decide_False by (by intros [? ?]). simpl.
    by rewrite app_nil_r.
Qed.
End scan.

Lemma create_inverted_idx_scan (files : list encoded_file) :
  create_inverted_idx files
  = scan_files (λ file _, doc_number file) (py_sorted file_le files).
Proof.
  unfold create_inverted_idx, scan_files. f_equal.
Qed.

Lemma scan_files_2_scan (file_list : list encoded_file) :
  scan_files_2 file_list
  = (Z.of_nat (length file_list),
     scan_files (λ file tf, (doc_number file, tf)) file_list).
Proof.
  unfold scan_files_2, scan_files.
  induction file_list as [|file file_list IH] using rev_ind; [done|].
  rewrite !foldl_app. cbn [foldl]. rewrite IH.
  rewrite length_app. simpl. f_equal. lia.
Qed.

(** ** Index construction: the weights *)

Lemma tfidf_postings_length (docs_count : Z) (postings : list (Z * R)) :
  length (tfidf_postings docs_count postings) = length postings.
Proof. unfold tfidf_postings. by rewrite length_fmap. Qed.

Lemma tfidf_postings_docs (docs_count : Z) (postings : list (Z * R)) :
  (tfidf_postings docs_count postings).*1 = postings.*1.
Proof.
  unfold tfidf_postings. rewrite <- list_fmap_compose.
  by apply list_fmap_ext.
Qed.

(** Neither the division nor the logarithm faults on a list that is not
    empty, in a corpus that is not empty. *)
Lemma idf_Done (docs_count : Z) (n : nat) :
  (0 < docs_count)%Z → 0 < n →
  py_truediv (IZR docs_count) (INR n) ≫= math_log
  = Done (ln (IZR docs_count / INR n)).
Proof.
  intros Hdocs Hn. unfold py_truediv, math_log.
  assert (0 < INR n)%R as Hn' by (by apply lt_0_INR).
  assert (0 < IZR docs_count)%R as Hdocs' by (by apply IZR_lt).
  destruct (decide (INR n = 0)%R); [lra|]. simpl.
  destruct (decide _) as [Hle|]; [|done].
  pose proof (Rdiv_lt_0_compat _ _ Hdocs' Hn'). lra.
Qed.

(** The in-place loop leaves the positions before [idx] as they are and
    weighs the others, all with the same length. *)
Lemma weigh_from_spec (docs_count : Z) (steps idx : nat)
    (postings : list (Z * R)) :
  (0 < docs_count)%Z →
  idx + steps = length postings →
  weigh_from docs_count steps idx postings
  = Done (take idx postings
          ++ drop idx (tfidf_postings docs_count postings)).
Proof.
  intros Hdocs. revert idx postings.
  induction steps as [|steps IH]; intros idx postings Hlen; simpl.
  - rewrite Nat.add_0_r in Hlen. subst idx.
    rewrite take_ge, drop_ge, app_nil_r; [done| |done].
    by rewrite tfidf_postings_length.
  - destruct (postings !! idx) as [value|] eqn:Hvalue.
    2:{ apply lookup_ge_None in Hvalue. lia. }
    pose proof (idf_Done docs_count (length postings) Hdocs ltac:(lia))
      as Hidf.
    destruct (py_truediv _ _) as [ratio| |]; [|done..].
    simpl in Hidf |- *. rewrite Hidf. simpl.
    rewrite IH by (rewrite length_insert; lia).
    f_equal. unfold tfidf_postings. rewrite length_insert.
    set (w := λ value : Z * R, _).
    rewrite list_fmap_insert.
    rewrite take_insert_lt by lia.
    rewrite drop_insert_lt by lia.
    rewrite (take_S_r _ _ _ Hvalue), insert_app_r_alt;
      rewrite ?length_take; [|lia].
    replace (idx - idx `min` length postings) with 0 by lia.
    simpl. rewrite <- app_assoc. f_equal. simpl.
    rewrite <- !fmap_drop, (drop_S _ _ _ Hvalue). done.
Qed.

Lemma weigh_from_all (docs_count : Z) (postings : list (Z * R)) :
  (0 < docs_count)%Z →
  weigh_from docs_count (length postings) 0 postings
  = Done (tfidf_postings docs_count postings).
Proof.
  intros Hdocs. by rewrite weigh_from_spec.
Qed.

(** The loop over the words weighs the list of each of them. *)
Lemma weigh_keys_spec (docs_count : Z) (keys : list Z)
    (inverted_idx2 : gmap Z (list (Z * R))) :
  (0 < docs_count)%Z →
  NoDup keys →
  (∀ key, key ∈ keys → is_Some (inverted_idx2 !! key)) →
  ∃ weighted,
    for_each
      (λ key inverted_idx2,
         postings ← dict_getitem inverted_idx2 key;
         postings' ← weigh_from docs_count (length postings) 0 postings;
         mret (<[key := postings']> inverted_idx2))
      keys inverted_idx2 = Done weighted
    ∧ ∀ key,
        weighted !! key
        = if decide (key ∈ keys)
          then tfidf_postings docs_count <$> inverted_idx2 !! key
          else inverted_idx2 !! key.
Proof.
  intros Hdocs. revert inverted_idx2.
  induction keys as [|k0 keys IH]; intros inverted_idx2 Hnd Hsome.
  { exists inverted_idx2. split; [done|]. intros key.
    rewrite decide_False; [done|]. apply not_elem_of_nil. }
  apply NoDup_cons in Hnd as [Hk0 Hnd].
  destruct (Hsome k0) as [postings Hpostings]; [apply list_elem_of_here|].
  destruct (IH (<[k0 := tfidf_postings docs_count postings]> inverted_idx2)
              Hnd) as (weighted & Hrun & Hweighted).
  { intros key Hkey. rewrite lookup_insert_ne by (by intros ->).
    apply Hsome. by apply list_elem_of_further. }
  exists weighted. split.
  - apply dict_getitem_Done in Hpostings. simpl. rewrite Hpostings. simpl.
    rewrite (weigh_from_all _ _ Hdocs). simpl. exact Hrun.
  - intros key. rewrite Hweighted.
    destruct (decide (key = k0)) as [->|Hne].
    + rewrite decide_False by done.
      rewrite (decide_True (P := k0 ∈ k0 :: keys))
        by apply list_elem_of_here.
      by rewrite lookup_insert_eq, Hpostings.
    + rewrite lookup_insert_ne by done.
      destruct (decide (key ∈ keys)) as [Hin|Hout].
      * by rewrite decide_True by (by apply list_elem_of_further).
      * rewrite decide_False; [done|].
        by intros [?|?]%elem_of_cons.
Qed.

Lemma weigh_index_spec (docs_count : Z)
    (inverted_idx2 : gmap Z (list (Z * R))) :
  (0 < docs_count)%Z →
  weigh_index docs_count inverted_idx2
  = Done (tfidf_postings docs_count <$> inverted_idx2).
Proof.
  intros Hdocs. unfold weigh_index.
  destruct (weigh_keys_spec docs_count (map_to_list inverted_idx2).*1
              inverted_idx2 Hdocs) as (weighted & -> & Hweighted).
  { apply NoDup_fst_map_to_list. }
  { intros key ([k postings] & -> & Hk%elem_of_map_to_list)%list_elem_of_fmap.
    eauto. }
  f_equal. apply map_eq. intros key. rewrite Hweighted, lookup_fmap.
  case_decide as Hkey; [done|].
  destruct (inverted_idx2 !! key) as [postings|] eqn:Hpostings; [|done].
  destruct Hkey. apply list_elem_of_fmap. exists (key, postings).
  split; [done|]. by apply elem_of_map_to_list.
Qed.

(** An empty folder gives an empty index, and the second loop has nothing
    to do. *)
Lemma weigh_index_empty (docs_count : Z) :
  weigh_index docs_count ∅ = Done ∅.
Proof. unfold weigh_index. by rewrite map_to_list_empty. Qed.

Lemma create_inverted_idx_2_Done (files : list encoded_file) :
  create_inverted_idx_2 files
  = Done (tfidf_postings (Z.of_nat (length files))
            <$> scan_files (λ file tf, (doc_number file, tf))
                  (py_sorted file_le files)).
Proof.
  unfold create_inverted_idx_2. rewrite scan_files_2_scan.
  rewrite py_sorted_length.
  destruct files as [|file files].
  - cbn [py_sorted foldr scan_files foldl]. rewrite weigh_index_empty.
    by rewrite fmap_empty.
  - apply weigh_index_spec. simpl. lia.
Qed.

(** ** Index construction: the posting lists *)

#[global] Instance file_le_total : Total file_le.
Proof. intros f g. unfold file_le. lia. Qed.

#[global] Instance file_le_trans : Transitive file_le.
Proof. intros f g h. unfold file_le. lia. Qed.

Lemma files_with_sorted_length (key : Z) (files : list encoded_file) :
  length (files_with key (py_sorted file_le files)) = df key files.
Proof.
  unfold df, files_with. apply Permutation_length.
  by rewrite py_sorted_Permutation.
Qed.

Lemma StronglySorted_filter {A} (R : relation A) (P : A → Prop)
    `{!∀ x, Decision (P x)} (l : list A) :
  StronglySorted R l → StronglySorted R (filter P l).
Proof.
  induction 1 as [|x l _ IH Hx]; [constructor|].
  rewrite filter_cons. case_decide; [|done].
  constructor; [done|]. rewrite Forall_forall in Hx |- *.
  intros y [_ Hy]%list_elem_of_filter. by apply Hx.
Qed.

Lemma StronglySorted_le_NoDup (l : list Z) :
  StronglySorted Z.le l → NoDup l → StronglySorted Z.lt l.
Proof.
  induction 1 as [|x l _ IH Hx]; intros Hnd; [constructor|].
  apply NoDup_cons in Hnd as [Hnotin Hnd].
  constructor; [by apply IH|].
  rewrite Forall_forall in Hx |- *. intros y Hy.
  specialize (Hx y Hy). assert (x ≠ y) by (by intros ->). lia.
Qed.

Lemma StronglySorted_sublist {A} (R : relation A) (l k : list A) :
  l `sublist_of` k → StronglySorted R k → StronglySorted R l.
Proof.
  induction 1 as [|x l k Hsub IH|x l k Hsub IH]; intros Hk; [done|..].
  - apply StronglySorted_inv in Hk as [Hk Hx].
    constructor; [by apply IH|]. rewrite Forall_forall in Hx |- *.
    intros y Hy. by eapply Hx, elem_of_sublist.
  - apply StronglySorted_inv in Hk as [Hk _]. by apply IH.
Qed.

(** Files named [<n>.pickle] are read in ascending order of document
    number, strictly so when no number occurs twice. *)
Lemma conforming_sorted_le (files : list encoded_file) :
  Forall conforming files →
  StronglySorted Z.le (doc_number <$> py_sorted file_le files).
Proof.
  intros Hnames.
  assert (Forall conforming (py_sorted file_le files)) as Hsorted.
  { by rewrite py_sorted_Permutation. }
  pose proof (py_sorted_StronglySorted file_le files) as Hle.
  induction Hle as [|file l _ IH Hfile]; [constructor|].
  apply Forall_cons in Hsorted as [Hname Hsorted].
  rewrite fmap_cons. constructor; [by apply IH|].
  apply Forall_fmap, Forall_forall. intros file' Hin.
  rewrite Forall_forall in Hfile, Hsorted.
  specialize (Hfile file' Hin). specialize (Hsorted file' Hin).
  unfold file_le, conforming in *. simpl. lia.
Qed.

Lemma conforming_read_ascending (files : list encoded_file) :
  Forall conforming files →
  NoDup (doc_number <$> files) →
  read_ascending files.
Proof.
  intros Hnames Hnd. unfold read_ascending. apply StronglySorted_le_NoDup.
  - by apply conforming_sorted_le.
  - by rewrite py_sorted_Permutation.
Qed.

Lemma read_ascending_NoDup (files : list encoded_file) :
  read_ascending files → NoDup (doc_number <$> files).
Proof.
  unfold read_ascending. intros Hasc.
  rewrite <- (py_sorted_Permutation file_le files).
  generalize dependent (doc_number <$> py_sorted file_le files).
  intros l. induction 1 as [|x l _ IH Hx]; [constructor|].
  apply NoDup_cons. split; [|done].
  intros Hin. rewrite Forall_forall in Hx. specialize (Hx x Hin). lia.
Qed.

(** The documents of a word come in the order in which the files are
    read: they ascend strictly when the files are read so. *)
Lemma docs_with_ascending (key : Z) (files : list encoded_file) :
  read_ascending files →
  StronglySorted Z.lt
    (doc_number <$> files_with key (py_sorted file_le files)).
Proof.
  apply StronglySorted_sublist, fmap_sublist, sublist_filter.
Qed.

Lemma entry_of_Some {V} (l postings : list V) :
  entry_of l = Some postings → l = postings.
Proof. destruct l; [done|]. by intros [= <-]. Qed.

(** C8. When the files of the folder are read in strictly ascending order
    of document number -- the order of the sort keys is that of the
    recorded numbers, as it is for files named [<n>.pickle] with distinct
    numbers -- every list of [create_inverted_idx], and every list of
    [create_inverted_idx_2] once the weights are dropped, is strictly
    ascending: ascending, and without a repeated document. *)
Theorem posting_lists_ascending (files : list encoded_file) :
  read_ascending files →
  (∀ key postings,
     create_inverted_idx files !! key = Some postings →
     StronglySorted Z.lt postings)
  ∧ ∃ inverted_idx2,
      create_inverted_idx_2 files = Done inverted_idx2
      ∧ ∀ key postings,
          inverted_idx2 !! key = Some postings →
          StronglySorted Z.lt postings.*1.
Proof.
  intros Hread. split.
  - intros key postings. rewrite create_inverted_idx_scan, scan_files_lookup.
    intros <-%entry_of_Some. by apply docs_with_ascending.
  - eexists. split; [apply create_inverted_idx_2_Done|].
    intros key postings. rewrite lookup_fmap, scan_files_lookup.
    intros (raw & <-%entry_of_Some & ->)%fmap_Some.
    rewrite tfidf_postings_docs, <- list_fmap_compose.
    by apply docs_with_ascending.
Qed.

Lemma posting_lists_ascending_witness :
  (∀ key postings,
     create_inverted_idx
       [EncodedFile 12 12 {[10%Z := 1%R]};
        EncodedFile 5 5 (<[10%Z := 2%R]> {[11%Z := 1%R]});
        EncodedFile 7 7 {[11%Z := 4%R]}] !! key
     = Some postings →
     StronglySorted Z.lt postings)
  ∧ ∃ inverted_idx2,
      create_inverted_idx_2
        [EncodedFile 12 12 {[10%Z := 1%R]};
         EncodedFile 5 5 (<[10%Z := 2%R]> {[11%Z := 1%R]});
         EncodedFile 7 7 {[11%Z := 4%R]}]
      = Done inverted_idx2
      ∧ ∀ key postings,
          inverted_idx2 !! key = Some postings →
          StronglySorted Z.lt postings.*1.
Proof.
  apply (posting_lists_ascending
           [EncodedFile 12 12 {[10%Z := 1%R]};
            EncodedFile 5 5 (<[10%Z := 2%R]> {[11%Z := 1%R]});
            EncodedFile 7 7 {[11%Z := 4%R]}]).
  unfold read_ascending. simpl. repeat constructor; lia.
Defined.

(** C6. [create_inverted_idx_2] returns an index in which the list of a
    word has one pair per file that contains the word, in the order of the
    sorted files: the number of the file and the frequency of the word in
    it times [ln (N / df)], where [N] is the number of files and [df] is
    the number of files that contain the word, which is the length of the
    finished list. *)
Theorem inverted_idx2_weights (files : list encoded_file) :
  ∃ inverted_idx2,
    create_inverted_idx_2 files = Done inverted_idx2
    ∧ (∀ key postings,
         inverted_idx2 !! key = Some postings →
         length postings = df key files
         ∧ postings
           = (λ file,
                (doc_number file,
                 (frequency key file
                  * ln (INR (length files) / INR (length postings)))%R))
               <$> files_with key (py_sorted file_le files))
    ∧ (∀ key file tf,
         file ∈ files → dict_repr file !! key = Some tf →
         ∃ postings,
           inverted_idx2 !! key = Some postings
           ∧ (doc_number file,
              (tf * ln (INR (length files) / INR (df key files)))%R)
             ∈ postings).
Proof.
  eexists. split; [apply create_inverted_idx_2_Done|].
  assert (∀ key postings,
            (tfidf_postings (Z.of_nat (length files))
               <$> scan_files (λ file tf, (doc_number file, tf))
                     (py_sorted file_le files)) !! key = Some postings →
            length postings = df key files
            ∧ postings
              = (λ file,
                   (doc_number file,
                    (frequency key file
                     * ln (INR (length files) / INR (length postings)))%R))
                  <$> files_with key (py_sorted file_le files)) as Hlists.
  { intros key postings. rewrite lookup_fmap, scan_files_lookup.
    intros (raw & <-%entry_of_Some & ->)%fmap_Some.
    rewrite tfidf_postings_length, length_fmap.
    split; [apply files_with_sorted_length|].
    unfold tfidf_postings. rewrite <- list_fmap_compose, length_fmap.
    apply list_fmap_ext. intros _ file _. simpl.
    by rewrite <- INR_IZR_INZ. }
  split; [exact Hlists|].
  intros key file tf Hfile Hkey.
  assert (file ∈ files_with key (py_sorted file_le files)) as Hin.
  { unfold files_with. apply list_elem_of_filter. split; [by eauto|].
    by rewrite py_sorted_Permutation. }
  destruct (((tfidf_postings (Z.of_nat (length files))
                <$> scan_files (λ file tf, (doc_number file, tf))
                      (py_sorted file_le files)) !! key)) as [postings|]
    eqn:Hpostings.
  - exists postings. split; [done|].
    destruct (Hlists key postings Hpostings) as [Hlen Heq].
    rewrite Heq, Hlen. apply list_elem_of_fmap. exists file.
    split; [|done]. unfold frequency. by rewrite Hkey.
  - rewrite lookup_fmap, scan_files_lookup in Hpostings.
    destruct (files_with key (py_sorted file_le files)); [|done].
    by apply elem_of_nil in Hin.
Qed.

(** ** The re-scoring of [search_engine_3] *)

Section refinement_facts.
Context {Field : Type}.
Variable preprocess_text : string → Field.
Variable py_in : string → Field → bool.
Variable article_fields : Z → py (list string).

Lemma boost_match (all_fields : list Field) (item : list string)
    (total_score : R) :
  criterion_matches py_in all_fields item →
  boost py_in all_fields item total_score = Done (total_score * (3 / 2))%R.
Proof.
  intros (name & needle & pos & field & Hname & Hneedle & Hpos & Hfield & Hin).
  unfold boost.
  apply getitem_Done in Hname, Hneedle, Hfield.
  apply dict_getitem_Done in Hpos.
  rewrite Hneedle. simpl. rewrite Hname. simpl. rewrite Hpos. simpl.
  rewrite Hfield. simpl. rewrite Hin. simpl. f_equal. lra.
Qed.

Lemma boosts_compound (all_fields : list Field)
    (additional_info : list (list string)) (score : R) :
  Forall (criterion_matches py_in all_fields) additional_info →
  for_each (boost py_in all_fields) additional_info score
  = Done (score * (3 / 2) ^ length additional_info)%R.
Proof.
  intros Hall. revert score.
  induction Hall as [|item additional_info Hitem _ IH]; intros score; simpl.
  - f_equal. lra.
  - rewrite (boost_match _ _ _ Hitem). simpl. rewrite IH. f_equal. lra.
Qed.

End refinement_facts.


(** The examples of the refinement: a score of 1.0 becomes 1.5 with one
    matching criterion and 2.25 with two. *)
Lemma refined_score_examples :
  refined_score (λ text, text) String.eqb
    (λ _, Done ["dune"; "dune saga"; "frank herbert"])
    [["booktitle"; "dune"]] 7 1 = Done 1.5%R
  ∧ refined_score (λ text, text) String.eqb
      (λ _, Done ["dune"; "dune saga"; "frank herbert"])
      [["booktitle"; "dune"]; ["bookauthors"; "frank herbert"]] 7 1
    = Done 2.25%R.
Proof.
  assert (criterion_matches String.eqb
            ((λ text, text) <$> ["dune"; "dune saga"; "frank herbert"])
            ["booktitle"; "dune"]) as Htitle.
  { exists "booktitle", "dune", 0, "dune". repeat split. }
  assert (criterion_matches String.eqb
            ((λ text, text) <$> ["dune"; "dune saga"; "frank herbert"])
            ["bookauthors"; "frank herbert"]) as Hauthors.
  { exists "bookauthors", "frank herbert", 2, "frank herbert".
    repeat split. }
  unfold refined_score. cbn [mbind py_bind]. split.
  - rewrite boosts_compound by (by repeat constructor).
    f_equal. simpl. lra.
  - rewrite boosts_compound by (by repeat constructor).
    f_equal. simpl. lra.
Qed.

(** ** [get_top_k] on a small dict with a tie *)

Lemma top_k_of_items_tie :
  top_k_of_items [(3%Z, 3%R); (1%Z, 2%R); (2%Z, 3%R)] 2
  = [(2%Z, 3%R); (3%Z, 3%R)]
  ∧ top_k_of_items [(1%Z, 2%R); (2%Z, 3%R); (3%Z, 3%R)] 2
    = [(2%Z, 3%R); (3%Z, 3%R)].
Proof.
  assert (tuple_le (Ropp 3, 2%Z) (Ropp 3, 3%Z)) as H23.
  { right. simpl. split; [done|lia]. }
  assert (¬ tuple_le (Ropp 3, 3%Z) (Ropp 3, 2%Z)) as H32.
  { intros [?|[_ ?]]; simpl in *; [lra|lia]. }
  assert (¬ tuple_le (Ropp 2, 1%Z) (Ropp 3, 2%Z)) as H12.
  { intros [?|[? _]]; simpl in *; lra. }
  assert (¬ tuple_le (Ropp 2, 1%Z) (Ropp 3, 3%Z)) as H13.
  { intros [?|[? _]]; simpl in *; lra. }
  assert (tuple_le (Ropp 3, 3%Z) (Ropp 2, 1%Z)) as H31.
  { left. simpl. lra. }
  unfold top_k_of_items, nsmallest, py_sorted.
  split; cbn [fmap list_fmap foldr insert_sorted];
    repeat (first [ rewrite (decide_True (P := tuple_le _ _)) by assumption
                  | rewrite (decide_False (P := tuple_le _ _)) by assumption ];
            cbn [insert_sorted]);
    simpl; by rewrite !Ropp_involutive.
Qed.

(** ** [search_engine_2], from the query to the ranking *)

(** With ascending weighted lists and a positive stored norm for every
    common document, [search_engine_2] returns the [k] best of the cosine
    similarities of the common documents. *)
Lemma search_engine_2_ranked (encoded_query : list Z)
    (inverted_idx2 : gmap Z (list (Z * R)))
    (squared_tfidf_per_document : gmap Z R) (k : Z)
    (Ls : list (list (Z * R))) (fuel : nat) :
  encoded_query ≠ [] →
  Forall2 (λ token L, inverted_idx2 !! token = Some L) encoded_query Ls →
  Forall (ascending fst) Ls →
  sum_list (length <$> Ls) < fuel →
  (∀ doc, common fst Ls doc →
     ∃ norm, squared_tfidf_per_document !! doc = Some norm ∧ (0 < norm)%R) →
  ∃ all_scores,
    search_engine_2 fuel (EncList encoded_query) inverted_idx2
      squared_tfidf_per_document k = Done (get_top_k all_scores k)
    ∧ (∀ doc, doc ∈ dom all_scores ↔ common fst Ls doc)
    ∧ (∀ doc similarity norm,
         all_scores !! doc = Some similarity →
         squared_tfidf_per_document !! doc = Some norm →
         ∃ score,
           accumulated Ls doc score
           ∧ similarity
             = (score / (sqrt norm * sqrt (INR (length encoded_query))))%R).
Proof.
  intros Hq Hsel Hasc Hfuel Hnorms.
  assert (Ls ≠ []) as Hne.
  { intros ->. apply Forall2_nil_inv_r in Hsel. done. }
  destruct (weighted_merge_intersection Ls fuel Hne Hasc Hfuel)
    as (docs_scores & Hmerge & Hdom & Hacc).
  destruct (compute_cosine_similarity_Done encoded_query docs_scores
              squared_tfidf_per_document Hq)
    as (all_scores & Hcos & Hdom' & Hsims).
  { intros doc score Hdoc. apply Hnorms, Hdom, elem_of_dom. eauto. }
  exists all_scores. split_and!.
  - unfold search_engine_2. destruct encoded_query as [|token q]; [done|].
    cbn [py_not codes_of]. rewrite (selected_lists_Done _ _ _ Hsel).
    simpl. rewrite Hmerge. simpl. rewrite Hcos. done.
  - intros doc. by rewrite Hdom', Hdom.
  - intros doc similarity norm Hsim Hnorm.
    assert (doc ∈ dom docs_scores) as [score Hscore]%elem_of_dom.
    { rewrite <- Hdom'. apply elem_of_dom. eauto. }
    exists score. split; [by apply Hacc|].
    rewrite (Hsims doc score norm Hscore Hnorm) in Hsim. congruence.
Qed.

(** ** A corpus of one document

    Every word of the only document is in every document, so its weight is
    [tf * ln (1 / 1) = 0] and the stored norm of the document is 0: a
    query for one of its words divides by zero. *)

Lemma one_document_index :
  create_inverted_idx_2 [EncodedFile 1 1 {[10%Z := 2%R]}]
  = Done {[10%Z := [(1%Z, 0%R)]]}.
Proof.
  rewrite create_inverted_idx_2_Done. f_equal.
  unfold scan_files. cbn [py_sorted foldr insert_sorted foldl dict_repr].
  rewrite map_to_list_singleton. cbn [foldl doc_number].
  unfold setdefault_append. rewrite lookup_empty. cbn [default app].
  rewrite insert_empty, map_fmap_singleton. f_equal.
  unfold tfidf_postings. cbn [fmap list_fmap fst snd length].
  do 2 f_equal. simpl.
  change (Z.of_nat 1) with 1%Z. replace (1 / 1)%R with 1%R by lra.
  rewrite ln_1. lra.
Qed.

Lemma one_document_norm :
  store_squared_tfidf_per_document {[10%Z := [(1%Z, 0%R)]]}
  = {[1%Z := 0%R]}.
Proof.
  unfold store_squared_tfidf_per_document.
  rewrite map_to_list_singleton. cbn [foldl].
  unfold setdefault_append. rewrite lookup_empty. cbn [default app].
  rewrite insert_empty, map_fmap_singleton. f_equal.
  unfold py_sum. simpl. lra.
Qed.

Lemma one_document_scores :
  merge fst add_score 2 [[(1%Z, 0%R)]] ∅ = Done {[1%Z := 0%R]}.
Proof.
  unfold merge, merge_loop, loop_cond, loop_body, under_cursors, add_score,
    enumerate, py_all, py_max, getitem.
  simpl. rewrite insert_empty. do 2 f_equal. unfold py_sum. simpl. lra.
Qed.

Lemma one_document_search :
  search_engine_2 2 (EncList [10%Z]) {[10%Z := [(1%Z, 0%R)]]}
    {[1%Z := 0%R]} 5
  = Raise ZeroDivisionError.
Proof.
  unfold search_engine_2. cbn [py_not codes_of mapM].
  unfold dict_getitem at 1. rewrite lookup_singleton_eq.
  cbn [mbind py_bind mret py_ret]. rewrite one_document_scores.
  cbn [mbind py_bind].
  destruct zero_norm_division as [-> _]. done.
Qed.

(** C2 fails as stated. A candidate whose stored norm is zero is divided by
    zero, and one without a stored norm stops the call at the lookup. The
    zero norm arises from the code itself: for a folder with one document
    the index, the norms and the search are those of the module, and the
    search for a word of the document raises. *)
Lemma cosine_zero_norm_raises :
  compute_cosine_similarity [10%Z] {[1%Z := 0%R]} {[1%Z := 0%R]}
  = Raise ZeroDivisionError
  ∧ compute_cosine_similarity [10%Z] {[1%Z := 0%R]} ∅ = Raise KeyError
  ∧ ∃ inverted_idx2,
      create_inverted_idx_2 [EncodedFile 1 1 {[10%Z := 2%R]}]
      = Done inverted_idx2
      ∧ search_engine_2 2 (EncList [10%Z]) inverted_idx2
          (store_squared_tfidf_per_document inverted_idx2) 5
        = Raise ZeroDivisionError.
Proof.
  destruct zero_norm_division as [Hzero Habsent].
  split; [done|]. split; [done|].
  exists {[10%Z := [(1%Z, 0%R)]]}. split; [apply one_document_index|].
  rewrite one_document_norm. apply one_document_search.
Qed.

(** * Further properties of the module *)

(** ** [encode_query], both ways *)

Lemma encode_query_cases (vocabulary : gmap string Z) (query : list string) :
  (∃ codes, Forall2 (λ token code, vocabulary !! token = Some code)
              query codes)
  ∨ (∃ token, token ∈ query ∧ vocabulary !! token = None).
Proof.
  induction query as [|token query [[codes Hcodes]|(t & Ht & Hnone)]].
  - left. exists []. constructor.
  - destruct (vocabulary !! token) as [code|] eqn:Htoken.
    + left. exists (code :: codes). by constructor.
    + right. exists token. split; [apply list_elem_of_here|done].
  - right. exists t. split; [by apply list_elem_of_further|done].
Qed.

(** X1. [encode_query] returns the list of the codes of the tokens, in the
    order of the query and with its repetitions, exactly when every token
    is in the vocabulary; it returns [False] exactly when one is not. *)
Theorem encode_query_spec (query : list string) (vocabulary : gmap string Z) :
  (∀ codes,
     encode_query query vocabulary = EncList codes
     ↔ Forall2 (λ token code, vocabulary !! token = Some code) query codes)
  ∧ (encode_query query vocabulary = EncFalse
     ↔ ∃ token, token ∈ query ∧ vocabulary !! token = None).
Proof.
  unfold encode_query. split.
  - intros codes. split.
    + intros Henc.
      destruct (encode_query_cases vocabulary query) as [[cs Hcs]|Hmiss].
      * rewrite (encode_loop_List _ _ [] cs Hcs) in Henc.
        by injection Henc as <-.
      * by rewrite (encode_loop_False _ _ [] Hmiss) in Henc.
    + intros Hcodes. by rewrite (encode_loop_List _ _ [] codes Hcodes).
  - split; [|apply encode_loop_False].
    intros Henc.
    destruct (encode_query_cases vocabulary query) as [[cs Hcs]|Hmiss];
      [|done].
    by rewrite (encode_loop_List _ _ [] cs Hcs) in Henc.
Qed.

(** ** A token without a posting list *)

Lemma selected_lists_KeyError `{Countable K} {V} (d : gmap K V)
    (ks : list K) :
  (∃ k, k ∈ ks ∧ d !! k = None) →
  mapM (dict_getitem d) ks = Raise KeyError.
Proof.
  intros (k & Hin & Hnone).
  induction ks as [|k0 ks IH]; [by apply elem_of_nil in Hin|].
  cbn [mapM].
  destruct (dict_getitem d k0) as [v|e|] eqn:Hk0.
  - apply dict_getitem_Done in Hk0.
    apply elem_of_cons in Hin as [->|Hin]; [congruence|].
    simpl. by rewrite IH.
  - unfold dict_getitem in Hk0. by destruct (d !! k0); simplify_eq.
  - unfold dict_getitem in Hk0. by destruct (d !! k0).
Qed.

(** X2. A non-empty encoded query with a token that is no key of the index
    makes [search_engine] and [search_engine_2] raise [KeyError], before
    the loop starts (whatever the fuel). *)
Theorem search_token_without_list (encoded_query : list Z)
    (inverted_idx : gmap Z (list Z)) (inverted_idx2 : gmap Z (list (Z * R)))
    (squared_tfidf_per_document : gmap Z R) (k : Z) (fuel : nat) :
  (∃ token, token ∈ encoded_query ∧ inverted_idx !! token = None) →
  (∃ token, token ∈ encoded_query ∧ inverted_idx2 !! token = None) →
  search_engine fuel (EncList encoded_query) inverted_idx = Raise KeyError
  ∧ search_engine_2 fuel (EncList encoded_query) inverted_idx2
      squared_tfidf_per_document k = Raise KeyError.
Proof.
  intros Hmiss Hmiss2. unfold search_engine, search_engine_2.
  destruct encoded_query as [|token q].
  { destruct Hmiss as (t & Ht & _). by apply elem_of_nil in Ht. }
  cbn [py_not codes_of].
  by rewrite (selected_lists_KeyError _ _ Hmiss),
    (selected_lists_KeyError _ _ Hmiss2).
Qed.

Lemma search_token_without_list_witness :
  search_engine 0 (EncList [1; 2]%Z) {[1%Z := [4; 5]%Z]} = Raise KeyError
  ∧ search_engine_2 0 (EncList [1; 2]%Z) {[1%Z := [(4%Z, 1%R)]]} ∅ 3
    = Raise KeyError.
Proof.
  apply (search_token_without_list [1; 2]%Z {[1%Z := [4; 5]%Z]}
           {[1%Z := [(4%Z, 1%R)]]} ∅ 3 0).
  - exists 2%Z. split.
    + apply list_elem_of_In. simpl. right. left. reflexivity.
    + reflexivity.
  - exists 2%Z. split.
    + apply list_elem_of_In. simpl. right. left. reflexivity.
    + reflexivity.
Defined.

(** ** The loop on lists in any order *)

Section merge_any.
Context {A Acc : Type}.
Variable doc_of : A → Z.
Variable on_match : Z → list nat → list (nat * list A) → Acc → py Acc.

Lemma under_common (max_num : Z) (idx : list nat) (Ls : list (list A))
    (cur : list A) :
  under idx Ls cur →
  Forall (λ a, doc_of a = max_num) cur →
  common doc_of Ls max_num.
Proof.
  unfold common. induction 1 as [|i L a idx Ls cur Ha _ IH]; intros Hall;
    [constructor|].
  inversion Hall as [|? ? Hdoc Hcur]; subst.
  constructor; [|by apply IH].
  apply list_elem_of_fmap. exists a. split; [done|].
  by eapply list_elem_of_lookup_2.
Qed.

(** A property of the accumulator that every match keeps holds at the end,
    and the end is reached, whatever the order inside the lists. *)
Lemma merge_keeps (P : Acc → Prop) (Ls : list (list A)) (acc : Acc)
    (fuel : nat) :
  Ls ≠ [] →
  P acc →
  (∀ acc idx cur max_num,
     P acc → under idx Ls cur → Forall (λ a, doc_of a = max_num) cur →
     ∃ acc', on_match max_num idx (enumerate Ls) acc = Done acc' ∧ P acc') →
  sum_list (length <$> Ls) < fuel →
  ∃ acc', merge doc_of on_match fuel Ls acc = Done acc' ∧ P acc'.
Proof.
  intros Hne HP Hok Hfuel. unfold merge.
  destruct (merge_loop_rule doc_of on_match (λ _ acc, P acc) Ls Hne)
    with (fuel := fuel) (idx := replicate (length Ls) 0) (acc := acc)
    as (idx' & acc' & Hrun & HP' & _).
  - intros idx acc0 cur max_num HP0 Hu _ Hall. by eapply Hok.
  - done.
  - done.
  - apply within_start.
  - lia.
  - eauto.
Qed.

Lemma under_same_cursor (i : nat) (idx : list nat) (Ls : list (list A))
    (cur : list A) (docs : list Z) :
  under idx Ls cur →
  Forall (λ j, j = i) idx →
  Forall (λ L, doc_of <$> L = docs) Ls →
  Forall (λ a, docs !! i = Some (doc_of a)) cur.
Proof.
  induction 1 as [|j L a idx Ls cur Ha _ IH]; intros Hidx HLs;
    [constructor|].
  apply Forall_cons in Hidx as [-> Hidx].
  apply Forall_cons in HLs as [<- HLs].
  constructor; [|by apply IH]. by rewrite list_lookup_fmap, Ha.
Qed.

Lemma under_in_step (i : nat) (Ls : list (list A)) (cur : list A)
    (docs : list Z) :
  under (replicate (length Ls) i) Ls cur →
  Forall (λ L, doc_of <$> L = docs) Ls →
  Forall (λ a, docs !! i = Some (doc_of a)) cur.
Proof.
  intros Hu. apply (under_same_cursor i _ Ls cur docs Hu).
  apply Forall_forall. by intros j [-> _]%elem_of_replicate.
Qed.

(** Lists that hold the same documents in the same order are walked in
    step: every document is matched, in that order, ascending or not. *)
Lemma merge_lockstep (P : list Z → Acc → Prop) (Ls : list (list A))
    (docs : list Z) (acc : Acc) (fuel : nat) :
  Ls ≠ [] →
  Forall (λ L, doc_of <$> L = docs) Ls →
  P [] acc →
  (∀ ks acc idx cur max_num,
     P ks acc → under idx Ls cur → Forall (λ a, doc_of a = max_num) cur →
     ∃ acc', on_match max_num idx (enumerate Ls) acc = Done acc'
             ∧ P (ks ++ [max_num]) acc') →
  sum_list (length <$> Ls) < fuel →
  ∃ acc', merge doc_of on_match fuel Ls acc = Done acc' ∧ P docs acc'.
Proof.
  intros Hne Hsame HP Hok Hfuel. unfold merge.
  destruct (merge_loop_rule doc_of on_match
              (λ idx acc, ∃ i, idx = replicate (length Ls) i
                               ∧ i ≤ length docs ∧ P (take i docs) acc)
              Ls Hne)
    with (fuel := fuel) (idx := replicate (length Ls) 0) (acc := acc)
    as (idx' & acc' & Hrun & (i & -> & Hi & HP') & _ & Hcond).
  - intros idx acc0 cur max_num (i & -> & Hi & HP0) Hu _ Hall.
    pose proof (under_in_step i Ls cur docs Hu Hsame) as Hcur.
    destruct cur as [|a cur].
    { apply Forall3_length_lr in Hu. by destruct Ls. }
    assert (docs !! i = Some max_num) as Hdoc.
    { apply Forall_cons in Hall as [<- _]. by apply Forall_cons in Hcur as [? _]. }
    destruct (Hok (take i docs) acc0 _ _ max_num HP0 Hu Hall)
      as (acc' & Hrun & HP').
    exists acc'. split; [done|]. exists (S i). split_and!.
    + by rewrite fmap_replicate.
    + by apply lookup_lt_Some in Hdoc.
    + by rewrite (take_S_r _ _ _ Hdoc).
  - intros idx acc0 cur max_num (i & -> & Hi & HP0) Hu [Hin _] Hnot.
    destruct Hnot.
    pose proof (under_in_step i Ls cur docs Hu Hsame) as Hcur.
    assert (docs !! i = Some max_num) as Hdoc.
    { apply list_elem_of_fmap in Hin as (a & -> & Ha).
      rewrite Forall_forall in Hcur. by apply Hcur. }
    eapply Forall_impl; [exact Hcur|].
    intros a Ha. simpl in Ha. congruence.
  - exists 0. split_and!; [done|lia|done].
  - apply within_start.
  - lia.
  - exists acc'. split; [done|].
    apply loop_cond_false in Hcond; [|by rewrite length_replicate].
    apply Exists_exists in Hcond as ([j L] & Hin & Hlen).
    pose proof (elem_of_zip_l _ _ _ _ Hin) as [-> _]%elem_of_replicate.
    apply elem_of_zip_r in Hin.
    rewrite Forall_forall in Hsame. specialize (Hsame L Hin).
    rewrite <- Hsame in Hi, HP' |- *. rewrite length_fmap in Hi.
    by rewrite take_ge in HP' by (rewrite length_fmap; lia).
Qed.
End merge_any.

(** X3. Whatever the order inside the selected lists, sorted or not,
    [search_engine] returns, and it returns no document that is missing
    from one of the lists. *)
Theorem search_engine_no_phantom (encoded_query : list Z)
    (inverted_idx : gmap Z (list Z)) (Ls : list (list Z)) (fuel : nat) :
  encoded_query ≠ [] →
  Forall2 (λ token L, inverted_idx !! token = Some L) encoded_query Ls →
  sum_list (length <$> Ls) < fuel →
  ∃ result,
    search_engine fuel (EncList encoded_query) inverted_idx = Done result
    ∧ ∀ doc, doc ∈ result → ∀ L, L ∈ Ls → doc ∈ L.
Proof.
  intros Hq Hsel Hfuel.
  assert (Ls ≠ []) as Hne.
  { intros ->. apply Forall2_nil_inv_r in Hsel. done. }
  destruct (merge_keeps (λ doc, doc) append_doc
              (Forall (common (λ doc, doc) Ls)) Ls [] fuel Hne)
    as (result & Hrun & Hresult); [constructor| |done|].
  { intros acc idx cur max_num Hacc Hu Hall. eexists. split; [done|].
    apply Forall_app. split; [done|]. constructor; [|constructor].
    by eapply under_common. }
  exists result. split.
  - unfold search_engine. destruct encoded_query as [|token q]; [done|].
    cbn [py_not codes_of]. rewrite (selected_lists_Done _ _ _ Hsel). done.
  - intros doc Hdoc. rewrite Forall_forall in Hresult.
    by apply common_id, Hresult.
Qed.

Lemma search_engine_no_phantom_witness :
  ∃ result,
    search_engine 6 (EncList [1; 2]%Z)
      (<[1%Z := [5; 1; 5]%Z]> {[2%Z := [2; 5]%Z]}) = Done result
    ∧ ∀ doc, doc ∈ result → ∀ L, L ∈ [[5; 1; 5]; [2; 5]]%Z → doc ∈ L.
Proof.
  apply (search_engine_no_phantom [1; 2]%Z
           (<[1%Z := [5; 1; 5]%Z]> {[2%Z := [2; 5]%Z]})
           [[5; 1; 5]; [2; 5]]%Z 6).
  - discriminate.
  - repeat constructor.
  - simpl. lia.
Defined.

Lemma weighted_merge_accumulated (Ls : list (list (Z * R))) (fuel : nat) :
  Ls ≠ [] →
  sum_list (length <$> Ls) < fuel →
  ∃ docs_scores,
    merge fst add_score fuel Ls ∅ = Done docs_scores
    ∧ ∀ doc score,
        docs_scores !! doc = Some score → accumulated Ls doc score.
Proof.
  intros Hne Hfuel.
  apply (merge_keeps fst add_score
           (λ acc, ∀ doc score, acc !! doc = Some score →
                                accumulated Ls doc score)); [done| | |done].
  - intros doc score. by rewrite lookup_empty.
  - intros acc idx cur max_num Hacc Hu Hall.
    rewrite (add_score_Done _ _ _ _ _ Hu). eexists. split; [done|].
    intros doc score. destruct (decide (doc = max_num)) as [->|Hdoc].
    + rewrite lookup_insert_eq. intros [= <-].
      by apply (under_accumulated idx).
    + rewrite lookup_insert_ne by done. apply Hacc.
Qed.

(** X4. Whatever the order inside the selected weighted lists, the loop of
    [search_engine_2] ends, and every document it scores is in every list,
    its score being the sum of one of its weights from each list. *)
Theorem weighted_merge_sound (Ls : list (list (Z * R))) (fuel : nat) :
  Ls ≠ [] →
  sum_list (length <$> Ls) < fuel →
  ∃ docs_scores,
    merge fst add_score fuel Ls ∅ = Done docs_scores
    ∧ ∀ doc score,
        docs_scores !! doc = Some score →
        ∃ cur, Forall2 (λ L a, a ∈ L ∧ a.1 = doc) Ls cur
               ∧ score = py_sum (snd <$> cur).
Proof. apply weighted_merge_accumulated. Qed.

Lemma weighted_merge_sound_witness :
  ∃ docs_scores,
    merge fst add_score 5 [[(5%Z, 1%R); (1%Z, 2%R)]; [(5%Z, 3%R)]] ∅
    = Done docs_scores
    ∧ ∀ doc score,
        docs_scores !! doc = Some score →
        ∃ cur, Forall2 (λ L a, a ∈ L ∧ a.1 = doc)
                 [[(5%Z, 1%R); (1%Z, 2%R)]; [(5%Z, 3%R)]] cur
               ∧ score = py_sum (snd <$> cur).
Proof.
  apply (weighted_merge_sound [[(5%Z, 1%R); (1%Z, 2%R)]; [(5%Z, 3%R)]] 5).
  - discriminate.
  - simpl. lia.
Defined.

(** ** The order and the repetitions of the query terms *)

Lemma selected_lists_elem `{Countable K} {V} (d : gmap K V) (ks : list K)
    (vs : list V) (v : V) :
  Forall2 (λ k v, d !! k = Some v) ks vs →
  v ∈ vs ↔ ∃ k, k ∈ ks ∧ d !! k = Some v.
Proof.
  induction 1 as [|k0 v0 ks vs Hk0 _ IH].
  - split; [by intros ?%elem_of_nil|]. by intros (? & ?%elem_of_nil & _).
  - rewrite elem_of_cons, IH. split.
    + intros [->|(k & Hk & Hv)].
      * exists k0. split; [apply list_elem_of_here|done].
      * exists k. split; [by apply list_elem_of_further|done].
    + intros (k & [->|Hk]%elem_of_cons & Hv).
      * left. congruence.
      * right. eauto.
Qed.

(** X5. On ascending posting lists the result of [search_engine] depends
    on the set of the query terms only: two non-empty encoded queries with
    the same terms, in any order and with any repetitions, get the same
    result. *)
Theorem search_engine_query_set (encoded_query encoded_query' : list Z)
    (inverted_idx : gmap Z (list Z)) (Ls Ls' : list (list Z)) (fuel : nat) :
  encoded_query ≠ [] →
  (∀ token, token ∈ encoded_query ↔ token ∈ encoded_query') →
  Forall2 (λ token L, inverted_idx !! token = Some L) encoded_query Ls →
  Forall2 (λ token L, inverted_idx !! token = Some L) encoded_query' Ls' →
  Forall (StronglySorted Z.lt) Ls →
  sum_list (length <$> Ls) < fuel →
  sum_list (length <$> Ls') < fuel →
  ∃ result,
    search_engine fuel (EncList encoded_query) inverted_idx = Done result
    ∧ search_engine fuel (EncList encoded_query') inverted_idx = Done result.
Proof.
  intros Hq Hsame Hsel Hsel' Hasc Hfuel Hfuel'.
  assert (∀ L, L ∈ Ls ↔ L ∈ Ls') as Hlists.
  { intros L. rewrite (selected_lists_elem _ _ _ L Hsel),
      (selected_lists_elem _ _ _ L Hsel').
    split; intros (t & Ht & HL); exists t; split; try done; by apply Hsame. }
  assert (encoded_query' ≠ []) as Hq'.
  { destruct encoded_query as [|t q]; [done|]. intros ->.
    assert (t ∈ ([] : list Z)) as Ht by (apply Hsame, list_elem_of_here).
    by apply elem_of_nil in Ht. }
  assert (Ls ≠ []) as Hne.
  { intros ->. apply Forall2_nil_inv_r in Hsel. done. }
  assert (Ls' ≠ []) as Hne'.
  { intros ->. apply Forall2_nil_inv_r in Hsel'. done. }
  assert (Forall (StronglySorted Z.lt) Ls') as Hasc'.
  { rewrite Forall_forall in Hasc |- *. intros L HL. by apply Hasc, Hlists. }
  destruct (merge_intersects (λ doc, doc) append_doc (λ ks acc, acc = ks)
              Ls [] fuel Hne) as (ks & result & Hrun & -> & Hsorted & Hin);
    [done|done| |done|].
  { intros ks acc idx cur max_num -> _ _. by exists (ks ++ [max_num]). }
  destruct (merge_intersects (λ doc, doc) append_doc (λ ks acc, acc = ks)
              Ls' [] fuel Hne')
    as (ks' & result' & Hrun' & -> & Hsorted' & Hin'); [done|done| |done|].
  { intros ks0 acc idx cur max_num -> _ _. by exists (ks0 ++ [max_num]). }
  assert (ks' = ks) as ->.
  { apply ascending_ext; [done..|]. intros x.
    rewrite Hin, Hin', !common_id. split; intros Hx L HL; by apply Hx, Hlists. }
  exists ks. unfold search_engine.
  destruct encoded_query as [|t q]; [done|].
  destruct encoded_query' as [|t' q']; [done|].
  cbn [py_not codes_of].
  rewrite (selected_lists_Done _ _ _ Hsel), (selected_lists_Done _ _ _ Hsel').
  done.
Qed.

Lemma search_engine_query_set_witness :
  ∃ result,
    search_engine 9 (EncList [1; 2]%Z)
      (<[1%Z := [1; 3; 5]%Z]> {[2%Z := [3; 5]%Z]}) = Done result
    ∧ search_engine 9 (EncList [2; 1; 2]%Z)
        (<[1%Z := [1; 3; 5]%Z]> {[2%Z := [3; 5]%Z]}) = Done result.
Proof.
  apply (search_engine_query_set [1; 2]%Z [2; 1; 2]%Z
           (<[1%Z := [1; 3; 5]%Z]> {[2%Z := [3; 5]%Z]})
           [[1; 3; 5]; [3; 5]]%Z [[3; 5]; [1; 3; 5]; [3; 5]]%Z 9).
  - discriminate.
  - intros token. rewrite !list_elem_of_In. simpl. tauto.
  - repeat constructor.
  - repeat constructor.
  - repeat constructor; lia.
  - simpl. lia.
  - simpl. lia.
Defined.

(** ** What the indexes hold *)

Lemma entry_of_None {V} (l : list V) : entry_of l = None ↔ l = [].
Proof. by destruct l. Qed.

(** Two files with distinct numbers whose list does not ascend:
    [5.pickle] is read before [1234.pkl], which is recorded as 1. *)
Lemma unsorted_posting_list :
  create_inverted_idx
    [EncodedFile 1234 1 {[4%Z := 1%R]}; EncodedFile 5 5 {[4%Z := 1%R]}]
    !! 4%Z
  = Some [5; 1]%Z.
Proof. rewrite create_inverted_idx_scan, scan_files_lookup. reflexivity. Qed.

(** X6. In the index of [create_inverted_idx] a word has a list exactly
    when some file contains it. The list is never empty; it holds the
    recorded number of each file that contains the word, once per file,
    in the order in which the files are read, which is that of their sort
    keys. The recorded numbers ascend when every file is named
    [<n>.pickle]; with other names they need not. *)
Theorem create_inverted_idx_lists (files : list encoded_file) (key : Z) :
  (create_inverted_idx files !! key = None
   ↔ ∀ file, file ∈ files → dict_repr file !! key = None)
  ∧ ∀ postings,
      create_inverted_idx files !! key = Some postings →
      postings ≠ []
      ∧ postings = doc_number <$> files_with key (py_sorted file_le files)
      ∧ StronglySorted Z.le
          (sort_key <$> files_with key (py_sorted file_le files))
      ∧ postings ≡ₚ doc_number <$> files_with key files
      ∧ (Forall conforming files → StronglySorted Z.le postings).
Proof.
  rewrite create_inverted_idx_scan, scan_files_lookup. split.
  - rewrite entry_of_None. unfold files_with. split.
    + intros Hnil%fmap_nil_inv file Hfile.
      destruct (dict_repr file !! key) as [tf|] eqn:Hkey; [|done].
      assert (file ∈ filter (λ file, is_Some (dict_repr file !! key))
                       (py_sorted file_le files)) as Hin.
      { apply list_elem_of_filter. split; [by eauto|].
        by rewrite py_sorted_Permutation. }
      rewrite Hnil in Hin. by apply elem_of_nil in Hin.
    + intros Hnone.
      destruct (filter _ (py_sorted file_le files)) as [|file l] eqn:Hl;
        [done|].
      assert (file ∈ filter (λ file, is_Some (dict_repr file !! key))
                       (py_sorted file_le files)) as Hin.
      { rewrite Hl. apply list_elem_of_here. }
      apply list_elem_of_filter in Hin as [[tf Htf] Hfile].
      rewrite py_sorted_Permutation in Hfile.
      by rewrite (Hnone file Hfile) in Htf.
  - intros postings Hpostings. split_and!.
    + intros ->. by destruct (_ <$> _).
    + by apply entry_of_Some in Hpostings as <-.
    + apply (StronglySorted_fmap _ file_le); [done|].
      apply StronglySorted_filter, py_sorted_StronglySorted; apply _.
    + apply entry_of_Some in Hpostings as <-. unfold files_with.
      by rewrite py_sorted_Permutation.
    + intros Hnames. apply entry_of_Some in Hpostings as <-.
      eapply StronglySorted_sublist; [|by apply conforming_sorted_le].
      apply fmap_sublist, sublist_filter.
Qed.

Lemma entry_of_fmap {V W} (f : V → W) (l : list V) :
  entry_of (f <$> l) = (λ l' : list V, f <$> l') <$> entry_of l.
Proof. by destruct l. Qed.

(** X7. [create_inverted_idx_2] returns, and its index is the index of
    [create_inverted_idx] with a weight beside every document: the words
    are the same and, weights dropped, the lists are the same. *)
Theorem inverted_indexes_agree (files : list encoded_file) :
  ∃ inverted_idx2,
    create_inverted_idx_2 files = Done inverted_idx2
    ∧ (λ postings : list (Z * R), postings.*1) <$> inverted_idx2
      = create_inverted_idx files.
Proof.
  eexists. split; [apply create_inverted_idx_2_Done|].
  apply map_eq. intros key.
  rewrite !lookup_fmap, create_inverted_idx_scan, !scan_files_lookup.
  rewrite !entry_of_fmap.
  destruct (entry_of (files_with key (py_sorted file_le files)))
    as [l|]; [|done].
  cbn [fmap option_fmap option_map]. f_equal.
  rewrite tfidf_postings_docs, <- list_fmap_compose. done.
Qed.

(** The list of a word in the weighted index. *)
Lemma weighted_list_lookup (files : list encoded_file) (key : Z)
    (postings : list (Z * R)) :
  (tfidf_postings (Z.of_nat (length files))
     <$> scan_files (λ file tf, (doc_number file, tf))
           (py_sorted file_le files)) !! key = Some postings →
  postings
  = (λ file,
       (doc_number file,
        (frequency key file
         * ln (INR (length files) / INR (df key files)))%R))
      <$> files_with key (py_sorted file_le files).
Proof.
  rewrite lookup_fmap, scan_files_lookup.
  intros (raw & <-%entry_of_Some & ->)%fmap_Some.
  unfold tfidf_postings. rewrite <- list_fmap_compose, length_fmap.
  rewrite files_with_sorted_length.
  apply list_fmap_ext. intros _ file _. simpl.
  by rewrite <- INR_IZR_INZ.
Qed.

Lemma df_le_length (key : Z) (files : list encoded_file) :
  df key files ≤ length files.
Proof. unfold df, files_with. apply length_filter. Qed.

Lemma idf_nonneg (N n : nat) : 0 < n → n ≤ N → (0 <= ln (INR N / INR n))%R.
Proof.
  intros Hn HnN.
  assert (0 < INR n)%R as Hn' by (by apply lt_0_INR).
  assert (INR n <= INR N)%R as Hle by (by apply le_INR).
  assert (1 <= INR N / INR n)%R as Hratio.
  { replace (INR N / INR n)%R with (1 + (INR N - INR n) / INR n)%R
      by (field; lra).
    assert (0 <= (INR N - INR n) / INR n)%R; [|lra].
    apply Rmult_le_pos; [lra|]. left. by apply Rinv_0_lt_compat. }
  destruct (Req_dec 1 (INR N / INR n)) as [<-|Hne].
  - rewrite ln_1. lra.
  - left. rewrite <- ln_1. apply ln_increasing; lra.
Qed.

Lemma filter_all {A} (P : A → Prop) `{!∀ x, Decision (P x)} (l : list A) :
  Forall P l → filter P l = l.
Proof.
  induction 1 as [|x l Hx _ IH]; [done|].
  rewrite filter_cons, decide_True by done. by rewrite IH.
Qed.

(** X8. When no frequency is negative, no weight of the index of
    [create_inverted_idx_2] is negative; and whatever the frequencies, a
    word that is in every file has weight 0 in each of them. *)
Theorem tfidf_weights_sign (files : list encoded_file) :
  ∃ inverted_idx2,
    create_inverted_idx_2 files = Done inverted_idx2
    ∧ ∀ key postings doc weight,
        inverted_idx2 !! key = Some postings →
        (doc, weight) ∈ postings →
        ((∀ file tf,
            file ∈ files → dict_repr file !! key = Some tf → (0 <= tf)%R) →
         (0 <= weight)%R)
        ∧ ((∀ file, file ∈ files → is_Some (dict_repr file !! key)) →
           weight = 0%R).
Proof.
  eexists. split; [apply create_inverted_idx_2_Done|].
  intros key postings doc weight Hpostings Hin.
  apply weighted_list_lookup in Hpostings as ->.
  apply list_elem_of_fmap in Hin as (file & [= -> ->] & Hfile).
  unfold files_with in Hfile.
  apply list_elem_of_filter in Hfile as [[tf Htf] Hfile].
  rewrite py_sorted_Permutation in Hfile.
  assert (0 < df key files) as Hdf.
  { unfold df, files_with.
    assert (file ∈ filter (λ file, is_Some (dict_repr file !! key)) files)
      as Hin by (apply list_elem_of_filter; eauto).
    destruct (filter _ files); [by apply elem_of_nil in Hin|simpl; lia]. }
  split.
  - intros Hpos. unfold frequency. rewrite Htf. simpl.
    apply Rmult_le_pos; [by eapply Hpos|].
    apply idf_nonneg; [done|apply df_le_length].
  - intros Hall.
    assert (df key files = length files) as Hall'.
    { unfold df, files_with. f_equal. apply filter_all.
      by apply Forall_forall. }
    rewrite Hall' in Hdf |- *.
    replace (INR (length files) / INR (length files))%R with 1%R.
    + rewrite ln_1. lra.
    + field. apply not_0_INR. lia.
Qed.

(** ** Sums *)

Lemma foldl_Rplus (a : R) (l : list R) :
  foldl Rplus a l = (a + py_sum l)%R.
Proof.
  unfold py_sum. revert a. induction l as [|x l IH]; intros a; simpl.
  - lra.
  - rewrite (IH (a + x)%R), (IH (0 + x)%R). lra.
Qed.

Lemma py_sum_cons (x : R) (l : list R) : py_sum (x :: l) = (x + py_sum l)%R.
Proof. unfold py_sum at 1. simpl. rewrite foldl_Rplus. lra. Qed.

Lemma py_sum_app (l1 l2 : list R) :
  py_sum (l1 ++ l2) = (py_sum l1 + py_sum l2)%R.
Proof.
  induction l1 as [|x l1 IH]; simpl.
  - unfold py_sum at 2. simpl. lra.
  - rewrite !py_sum_cons, IH. lra.
Qed.

Lemma py_sum_nonneg (l : list R) :
  Forall (λ x, (0 <= x)%R) l → (0 <= py_sum l)%R.
Proof.
  induction 1 as [|x l Hx _ IH]; [unfold py_sum; simpl; lra|].
  rewrite py_sum_cons. lra.
Qed.

Lemma py_sum_elem_le (l : list R) (x : R) :
  Forall (λ y, (0 <= y)%R) l → x ∈ l → (x <= py_sum l)%R.
Proof.
  induction 1 as [|y l Hy Hl IH]; intros Hin; [by apply elem_of_nil in Hin|].
  rewrite py_sum_cons. pose proof (py_sum_nonneg l Hl).
  apply elem_of_cons in Hin as [->|Hin]; [lra|].
  specialize (IH Hin). lra.
Qed.

Lemma py_sum_zero (l : list R) :
  Forall (λ y, (0 <= y)%R) l →
  py_sum l = 0%R ↔ Forall (λ y, y = 0%R) l.
Proof.
  induction 1 as [|y l Hy Hl IH]; [by split|].
  rewrite py_sum_cons, Forall_cons. pose proof (py_sum_nonneg l Hl).
  split.
  - intros Hsum. split; [lra|]. apply IH. lra.
  - intros [-> Hzero]. apply IH in Hzero. lra.
Qed.

(** ** [store_squared_tfidf_per_document] *)

(** One list per document, in the order of the entries. *)
Lemma gather_lookup {V W} (f : V → W) (entries : list (Z * V))
    (acc : gmap Z (list W)) (doc : Z) :
  foldl (λ acc '(d, v), setdefault_append d (f v) acc) acc entries !! doc
  = match (λ entry, f entry.2) <$> filter (λ entry, entry.1 = doc) entries with
    | [] => acc !! doc
    | ws => Some (default [] (acc !! doc) ++ ws)
    end.
Proof.
  revert acc. induction entries as [|[d v] entries IH]; intros acc; [done|].
  cbn [foldl]. rewrite IH, filter_cons. unfold setdefault_append.
  cbn [fst]. destruct (decide (d = doc)) as [->|Hne].
  - rewrite lookup_insert_eq, fmap_cons. cbn [snd default].
    destruct (_ <$> filter _ entries) as [|w ws]; [done|].
    unfold Datatypes.id. by rewrite <- app_assoc.
  - by rewrite lookup_insert_ne.
Qed.

Lemma foldl_lists {A B K} (g : B → A → B) (b : B) (l : list (K * list A)) :
  foldl (λ b '(_, entries), foldl g b entries) b l
  = foldl g b (mjoin (snd <$> l)).
Proof.
  revert b. induction l as [|[k entries] l IH]; intros b; simpl; [done|].
  by rewrite foldl_app, IH.
Qed.

(** The stored norm of a document is the sum of the squares of the weights
    that the document carries in the index. *)
Lemma store_squared_lookup (inverted_idx2 : gmap Z (list (Z * R)))
    (doc : Z) :
  store_squared_tfidf_per_document inverted_idx2 !! doc
  = py_sum <$> entry_of ((λ w, (w ^ 2)%R) <$> weights_of doc inverted_idx2).
Proof.
  unfold store_squared_tfidf_per_document, weights_of, all_entries.
  rewrite lookup_fmap. f_equal.
  rewrite (foldl_lists
             (λ acc '(d, w), setdefault_append d (w ^ 2)%R acc) ∅
             (map_to_list inverted_idx2)).
  rewrite gather_lookup, lookup_empty, <- list_fmap_compose.
  by destruct (_ <$> filter _ _).
Qed.

Lemma elem_of_weights_of (inverted_idx2 : gmap Z (list (Z * R))) (doc : Z)
    (weight : R) :
  weight ∈ weights_of doc inverted_idx2
  ↔ ∃ term postings,
      inverted_idx2 !! term = Some postings ∧ (doc, weight) ∈ postings.
Proof.
  unfold weights_of, all_entries. rewrite list_elem_of_fmap. split.
  - intros ([d w] & -> & [Hd Hin]%list_elem_of_filter).
    simpl in Hd. subst d.
    apply list_elem_of_join in Hin as (postings & Hin & Hpostings).
    apply list_elem_of_fmap in Hpostings
      as ([term postings'] & -> & Hterm%elem_of_map_to_list).
    by exists term, postings'.
  - intros (term & postings & Hterm & Hin).
    exists (doc, weight). split; [done|].
    apply list_elem_of_filter. split; [done|].
    apply list_elem_of_join. exists postings. split; [done|].
    apply list_elem_of_fmap. exists (term, postings).
    split; [done|]. by apply elem_of_map_to_list.
Qed.

Lemma squares_nonneg (ws : list R) :
  Forall (λ x, (0 <= x)%R) ((λ w, (w ^ 2)%R) <$> ws).
Proof.
  apply Forall_fmap, Forall_true. intros w. simpl. nra.
Qed.

Lemma squared_norms_facts (inverted_idx2 : gmap Z (list (Z * R))) (doc : Z) :
  (is_Some (store_squared_tfidf_per_document inverted_idx2 !! doc)
   ↔ ∃ term postings weight,
       inverted_idx2 !! term = Some postings ∧ (doc, weight) ∈ postings)
  ∧ ∀ norm,
      store_squared_tfidf_per_document inverted_idx2 !! doc = Some norm →
      norm = py_sum ((λ w, (w ^ 2)%R) <$> weights_of doc inverted_idx2)
      ∧ (0 <= norm)%R
      ∧ (∀ term postings weight,
           inverted_idx2 !! term = Some postings →
           (doc, weight) ∈ postings → (weight ^ 2 <= norm)%R)
      ∧ (norm = 0%R
         ↔ ∀ term postings weight,
             inverted_idx2 !! term = Some postings →
             (doc, weight) ∈ postings → weight = 0%R).
Proof.
  rewrite store_squared_lookup. split.
  - rewrite fmap_is_Some. split.
    + intros [l Hl].
      destruct (weights_of doc inverted_idx2) as [|w ws] eqn:Hws; [done|].
      assert (w ∈ weights_of doc inverted_idx2) as Hw.
      { rewrite Hws. apply list_elem_of_here. }
      apply elem_of_weights_of in Hw as (term & postings & ? & ?).
      by exists term, postings, w.
    + intros (term & postings & weight & Hterm & Hin).
      assert (weight ∈ weights_of doc inverted_idx2) as Hw.
      { apply elem_of_weights_of. eauto. }
      destruct (weights_of doc inverted_idx2) as [|w ws];
        [by apply elem_of_nil in Hw|].
      by eexists.
  - intros norm (l & <-%entry_of_Some & ->)%fmap_Some.
    pose proof (squares_nonneg (weights_of doc inverted_idx2)) as Hnonneg.
    split_and!.
    + done.
    + by apply py_sum_nonneg.
    + intros term postings weight Hterm Hin.
      apply py_sum_elem_le; [done|].
      apply list_elem_of_fmap. exists weight. split; [done|].
      apply elem_of_weights_of. eauto.
    + rewrite (py_sum_zero _ Hnonneg), Forall_fmap, Forall_forall. split.
      * intros Hzero term postings weight Hterm Hin.
        assert (weight ^ 2 = 0)%R as Hsq.
        { apply Hzero, elem_of_weights_of. eauto. }
        nra.
      * intros Hzero w (term & postings & Hterm & Hin)%elem_of_weights_of.
        simpl. rewrite (Hzero term postings w Hterm Hin). lra.
Qed.

(** X9. [store_squared_tfidf_per_document] stores a norm only for a
    document that occurs in a list of the index. A stored norm is the sum
    of the squares of the weights of the document, floats read as reals;
    it is never negative, and it is 0 when all the weights of the document
    are 0. *)
Theorem stored_norms (inverted_idx2 : gmap Z (list (Z * R))) (doc : Z) :
  (is_Some (store_squared_tfidf_per_document inverted_idx2 !! doc) →
   ∃ term postings weight,
     inverted_idx2 !! term = Some postings ∧ (doc, weight) ∈ postings)
  ∧ ∀ norm,
      store_squared_tfidf_per_document inverted_idx2 !! doc = Some norm →
      norm = py_sum ((λ w, (w ^ 2)%R) <$> weights_of doc inverted_idx2)
      ∧ (0 <= norm)%R
      ∧ ((∀ term postings weight,
            inverted_idx2 !! term = Some postings →
            (doc, weight) ∈ postings → weight = 0%R) →
         norm = 0%R).
Proof.
  destruct (squared_norms_facts inverted_idx2 doc) as [Hsome Hfacts].
  split; [apply Hsome|].
  intros norm Hnorm. destruct (Hfacts norm Hnorm) as (Hsum & Hpos & _ & Hzero).
  split_and!; [done..|]. apply Hzero.
Qed.

(** ** The faults of the ranked search *)

(** What a loop that stores one computed value per item leaves, read
    backwards: each stored value was computed from an item. *)
Lemma for_each_store_inv {V W} (f : Z → V → py W) (items : list (Z * V))
    (acc m : gmap Z W) :
  for_each (λ '(k, v) m, w ← f k v; mret (<[k := w]> m)) items acc = Done m →
  ∀ k w, m !! k = Some w →
         acc !! k = Some w ∨ ∃ v, (k, v) ∈ items ∧ f k v = Done w.
Proof.
  revert acc. induction items as [|[k0 v0] items IH]; intros acc Hrun k w Hk.
  - injection Hrun as <-. by left.
  - cbn [for_each] in Hrun.
    apply py_bind_Done in Hrun as (acc1 & Hstep & Hrun).
    apply py_bind_Done in Hstep as (w0 & Hw0 & [= <-]).
    destruct (IH _ Hrun k w Hk) as [Hacc|(v & Hin & Hv)].
    + destruct (decide (k = k0)) as [->|Hne].
      * rewrite lookup_insert_eq in Hacc. injection Hacc as <-.
        right. exists v0. split; [apply list_elem_of_here|done].
      * rewrite lookup_insert_ne in Hacc by done. by left.
    + right. exists v. split; [by apply list_elem_of_further|done].
Qed.

(** When every item either succeeds or raises [e], so does the loop. *)
Lemma for_each_store_outcome {V W} (e : exception) (f : Z → V → py W)
    (items : list (Z * V)) (acc : gmap Z W) :
  (∀ k v, (k, v) ∈ items → (∃ w, f k v = Done w) ∨ f k v = Raise e) →
  (∃ m, for_each (λ '(k, v) m, w ← f k v; mret (<[k := w]> m)) items acc
        = Done m)
  ∨ for_each (λ '(k, v) m, w ← f k v; mret (<[k := w]> m)) items acc
    = Raise e.
Proof.
  revert acc. induction items as [|[k0 v0] items IH]; intros acc Hitems.
  - left. by exists acc.
  - cbn [for_each].
    destruct (Hitems k0 v0) as [[w0 ->]| ->]; [apply list_elem_of_here| |].
    + simpl. apply IH. intros k v Hin. apply Hitems.
      by apply list_elem_of_further.
    + by right.
Qed.

Lemma cos_similarity_outcome (encoded_query : list Z)
    (squared_tfidf_per_document : gmap Z R) (doc : Z) (score norm : R) :
  squared_tfidf_per_document !! doc = Some norm →
  (0 <= norm)%R →
  (∃ c, cos_similarity encoded_query squared_tfidf_per_document doc score
        = Done c)
  ∨ cos_similarity encoded_query squared_tfidf_per_document doc score
    = Raise ZeroDivisionError.
Proof.
  intros Hnorm Hpos. unfold cos_similarity, dict_getitem, math_sqrt.
  rewrite Hnorm. simpl.
  destruct (decide (norm < 0)%R); [lra|]. simpl.
  pose proof (pos_INR (length encoded_query)).
  destruct (decide (INR (length encoded_query) < 0)%R); [lra|]. simpl.
  unfold py_truediv. destruct (decide _); [by right|left; eauto].
Qed.

Lemma cos_similarity_inv (encoded_query : list Z)
    (squared_tfidf_per_document : gmap Z R) (doc : Z) (score c : R) :
  cos_similarity encoded_query squared_tfidf_per_document doc score = Done c →
  ∃ norm,
    squared_tfidf_per_document !! doc = Some norm
    ∧ (0 <= norm)%R
    ∧ (sqrt norm * sqrt (INR (length encoded_query)) ≠ 0)%R
    ∧ c = (score / (sqrt norm * sqrt (INR (length encoded_query))))%R.
Proof.
  unfold cos_similarity, dict_getitem, math_sqrt, py_truediv.
  destruct (squared_tfidf_per_document !! doc) as [norm|]; [|done]. simpl.
  destruct (decide (norm < 0)%R); [done|]. simpl.
  destruct (decide (INR (length encoded_query) < 0)%R); [done|]. simpl.
  destruct (decide _) as [|Hne]; [done|]. intros [= <-].
  exists norm. split_and!; [done|lra|done|done].
Qed.

Lemma accumulated_entry (inverted_idx2 : gmap Z (list (Z * R)))
    (encoded_query : list Z) (Ls : list (list (Z * R))) (doc : Z)
    (score : R) :
  Ls ≠ [] →
  Forall2 (λ token L, inverted_idx2 !! token = Some L) encoded_query Ls →
  accumulated Ls doc score →
  ∃ term postings weight,
    inverted_idx2 !! term = Some postings ∧ (doc, weight) ∈ postings.
Proof.
  intros Hne Hsel (cur & Hcur & _).
  destruct Hsel as [|term L q Ls HL _]; [done|].
  inversion Hcur as [|? [d w] ? ? [Hin Hd] _]; subst. simpl in *.
  by exists term, L, w.
Qed.

(** From the selected lists to the similarities. *)
Lemma ranked_search_outcome (encoded_query : list Z)
    (inverted_idx2 : gmap Z (list (Z * R))) (k : Z)
    (Ls : list (list (Z * R))) (fuel : nat) :
  encoded_query ≠ [] →
  Forall2 (λ token L, inverted_idx2 !! token = Some L) encoded_query Ls →
  sum_list (length <$> Ls) < fuel →
  search_engine_2 fuel (EncList encoded_query) inverted_idx2
    (store_squared_tfidf_per_document inverted_idx2) k
  = Raise ZeroDivisionError
  ∨ ∃ all_scores,
      search_engine_2 fuel (EncList encoded_query) inverted_idx2
        (store_squared_tfidf_per_document inverted_idx2) k
      = Done (get_top_k all_scores k)
      ∧ ∀ doc similarity,
          all_scores !! doc = Some similarity →
          ∃ score norm,
            accumulated Ls doc score
            ∧ store_squared_tfidf_per_document inverted_idx2 !! doc
              = Some norm
            ∧ (sqrt norm * sqrt (INR (length encoded_query)) ≠ 0)%R
            ∧ similarity
              = (score / (sqrt norm * sqrt (INR (length encoded_query))))%R.
Proof.
  intros Hq Hsel Hfuel.
  assert (Ls ≠ []) as Hne.
  { intros ->. apply Forall2_nil_inv_r in Hsel. done. }
  destruct (weighted_merge_accumulated Ls fuel Hne Hfuel)
    as (docs_scores & Hmerge & Hacc).
  assert (search_engine_2 fuel (EncList encoded_query) inverted_idx2
            (store_squared_tfidf_per_document inverted_idx2) k
          = all_scores ← compute_cosine_similarity encoded_query docs_scores
                           (store_squared_tfidf_per_document inverted_idx2);
            mret (get_top_k all_scores k)) as ->.
  { unfold search_engine_2. destruct encoded_query as [|token q]; [done|].
    cbn [py_not codes_of]. rewrite (selected_lists_Done _ _ _ Hsel).
    simpl. by rewrite Hmerge. }
  unfold compute_cosine_similarity, cosine_loop.
  destruct (for_each_store_outcome ZeroDivisionError
              (cos_similarity encoded_query
                 (store_squared_tfidf_per_document inverted_idx2))
              (map_to_list docs_scores) ∅) as [[sims Hrun]|Hrun].
  - intros doc score Hdoc%elem_of_map_to_list.
    destruct (accumulated_entry _ _ _ _ _ Hne Hsel (Hacc doc score Hdoc))
      as (term & postings & weight & Hterm & Hin).
    destruct (squared_norms_facts inverted_idx2 doc) as [Hsome Hnorm].
    destruct (proj2 Hsome) as [norm Hn]; [by eauto|].
    destruct (Hnorm norm Hn) as (_ & Hpos & _).
    by eapply cos_similarity_outcome.
  - right. exists sims. rewrite Hrun. split; [done|].
    intros doc similarity Hsim.
    destruct (for_each_store_inv _ _ _ _ Hrun doc similarity Hsim)
      as [Hempty|(score & Hdoc%elem_of_map_to_list & Hcos)].
    { by rewrite lookup_empty in Hempty. }
    apply cos_similarity_inv in Hcos as (norm & Hn & _ & Hden & ->).
    exists score, norm. split_and!; [by apply Hacc|done..].
  - left. by rewrite Hrun.
Qed.

(** X10. With the norms that [store_squared_tfidf_per_document] computes
    from the index that is searched, [search_engine_2] on a non-empty
    encoded query whose tokens all have a list either returns or raises
    [ZeroDivisionError]: no stored norm is missing or negative, and no
    cursor leaves its list. *)
Theorem search_engine_2_faults (encoded_query : list Z)
    (inverted_idx2 : gmap Z (list (Z * R))) (k : Z)
    (Ls : list (list (Z * R))) (fuel : nat) :
  encoded_query ≠ [] →
  Forall2 (λ token L, inverted_idx2 !! token = Some L) encoded_query Ls →
  sum_list (length <$> Ls) < fuel →
  (∃ result,
     search_engine_2 fuel (EncList encoded_query) inverted_idx2
       (store_squared_tfidf_per_document inverted_idx2) k = Done result)
  ∨ search_engine_2 fuel (EncList encoded_query) inverted_idx2
      (store_squared_tfidf_per_document inverted_idx2) k
    = Raise ZeroDivisionError.
Proof.
  intros Hq Hsel Hfuel.
  destruct (ranked_search_outcome encoded_query inverted_idx2 k Ls fuel
              Hq Hsel Hfuel) as [Hraise|(all_scores & Hrun & _)].
  - by right.
  - left. eauto.
Qed.

Lemma search_engine_2_faults_witness :
  (∃ result,
     search_engine_2 4 (EncList [10; 11]%Z)
       (<[10%Z := [(1%Z, 2%R)]]> {[11%Z := [(1%Z, 0%R); (2%Z, 1%R)]]})
       (store_squared_tfidf_per_document
          (<[10%Z := [(1%Z, 2%R)]]> {[11%Z := [(1%Z, 0%R); (2%Z, 1%R)]]}))
       5 = Done result)
  ∨ search_engine_2 4 (EncList [10; 11]%Z)
      (<[10%Z := [(1%Z, 2%R)]]> {[11%Z := [(1%Z, 0%R); (2%Z, 1%R)]]})
      (store_squared_tfidf_per_document
         (<[10%Z := [(1%Z, 2%R)]]> {[11%Z := [(1%Z, 0%R); (2%Z, 1%R)]]}))
      5 = Raise ZeroDivisionError.
Proof.
  apply (search_engine_2_faults [10; 11]%Z
           (<[10%Z := [(1%Z, 2%R)]]> {[11%Z := [(1%Z, 0%R); (2%Z, 1%R)]]})
           5 [[(1%Z, 2%R)]; [(1%Z, 0%R); (2%Z, 1%R)]] 4).
  - discriminate.
  - repeat constructor.
  - simpl. lia.
Defined.

(** ** The sign of the similarities *)

Lemma get_top_k_elem (dic : gmap Z R) (k : Z) (key : Z) (score : R) :
  (key, score) ∈ get_top_k dic k → dic !! key = Some score.
Proof.
  unfold get_top_k. intros Hin.
  destruct (top_k_of_items_split (map_to_list dic) k) as (rest & Hperm & _).
  apply elem_of_map_to_list. rewrite Hperm. apply elem_of_app. by left.
Qed.

(** X11. With the norms computed from the index that is searched, and no
    negative weight in that index, no similarity that [search_engine_2]
    returns is negative. (The call may raise [ZeroDivisionError]
    instead.) *)
Theorem search_engine_2_nonnegative (encoded_query : list Z)
    (inverted_idx2 : gmap Z (list (Z * R))) (k : Z)
    (Ls : list (list (Z * R))) (fuel : nat) :
  encoded_query ≠ [] →
  Forall2 (λ token L, inverted_idx2 !! token = Some L) encoded_query Ls →
  sum_list (length <$> Ls) < fuel →
  (∀ term postings d w,
     inverted_idx2 !! term = Some postings → (d, w) ∈ postings → (0 <= w)%R) →
  search_engine_2 fuel (EncList encoded_query) inverted_idx2
    (store_squared_tfidf_per_document inverted_idx2) k
  = Raise ZeroDivisionError
  ∨ ∃ result,
      search_engine_2 fuel (EncList encoded_query) inverted_idx2
        (store_squared_tfidf_per_document inverted_idx2) k = Done result
      ∧ ∀ doc similarity,
          (doc, similarity) ∈ result → (0 <= similarity)%R.
Proof.
  intros Hq Hsel Hfuel Hweights.
  destruct (ranked_search_outcome encoded_query inverted_idx2 k Ls fuel
              Hq Hsel Hfuel) as [Hraise|(all_scores & Hrun & Hscores)];
    [by left|right].
  exists (get_top_k all_scores k). split; [done|].
  intros doc similarity Hin%get_top_k_elem.
  destruct (Hscores doc similarity Hin)
    as (score & norm & (cur & Hcur & ->) & Hnorm & Hden & ->).
  assert (0 <= py_sum (snd <$> cur))%R as Hscore.
  { apply py_sum_nonneg, Forall_fmap.
    revert Hsel. generalize encoded_query. clear -Hcur Hweights.
    induction Hcur as [|L a Ls cur [Hin Ha] _ IH]; intros q Hsel;
      [constructor|].
    inversion Hsel as [|t ? q' ? Ht Hrest]; subst.
    constructor; [|by eapply IH].
    destruct a as [d w]. simpl. by eapply Hweights. }
  pose proof (sqrt_pos norm). pose proof (sqrt_pos (INR (length encoded_query))).
  apply Rmult_le_pos; [done|]. left. apply Rinv_0_lt_compat. nra.
Qed.

Lemma search_engine_2_nonnegative_witness :
  search_engine_2 4 (EncList [10; 11]%Z)
    (<[10%Z := [(1%Z, 2%R)]]> {[11%Z := [(1%Z, 0%R); (2%Z, 1%R)]]})
    (store_squared_tfidf_per_document
       (<[10%Z := [(1%Z, 2%R)]]> {[11%Z := [(1%Z, 0%R); (2%Z, 1%R)]]}))
    5 = Raise ZeroDivisionError
  ∨ ∃ result,
      search_engine_2 4 (EncList [10; 11]%Z)
        (<[10%Z := [(1%Z, 2%R)]]> {[11%Z := [(1%Z, 0%R); (2%Z, 1%R)]]})
        (store_squared_tfidf_per_document
           (<[10%Z := [(1%Z, 2%R)]]> {[11%Z := [(1%Z, 0%R); (2%Z, 1%R)]]}))
        5 = Done result
      ∧ ∀ doc similarity,
          (doc, similarity) ∈ result → (0 <= similarity)%R.
Proof.
  apply (search_engine_2_nonnegative [10; 11]%Z
           (<[10%Z := [(1%Z, 2%R)]]> {[11%Z := [(1%Z, 0%R); (2%Z, 1%R)]]})
           5 [[(1%Z, 2%R)]; [(1%Z, 0%R); (2%Z, 1%R)]] 4).
  - discriminate.
  - repeat constructor.
  - simpl. lia.
  - intros term postings d w Hterm Hin.
    apply lookup_insert_Some in Hterm as [[_ <-]|[_ Hterm]].
    + apply list_elem_of_singleton in Hin as [= _ ->]. lra.
    + apply lookup_singleton_Some in Hterm as [_ <-].
      apply elem_of_cons in Hin as [[= _ ->]|Hin]; [lra|].
      apply list_elem_of_singleton in Hin as [= _ ->]. lra.
Defined.

(** ** Smaller and larger [k] *)

(** X12. The result of [get_top_k] for a smaller [k] is the beginning of
    the result for a larger one, and it is empty for [k <= 0]. *)
Theorem get_top_k_prefix (dic : gmap Z R) (k k' : Z) :
  (k ≤ k')%Z →
  get_top_k dic k `prefix_of` get_top_k dic k'
  ∧ ((k ≤ 0)%Z → get_top_k dic k = []).
Proof.
  intros Hk. unfold get_top_k, top_k_of_items, nsmallest. split.
  - set (sorted := py_sorted tuple_le _).
    exists ((λ '(value, key), (key, (- value)%R))
              <$> drop (Z.to_nat k) (take (Z.to_nat k') sorted)).
    rewrite <- fmap_app. f_equal.
    rewrite <- (take_drop (Z.to_nat k) (take (Z.to_nat k') sorted)) at 1.
    f_equal. rewrite take_take. f_equal. lia.
  - intros Hneg. replace (Z.to_nat k) with 0 by lia. done.
Qed.

Lemma get_top_k_prefix_witness :
  get_top_k (<[1%Z := 2%R]> {[2%Z := 3%R]}) 1
    `prefix_of` get_top_k (<[1%Z := 2%R]> {[2%Z := 3%R]}) 2
  ∧ ((1 ≤ 0)%Z → get_top_k (<[1%Z := 2%R]> {[2%Z := 3%R]}) 1 = []).
Proof.
  apply (get_top_k_prefix (<[1%Z := 2%R]> {[2%Z := 3%R]}) 1 2). lia.
Defined.

(** ** [compute_cosine_similarity] at the edges *)

(** X13. Without candidates [compute_cosine_similarity] returns the empty
    dict, whatever the query and the norms. With an empty encoded query
    and a candidate, every candidate having a stored norm that is not
    negative, it raises [ZeroDivisionError]: the query length is 0. *)
Theorem cosine_edge_cases (encoded_query : list Z)
    (docs_scores squared_tfidf_per_document : gmap Z R) :
  compute_cosine_similarity encoded_query ∅ squared_tfidf_per_document
  = Done ∅
  ∧ (docs_scores ≠ ∅ →
     (∀ doc, doc ∈ dom docs_scores →
        ∃ norm, squared_tfidf_per_document !! doc = Some norm
                ∧ (0 <= norm)%R) →
     compute_cosine_similarity [] docs_scores squared_tfidf_per_document
     = Raise ZeroDivisionError).
Proof.
  split.
  - unfold compute_cosine_similarity, cosine_loop. by rewrite map_to_list_empty.
  - intros Hne Hnorms. unfold compute_cosine_similarity, cosine_loop.
    destruct (map_to_list docs_scores) as [|[doc score] items] eqn:Hitems.
    { by apply map_to_list_empty_iff in Hitems. }
    assert (docs_scores !! doc = Some score) as Hdoc.
    { apply elem_of_map_to_list. rewrite Hitems. apply list_elem_of_here. }
    destruct (Hnorms doc) as (norm & Hnorm & Hpos).
    { apply elem_of_dom. eauto. }
    cbn [for_each]. unfold cos_similarity, dict_getitem, math_sqrt.
    rewrite Hnorm. simpl.
    destruct (decide (norm < 0)%R); [lra|]. simpl.
    destruct (decide (0 < 0)%R); [lra|]. simpl.
    unfold py_truediv. rewrite sqrt_0, Rmult_0_r.
    destruct (decide (0 = 0)%R); done.
Qed.

Lemma cosine_edge_cases_witness :
  compute_cosine_similarity [7%Z] ∅ {[1%Z := 4%R]} = Done ∅
  ∧ compute_cosine_similarity [] {[1%Z := 3%R]} {[1%Z := 4%R]}
    = Raise ZeroDivisionError.
Proof.
  split.
  - apply (proj1 (cosine_edge_cases [7%Z] ∅ {[1%Z := 4%R]})).
  - apply (proj2 (cosine_edge_cases [] {[1%Z := 3%R]} {[1%Z := 4%R]})).
    + intros Hempty. apply (f_equal (λ m : gmap Z R, m !! 1%Z)) in Hempty.
      rewrite lookup_singleton_eq, lookup_empty in Hempty. discriminate.
    + intros doc Hdoc. exists 4%R.
      rewrite dom_singleton_L in Hdoc. apply elem_of_singleton in Hdoc.
      subst doc. split; [reflexivity|lra].
Defined.

(** ** [search_engine_2] as a whole *)

Lemma top_k_keys_NoDup (dic : gmap Z R) (k : Z) :
  NoDup (get_top_k dic k).*1.
Proof.
  unfold get_top_k.
  destruct (top_k_of_items_split (map_to_list dic) k) as (rest & Hperm & _).
  pose proof (NoDup_fst_map_to_list dic) as Hnd.
  rewrite Hperm, fmap_app in Hnd. by apply NoDup_app in Hnd as [? _].
Qed.

(** X14. On ascending weighted lists selected by a non-empty encoded
    query, with a positive stored norm for every common document,
    [search_engine_2] returns at most [k] pairs, in descending order of
    similarity and without a repeated document; each document is common
    to all lists and its similarity is its accumulated score over
    [sqrt norm * sqrt len(query)]; and when fewer than [k] pairs come
    back, every common document is among them. *)
Theorem search_engine_2_result (encoded_query : list Z)
    (inverted_idx2 : gmap Z (list (Z * R)))
    (squared_tfidf_per_document : gmap Z R) (k : Z)
    (Ls : list (list (Z * R))) (fuel : nat) :
  encoded_query ≠ [] →
  Forall2 (λ token L, inverted_idx2 !! token = Some L) encoded_query Ls →
  Forall (ascending fst) Ls →
  sum_list (length <$> Ls) < fuel →
  (∀ doc, common fst Ls doc →
     ∃ norm, squared_tfidf_per_document !! doc = Some norm ∧ (0 < norm)%R) →
  ∃ result,
    search_engine_2 fuel (EncList encoded_query) inverted_idx2
      squared_tfidf_per_document k = Done result
    ∧ length result ≤ Z.to_nat k
    ∧ StronglySorted (λ a b, (b.2 <= a.2)%R) result
    ∧ NoDup result.*1
    ∧ (∀ doc similarity,
         (doc, similarity) ∈ result →
         common fst Ls doc
         ∧ ∃ score norm,
             accumulated Ls doc score
             ∧ squared_tfidf_per_document !! doc = Some norm
             ∧ similarity
               = (score / (sqrt norm * sqrt (INR (length encoded_query))))%R)
    ∧ (length result < Z.to_nat k →
       ∀ doc, common fst Ls doc → doc ∈ result.*1).
Proof.
  intros Hq Hsel Hasc Hfuel Hnorms.
  destruct (search_engine_2_ranked encoded_query inverted_idx2
              squared_tfidf_per_document k Ls fuel Hq Hsel Hasc Hfuel Hnorms)
    as (all_scores & Hrun & Hdom & Hsims).
  exists (get_top_k all_scores k). split; [done|].
  destruct (top_k_of_items_split (map_to_list all_scores) k)
    as (rest & Hperm & Hlen & _).
  fold (get_top_k all_scores k) in Hperm, Hlen. split_and!.
  - lia.
  - apply top_k_of_items_descending.
  - apply top_k_keys_NoDup.
  - intros doc similarity Hin%get_top_k_elem. split.
    + apply Hdom, elem_of_dom. eauto.
    + destruct (Hnorms doc) as (norm & Hnorm & _).
      { apply Hdom, elem_of_dom. eauto. }
      destruct (Hsims doc similarity norm Hin Hnorm) as (score & ? & ?).
      by exists score, norm.
  - intros Hshort doc [similarity Hdoc]%Hdom%elem_of_dom.
    apply Permutation_length in Hperm as Hlens.
    rewrite length_app in Hlens.
    assert (length rest = 0) as Hrest by lia.
    apply nil_length_inv in Hrest. subst rest. rewrite app_nil_r in Hperm.
    apply list_elem_of_fmap. exists (doc, similarity). split; [done|].
    rewrite <- Hperm. by apply elem_of_map_to_list.
Qed.

Lemma search_engine_2_result_witness :
  ∃ result,
    search_engine_2 3 (EncList [10%Z]) {[10%Z := [(1%Z, 2%R); (2%Z, 1%R)]]}
      (<[1%Z := 4%R]> {[2%Z := 1%R]}) 5 = Done result
    ∧ length result ≤ Z.to_nat 5
    ∧ StronglySorted (λ a b, (b.2 <= a.2)%R) result
    ∧ NoDup result.*1
    ∧ (∀ doc similarity,
         (doc, similarity) ∈ result →
         common fst [[(1%Z, 2%R); (2%Z, 1%R)]] doc
         ∧ ∃ score norm,
             accumulated [[(1%Z, 2%R); (2%Z, 1%R)]] doc score
             ∧ (<[1%Z := 4%R]> {[2%Z := 1%R]} : gmap Z R) !! doc = Some norm
             ∧ similarity
               = (score / (sqrt norm * sqrt (INR (length [10%Z]))))%R)
    ∧ (length result < Z.to_nat 5 →
       ∀ doc, common fst [[(1%Z, 2%R); (2%Z, 1%R)]] doc → doc ∈ result.*1).
Proof.
  apply (search_engine_2_result [10%Z]
           {[10%Z := [(1%Z, 2%R); (2%Z, 1%R)]]}
           (<[1%Z := 4%R]> {[2%Z := 1%R]}) 5
           [[(1%Z, 2%R); (2%Z, 1%R)]] 3).
  - discriminate.
  - repeat constructor.
  - repeat constructor.
  - simpl. lia.
  - intros doc Hdoc. unfold common in Hdoc.
    inversion Hdoc as [|? ? Hin _]; subst.
    apply list_elem_of_In in Hin. simpl in Hin.
    destruct Hin as [<-|[<-|[]]].
    + exists 4%R. split; [reflexivity|lra].
    + exists 1%R. split; [reflexivity|lra].
Defined.

(** ** The best of the best *)

Lemma py_sorted_sorted {A} (le : relation A) `{!RelDecision le}
    `{!Total le, !Transitive le, !AntiSymm (=) le} (l : list A) :
  StronglySorted le l → py_sorted le l = l.
Proof.
  intros Hl. apply (StronglySorted_unique le); [|done|].
  - by apply py_sorted_StronglySorted.
  - apply py_sorted_Permutation.
Qed.

Lemma top_k_of_items_perm (items items' : list (Z * R)) (k : Z) :
  items ≡ₚ items' → top_k_of_items items k = top_k_of_items items' k.
Proof.
  intros Hperm. unfold top_k_of_items, nsmallest. do 2 f_equal.
  apply py_sorted_order_irrelevant; try apply _. by rewrite Hperm.
Qed.

Lemma tuple_swap_forth (heap : list (R * Z)) :
  (λ '(key, value), ((- value)%R, key))
    <$> ((λ '(value, key), (key, (- value)%R)) <$> heap) = heap.
Proof.
  rewrite <- list_fmap_compose. rewrite <- (list_fmap_id heap) at 2.
  apply list_fmap_ext. intros _ [value key] _. simpl. f_equal. lra.
Qed.

(** The [k] best of the [k'] best are the [k] best. *)
Lemma top_k_of_top_k (items : list (Z * R)) (k k' : Z) :
  (k ≤ k')%Z →
  top_k_of_items (top_k_of_items items k') k = top_k_of_items items k.
Proof.
  intros Hk. unfold top_k_of_items, nsmallest. cbv zeta.
  rewrite tuple_swap_forth. f_equal.
  rewrite (py_sorted_sorted tuple_le (take _ _)).
  - rewrite take_take. f_equal. lia.
  - apply StronglySorted_take, py_sorted_StronglySorted; apply _.
Qed.

Lemma get_top_k_empty (k : Z) : get_top_k ∅ k = [].
Proof.
  unfold get_top_k, top_k_of_items, nsmallest.
  rewrite map_to_list_empty. simpl. by rewrite take_nil.
Qed.

(** [search_engine_2] computes the similarities first and looks at [k]
    last. *)
Lemma search_engine_2_scores (fuel : nat) (encoded_query : encoded)
    (inverted_idx2 : gmap Z (list (Z * R)))
    (squared_tfidf_per_document : gmap Z R) :
  ∃ all_scores : py (gmap Z R),
    ∀ k, search_engine_2 fuel encoded_query inverted_idx2
           squared_tfidf_per_document k
         = a ← all_scores; mret (get_top_k a k).
Proof.
  unfold search_engine_2. destruct (py_not encoded_query).
  - exists (Done ∅). intros k. simpl. by rewrite get_top_k_empty.
  - exists (selected_lists ←
              mapM (dict_getitem inverted_idx2) (codes_of encoded_query);
            docs_scores ← merge fst add_score fuel selected_lists ∅;
            compute_cosine_similarity (codes_of encoded_query) docs_scores
              squared_tfidf_per_document).
    intros k. destruct (mapM _ _) as [selected_lists| |]; simpl; [|done..].
    destruct (merge _ _ _ _ _) as [docs_scores| |]; simpl; [|done..].
    by destruct (compute_cosine_similarity _ _ _).
Qed.

Lemma for_each_store_steps {V W} (f : Z → V → py W) (items : list (Z * V))
    (acc m : gmap Z W) :
  for_each (λ '(k, v) m, w ← f k v; mret (<[k := w]> m)) items acc = Done m →
  ∀ k v, (k, v) ∈ items → ∃ w, f k v = Done w.
Proof.
  revert acc. induction items as [|[k0 v0] items IH]; intros acc Hrun k v Hin;
    [by apply elem_of_nil in Hin|].
  cbn [for_each] in Hrun.
  apply py_bind_Done in Hrun as (acc1 & Hstep & Hrun).
  apply py_bind_Done in Hstep as (w0 & Hw0 & _).
  apply elem_of_cons in Hin as [[= -> ->]|Hin]; [by eauto|].
  by eapply IH.
Qed.

(** The dict that the loop of [search_engine_3] fills. *)
Lemma final_score_items {V W} (f : Z → V → py W) (items : list (Z * V))
    (m : gmap Z W) :
  NoDup items.*1 →
  for_each (λ '(k, v) m, w ← f k v; mret (<[k := w]> m)) items ∅ = Done m →
  (map_to_list m).*1 ≡ₚ items.*1
  ∧ ∀ k w, m !! k = Some w ↔ ∃ v, (k, v) ∈ items ∧ f k v = Done w.
Proof.
  intros Hnd Hrun.
  destruct (for_each_store f items ∅ Hnd (for_each_store_steps _ _ _ _ Hrun))
    as (m' & Hrun' & Hin' & _).
  assert (m' = m) as -> by congruence.
  assert (∀ k w, m !! k = Some w ↔ ∃ v, (k, v) ∈ items ∧ f k v = Done w)
    as Hm.
  { intros k w. split.
    - intros Hk. destruct (for_each_store_inv f items ∅ m Hrun k w Hk)
        as [Hempty|?]; [|done]. by rewrite lookup_empty in Hempty.
    - intros (v & Hin & Hv).
      destruct (Hin' k v Hin) as (w' & Hw' & Hk). congruence. }
  split; [|done].
  apply NoDup_Permutation; [apply NoDup_fst_map_to_list|done|].
  intros k. rewrite !list_elem_of_fmap. split.
  - intros ([k' w] & -> & Hk%elem_of_map_to_list).
    apply Hm in Hk as (v & Hin & _). by exists (k', v).
  - intros ([k' v] & -> & Hin). simpl.
    destruct (Hin' k' v Hin) as (w & _ & Hk).
    exists (k', w). split; [done|]. by apply elem_of_map_to_list.
Qed.

(** ** Criteria that do not match, and criteria that cannot be tested *)

Lemma for_each_raises {A S} (P : exception → Prop) (body : A → S → py S)
    (l : list A) (s : S) :
  (∀ x s', x ∈ l →
     (∃ s'', body x s' = Done s'') ∨ ∃ e, P e ∧ body x s' = Raise e) →
  (∃ x, x ∈ l ∧ ∀ s', ∃ e, body x s' = Raise e) →
  ∃ e, P e ∧ for_each body l s = Raise e.
Proof.
  revert s. induction l as [|x l IH]; intros s Hsteps (y & Hin & Hy).
  - by apply elem_of_nil in Hin.
  - cbn [for_each].
    destruct (Hsteps x s) as [[s' Hs']|(e & He & Hs')];
      [apply list_elem_of_here| |].
    + rewrite Hs'. simpl.
      apply elem_of_cons in Hin as [->|Hin].
      { destruct (Hy s) as [e He]. congruence. }
      apply IH; [|by eauto].
      intros z s'' Hz. apply Hsteps. by apply list_elem_of_further.
    + exists e. by rewrite Hs'.
Qed.

Section criteria_facts.
Context {Field : Type}.
Variable preprocess_text : string → Field.
Variable py_in : string → Field → bool.
Variable article_fields : Z → py (list string).

Lemma boost_hit (all_fields : list Field) (item : list string)
    (total_score : R) (found : bool) :
  criterion_hit py_in all_fields item = Some found →
  boost py_in all_fields item total_score
  = Done (if found then total_score * (3 / 2) else total_score)%R.
Proof.
  unfold criterion_hit, boost, getitem, dict_getitem.
  destruct (item !! 1) as [needle|]; [|done]. simpl.
  destruct (item !! 0) as [name|]; [|done]. simpl.
  destruct (field_to_idx !! name) as [pos|]; [|done]. simpl.
  destruct (all_fields !! pos) as [field|]; [|done]. simpl.
  intros [= <-]. destruct (py_in needle field); simpl; f_equal. lra.
Qed.

Lemma boost_malformed (all_fields : list Field) (item : list string)
    (total_score : R) :
  criterion_hit py_in all_fields item = None →
  boost py_in all_fields item total_score
  = Raise (if known_field item then IndexError else
             match item with [_] | [] => IndexError | _ => KeyError end).
Proof.
  unfold criterion_hit, boost, getitem, dict_getitem, known_field.
  destruct item as [|name [|needle item]]; [done| |].
  - simpl. by destruct (bool_decide _).
  - simpl. destruct (field_to_idx !! name) as [pos|] eqn:Hpos; simpl.
    + by destruct (all_fields !! pos).
    + done.
Qed.

Lemma boosts_hits (all_fields : list Field)
    (additional_info : list (list string)) (score : R) :
  Forall (λ item, is_Some (criterion_hit py_in all_fields item))
    additional_info →
  for_each (boost py_in all_fields) additional_info score
  = Done (score * (3 / 2) ^ hits py_in all_fields additional_info)%R.
Proof.
  intros Hall. revert score. unfold hits.
  induction Hall as [|item additional_info [found Hitem] _ IH]; intros score.
  - simpl. f_equal. lra.
  - cbn [for_each]. rewrite (boost_hit _ _ _ _ Hitem). simpl. rewrite IH.
    f_equal. destruct found.
    + rewrite filter_cons_True by done. simpl. lra.
    + rewrite filter_cons_False by congruence. done.
Qed.

(** X15. For a document whose fields can be read and criteria that can all
    be tested on it (two pieces at least, a known field name, a field the
    document has), the refined score is the cosine score times 1.5 to the
    number of criteria that are found: a criterion that is not found
    leaves the score as it is, and the order of the criteria does not
    matter. *)
Theorem refined_score_hits (additional_info : list (list string))
    (doc : Z) (raw_fields : list string) (s : R) :
  article_fields doc = Done raw_fields →
  Forall (λ item,
            is_Some (criterion_hit py_in (preprocess_text <$> raw_fields)
                       item)) additional_info →
  refined_score preprocess_text py_in article_fields additional_info doc s
  = Done (s * (3 / 2)
              ^ hits py_in (preprocess_text <$> raw_fields) additional_info)%R
  ∧ (hits py_in (preprocess_text <$> raw_fields) additional_info = 0 →
     refined_score preprocess_text py_in article_fields additional_info doc s
     = Done s)
  ∧ ∀ additional_info',
      additional_info ≡ₚ additional_info' →
      refined_score preprocess_text py_in article_fields additional_info'
        doc s
      = refined_score preprocess_text py_in article_fields additional_info
          doc s.
Proof.
  intros Hfields Hall. unfold refined_score. rewrite Hfields. simpl.
  split_and!.
  - by apply boosts_hits.
  - intros Hnone. rewrite boosts_hits, Hnone by done. f_equal. simpl. lra.
  - intros additional_info' Hperm.
    rewrite !boosts_hits by (by rewrite <- ?Hperm). unfold hits.
    by rewrite Hperm.
Qed.

Lemma refined_score_fault (additional_info : list (list string))
    (doc : Z) (raw_fields : list string) (s : R) (item : list string) :
  article_fields doc = Done raw_fields →
  item ∈ additional_info →
  criterion_hit py_in (preprocess_text <$> raw_fields) item = None →
  (refined_score preprocess_text py_in article_fields additional_info doc s
   = Raise IndexError
   ∨ refined_score preprocess_text py_in article_fields additional_info doc s
     = Raise KeyError)
  ∧ (Forall (λ item, known_field item = true) additional_info →
     refined_score preprocess_text py_in article_fields additional_info doc s
     = Raise IndexError).
Proof.
  intros Hfields Hin Hitem. unfold refined_score. rewrite Hfields. simpl.
  set (all_fields := preprocess_text <$> raw_fields) in *.
  assert (∀ item' total_score,
            (∃ total_score',
               boost py_in all_fields item' total_score = Done total_score')
            ∨ boost py_in all_fields item' total_score
              = Raise (if known_field item' then IndexError else
                         match item' with
                         | [_] | [] => IndexError
                         | _ => KeyError
                         end)) as Hstep.
  { intros item' total_score.
    destruct (criterion_hit py_in all_fields item') as [found|] eqn:Hhit.
    - left. rewrite (boost_hit _ _ _ _ Hhit). eauto.
    - right. by apply boost_malformed. }
  split.
  - destruct (for_each_raises (λ e, e = IndexError ∨ e = KeyError)
                (boost py_in all_fields) additional_info s)
      as (e & [->| ->] & Hrun); [| |by left|by right].
    + intros item' total_score _.
      destruct (Hstep item' total_score) as [?|Hraise]; [by left|right].
      eexists. split; [|exact Hraise].
      destruct (known_field item'); [by left|].
      destruct item' as [|? [|? ?]]; auto.
    + exists item. split; [done|]. intros total_score.
      rewrite (boost_malformed _ _ _ Hitem). eauto.
  - intros Hknown. rewrite Forall_forall in Hknown.
    destruct (for_each_raises (λ e, e = IndexError)
                (boost py_in all_fields) additional_info s)
      as (e & -> & Hrun); [| |done].
    + intros item' total_score Hin'.
      destruct (Hstep item' total_score) as [?|Hraise]; [by left|right].
      exists IndexError. split; [done|].
      by rewrite Hraise, (Hknown item' Hin').
    + exists item. split; [done|]. intros total_score.
      rewrite (boost_malformed _ _ _ Hitem). eauto.
Qed.

(** X16. A criterion that cannot be tested on a document stops the scoring
    of that document with an exception, wherever it stands among the
    criteria: [IndexError] or [KeyError], and [IndexError] when every
    criterion names a known field. *)
Theorem refined_score_malformed (additional_info : list (list string))
    (doc : Z) (raw_fields : list string) (s : R) (item : list string) :
  article_fields doc = Done raw_fields →
  item ∈ additional_info →
  criterion_hit py_in (preprocess_text <$> raw_fields) item = None →
  (refined_score preprocess_text py_in article_fields additional_info doc s
   = Raise IndexError
   ∨ refined_score preprocess_text py_in article_fields additional_info doc s
     = Raise KeyError)
  ∧ (Forall (λ item, known_field item = true) additional_info →
     refined_score preprocess_text py_in article_fields additional_info doc s
     = Raise IndexError).
Proof. apply refined_score_fault. Qed.
End criteria_facts.

Lemma refined_score_hits_witness :
  refined_score (λ text, text) String.eqb
    (λ _, Done ["dune"; "dune saga"; "frank herbert"])
    [["booktitle"; "dune"]; ["bookauthors"; "brian herbert"]] 7 1
  = Done (1 * (3 / 2)
              ^ hits String.eqb
                  ((λ text, text) <$> ["dune"; "dune saga"; "frank herbert"])
                  [["booktitle"; "dune"]; ["bookauthors"; "brian herbert"]])%R
  ∧ (hits String.eqb
       ((λ text, text) <$> ["dune"; "dune saga"; "frank herbert"])
       [["booktitle"; "dune"]; ["bookauthors"; "brian herbert"]] = 0 →
     refined_score (λ text, text) String.eqb
       (λ _, Done ["dune"; "dune saga"; "frank herbert"])
       [["booktitle"; "dune"]; ["bookauthors"; "brian herbert"]] 7 1
     = Done 1%R)
  ∧ ∀ additional_info',
      [["booktitle"; "dune"]; ["bookauthors"; "brian herbert"]]
      ≡ₚ additional_info' →
      refined_score (λ text, text) String.eqb
        (λ _, Done ["dune"; "dune saga"; "frank herbert"])
        additional_info' 7 1
      = refined_score (λ text, text) String.eqb
          (λ _, Done ["dune"; "dune saga"; "frank herbert"])
          [["booktitle"; "dune"]; ["bookauthors"; "brian herbert"]] 7 1.
Proof.
  apply (refined_score_hits (λ text, text) String.eqb
           (λ _, Done ["dune"; "dune saga"; "frank herbert"])
           [["booktitle"; "dune"]; ["bookauthors"; "brian herbert"]] 7
           ["dune"; "dune saga"; "frank herbert"] 1%R).
  - reflexivity.
  - repeat constructor.
    + exists true. reflexivity.
    + exists false. reflexivity.
Defined.

Lemma refined_score_malformed_witness :
  (refined_score (λ text, text) String.eqb
     (λ _, Done ["dune"; "dune saga"; "frank herbert"])
     [["booktitle"; "dune"]; ["setting"]] 7 1
   = Raise IndexError
   ∨ refined_score (λ text, text) String.eqb
       (λ _, Done ["dune"; "dune saga"; "frank herbert"])
       [["booktitle"; "dune"]; ["setting"]] 7 1
     = Raise KeyError)
  ∧ (Forall (λ item, known_field item = true)
       [["booktitle"; "dune"]; ["setting"]] →
     refined_score (λ text, text) String.eqb
       (λ _, Done ["dune"; "dune saga"; "frank herbert"])
       [["booktitle"; "dune"]; ["setting"]] 7 1
     = Raise IndexError).
Proof.
  apply (refined_score_malformed (λ text, text) String.eqb
           (λ _, Done ["dune"; "dune saga"; "frank herbert"])
           [["booktitle"; "dune"]; ["setting"]] 7
           ["dune"; "dune saga"; "frank herbert"] 1%R ["setting"]).
  - reflexivity.
  - apply list_elem_of_further, list_elem_of_here.
  - reflexivity.
Defined.

(** ** [search_engine_3] on top of [search_engine_2] *)

Lemma one_candidate_search :
  search_engine_2 2 (EncList [10%Z]) {[10%Z := [(1%Z, 0%R)]]}
    {[1%Z := 1%R]} 10
  = Done [(1%Z, 0%R)].
Proof.
  unfold search_engine_2. cbn [py_not codes_of mapM].
  unfold dict_getitem at 1. rewrite lookup_singleton_eq.
  cbn [mbind py_bind mret py_ret]. rewrite one_document_scores.
  cbn [mbind py_bind].
  unfold compute_cosine_similarity, cosine_loop. rewrite map_to_list_singleton.
  cbn [for_each]. unfold cos_similarity, dict_getitem.
  rewrite lookup_singleton_eq. simpl. unfold math_sqrt, py_truediv.
  destruct (decide (1 < 0)%R); [lra|]. simpl.
  rewrite sqrt_1.
  destruct (decide (1 * 1 = 0)%R); [lra|]. simpl.
  rewrite insert_empty. unfold get_top_k. rewrite map_to_list_singleton.
  unfold top_k_of_items, nsmallest. change (Z.to_nat 10) with 10.
  cbn [fmap list_fmap py_sorted foldr insert_sorted take mret py_ret].
  do 3 f_equal. lra.
Qed.

(** The best of items that are listed best first. *)
Lemma top_k_of_items_sorted (items items' : list (Z * R)) (k : Z) :
  items ≡ₚ items' →
  StronglySorted tuple_le ((λ '(key, value), ((- value)%R, key)) <$> items') →
  top_k_of_items items k = take (Z.to_nat k) items'.
Proof.
  intros Hperm Hsorted. rewrite (top_k_of_items_perm _ _ _ Hperm).
  unfold top_k_of_items, nsmallest. cbv zeta.
  rewrite (py_sorted_sorted tuple_le _ Hsorted), <- fmap_take.
  apply tuple_swap_back.
Qed.

Lemma ascending_unique {V} (L : list (Z * V)) (doc : Z) (v v' : V) :
  ascending fst L → (doc, v) ∈ L → (doc, v') ∈ L → v = v'.
Proof.
  unfold ascending. induction 1 as [|a L _ IH Ha]; intros Hv Hv';
    [by apply elem_of_nil in Hv|].
  rewrite Forall_forall in Ha.
  apply elem_of_cons in Hv as [Hv|Hv]; apply elem_of_cons in Hv' as [Hv'|Hv'].
  - congruence.
  - subst a. specialize (Ha _ Hv'). simpl in Ha. lia.
  - subst a. specialize (Ha _ Hv). simpl in Ha. lia.
  - by apply IH.
Qed.

Lemma ascending_NoDup {V} (L : list (Z * V)) : ascending fst L → NoDup L.
Proof.
  unfold ascending. induction 1 as [|a L _ IH Ha]; [constructor|].
  apply NoDup_cons. split; [|done].
  intros Hin. rewrite Forall_forall in Ha. specialize (Ha a Hin). lia.
Qed.

(** A query of one term against norms that are all 1: the similarities
    are the weights of the list of the term. *)
Lemma single_list_search (token : Z) (L : list (Z * R))
    (inverted_idx2 : gmap Z (list (Z * R)))
    (squared_tfidf_per_document : gmap Z R) (k : Z) (fuel : nat) :
  inverted_idx2 !! token = Some L →
  ascending fst L →
  (∀ doc weight, (doc, weight) ∈ L →
                 squared_tfidf_per_document !! doc = Some 1%R) →
  length L < fuel →
  search_engine_2 fuel (EncList [token]) inverted_idx2
    squared_tfidf_per_document k
  = Done (top_k_of_items L k).
Proof.
  intros Htoken Hasc Hnorms Hfuel.
  assert (∀ doc, common fst [L] doc → ∃ weight, (doc, weight) ∈ L) as Hin.
  { intros doc [([doc' weight] & -> & ?)%list_elem_of_fmap _]%Forall_cons.
    eauto. }
  destruct (search_engine_2_ranked [token] inverted_idx2
              squared_tfidf_per_document k [L] fuel)
    as (all_scores & Hrun & Hdom & Hsims).
  { discriminate. }
  { by repeat constructor. }
  { by repeat constructor. }
  { simpl. lia. }
  { intros doc [weight Hdoc]%Hin. exists 1%R. split; [by eauto|lra]. }
  rewrite Hrun. f_equal. unfold get_top_k. apply top_k_of_items_perm.
  assert (∀ doc similarity,
            all_scores !! doc = Some similarity → (doc, similarity) ∈ L)
    as Hfrom.
  { intros doc similarity Hdoc.
    assert (common fst [L] doc) as Hcommon.
    { apply Hdom, elem_of_dom. eauto. }
    destruct (Hin doc Hcommon) as [weight Hweight].
    destruct (Hsims doc similarity 1%R Hdoc (Hnorms _ _ Hweight))
      as (score & (cur & Hcur & ->) & ->).
    inversion Hcur as [|? [doc' weight'] ? ? [Ha Hdoc'] Hnil]; subst.
    inversion Hnil; subst. simpl in *.
    replace (py_sum [weight'] / (sqrt 1 * sqrt 1))%R with weight'; [done|].
    unfold py_sum. simpl. rewrite sqrt_1. field. }
  apply NoDup_Permutation.
  - apply NoDup_map_to_list.
  - by apply ascending_NoDup.
  - intros [doc similarity]. rewrite elem_of_map_to_list. split; [apply Hfrom|].
    intros Hdoc.
    assert (doc ∈ dom all_scores) as [similarity' Hsim]%elem_of_dom.
    { apply Hdom. constructor; [|constructor].
      apply list_elem_of_fmap. by exists (doc, similarity). }
    rewrite Hsim. f_equal.
    apply (ascending_unique L doc); [done| |done]. by apply Hfrom.
Qed.

(** Four candidates, with the similarities 4, 3, 2 and 1. *)
Lemma four_candidates_search :
  search_engine_2 5 (EncList [10%Z])
    {[10%Z := [(1%Z, 1%R); (2%Z, 2%R); (3%Z, 3%R); (4%Z, 4%R)]]}
    (<[1%Z := 1%R]> (<[2%Z := 1%R]> (<[3%Z := 1%R]> {[4%Z := 1%R]}))) 10
  = Done [(4%Z, 4%R); (3%Z, 3%R); (2%Z, 2%R); (1%Z, 1%R)].
Proof.
  rewrite (single_list_search 10
             [(1%Z, 1%R); (2%Z, 2%R); (3%Z, 3%R); (4%Z, 4%R)]).
  - f_equal.
    rewrite (top_k_of_items_sorted _
               [(4%Z, 4%R); (3%Z, 3%R); (2%Z, 2%R); (1%Z, 1%R)]).
    + done.
    + apply Permutation_rev.
    + cbn [fmap list_fmap].
      repeat (apply SSorted_cons;
              [|repeat (apply Forall_cons_2; [left; simpl; lra|]);
                apply Forall_nil_2]).
      apply SSorted_nil.
  - apply lookup_singleton_eq.
  - unfold ascending. repeat constructor; simpl; lia.
  - intros doc weight Hin. apply list_elem_of_In in Hin. simpl in Hin.
    destruct Hin as [[= <- _]|[[= <- _]|[[= <- _]|[[= <- _]|[]]]]].
    + apply lookup_insert_eq.
    + rewrite lookup_insert_ne by done. apply lookup_insert_eq.
    + rewrite !lookup_insert_ne by done. apply lookup_insert_eq.
    + rewrite !lookup_insert_ne by done. apply lookup_singleton_eq.
  - simpl. lia.
Qed.

Lemma search_engine_2_top (fuel : nat) (encoded_query : encoded)
    (inverted_idx2 : gmap Z (list (Z * R)))
    (squared_tfidf_per_document : gmap Z R) (k : Z)
    (plot_result : list (Z * R)) :
  search_engine_2 fuel encoded_query inverted_idx2
    squared_tfidf_per_document k = Done plot_result →
  ∃ all_scores,
    plot_result = get_top_k all_scores k
    ∧ ∀ k', search_engine_2 fuel encoded_query inverted_idx2
              squared_tfidf_per_document k'
            = Done (get_top_k all_scores k').
Proof.
  destruct (search_engine_2_scores fuel encoded_query inverted_idx2
              squared_tfidf_per_document) as (all_scores & Hscores).
  rewrite Hscores. intros (a & Ha & [= <-])%py_bind_Done.
  exists a. split; [done|]. intros k'. by rewrite Hscores, Ha.
Qed.

Section refinement_more.
Context {Field : Type}.
Variable preprocess_text : string → Field.
Variable py_in : string → Field → bool.
Variable article_fields : Z → py (list string).

(** X17. Without criteria, and with the article files of the ten best
    documents readable, [search_engine_3] returns what [search_engine_2]
    returns for [k = 3]: the three best of the ten best are the three
    best. *)
Theorem search_engine_3_no_criteria (fuel : nat) (encoded_query : encoded)
    (inverted_idx2 : gmap Z (list (Z * R)))
    (squared_tfidf_per_document : gmap Z R)
    (plot_result : list (Z * R)) :
  search_engine_2 fuel encoded_query inverted_idx2
    squared_tfidf_per_document 10 = Done plot_result →
  (∀ doc score, (doc, score) ∈ plot_result →
     ∃ raw_fields, article_fields doc = Done raw_fields) →
  search_engine_3 preprocess_text py_in article_fields fuel encoded_query
    inverted_idx2 squared_tfidf_per_document []
  = search_engine_2 fuel encoded_query inverted_idx2
      squared_tfidf_per_document 3.
Proof.
  intros Hplot Hfiles. unfold search_engine_3. rewrite Hplot. simpl.
  apply search_engine_2_top in Hplot as (all_scores & -> & Hscores).
  rewrite Hscores.
  pose proof (top_k_keys_NoDup all_scores 10) as Hnd.
  assert (∀ doc score, (doc, score) ∈ get_top_k all_scores 10 →
            refined_score preprocess_text py_in article_fields [] doc score
            = Done score) as Hsame.
  { intros doc score Hin. unfold refined_score.
    destruct (Hfiles doc score Hin) as [raw_fields ->]. done. }
  destruct (for_each_store
              (refined_score preprocess_text py_in article_fields [])
              (get_top_k all_scores 10) ∅ Hnd)
    as (final_score & Hrun & _); [by eauto|].
  rewrite Hrun. simpl. f_equal.
  apply final_score_items in Hrun as [_ Hfinal]; [|done].
  unfold get_top_k at 1.
  rewrite (top_k_of_items_perm _ (get_top_k all_scores 10)).
  - unfold get_top_k. by apply top_k_of_top_k.
  - apply NoDup_Permutation.
    + apply NoDup_map_to_list.
    + by apply NoDup_fmap_1 in Hnd.
    + intros [doc score]. rewrite elem_of_map_to_list, Hfinal. split.
      * intros (score' & Hin & Hscore).
        rewrite (Hsame _ _ Hin) in Hscore. by injection Hscore as <-.
      * intros Hin. exists score. split; [done|]. by apply Hsame.
Qed.

(** X18. When [search_engine_2] returns its ten best and each of them can
    be scored, [search_engine_3] returns three pairs, or as many as there
    are candidates: without a repeated document, in descending order of
    refined score, each a candidate with its refined score, and no
    candidate left out has a larger refined score than one returned. *)
Theorem search_engine_3_result (fuel : nat) (encoded_query : encoded)
    (inverted_idx2 : gmap Z (list (Z * R)))
    (squared_tfidf_per_document : gmap Z R)
    (additional_info : list (list string)) (plot_result : list (Z * R)) :
  search_engine_2 fuel encoded_query inverted_idx2
    squared_tfidf_per_document 10 = Done plot_result →
  (∀ doc score, (doc, score) ∈ plot_result →
     ∃ total_score,
       refined_score preprocess_text py_in article_fields additional_info
         doc score = Done total_score) →
  ∃ result,
    search_engine_3 preprocess_text py_in article_fields fuel encoded_query
      inverted_idx2 squared_tfidf_per_document additional_info = Done result
    ∧ length result = 3 `min` length plot_result
    ∧ StronglySorted (λ a b, (b.2 <= a.2)%R) result
    ∧ NoDup result.*1
    ∧ (∀ doc total_score,
         (doc, total_score) ∈ result →
         ∃ score,
           (doc, score) ∈ plot_result
           ∧ refined_score preprocess_text py_in article_fields
               additional_info doc score = Done total_score)
    ∧ (∀ doc score total_score,
         (doc, score) ∈ plot_result →
         refined_score preprocess_text py_in article_fields additional_info
           doc score = Done total_score →
         (doc, total_score) ∈ result
         ∨ ∀ entry, entry ∈ result → (total_score <= entry.2)%R).
Proof.
  intros Hplot Hscored. unfold search_engine_3. rewrite Hplot. simpl.
  apply search_engine_2_top in Hplot as (all_scores & -> & _).
  pose proof (top_k_keys_NoDup all_scores 10) as Hnd.
  destruct (for_each_store
              (refined_score preprocess_text py_in article_fields
                 additional_info)
              (get_top_k all_scores 10) ∅ Hnd Hscored)
    as (final_score & Hrun & _).
  rewrite Hrun. simpl. exists (get_top_k final_score 3). split; [done|].
  apply final_score_items in Hrun as [Hkeys Hfinal]; [|done].
  destruct (top_k_of_items_split (map_to_list final_score) 3)
    as (rest & Hperm & Hlen & Hrest).
  fold (get_top_k final_score 3) in Hperm, Hlen, Hrest. split_and!.
  - rewrite Hlen. change (Z.to_nat 3) with 3.
    rewrite <- (length_fmap fst (map_to_list final_score)), Hkeys.
    by rewrite length_fmap.
  - apply top_k_of_items_descending.
  - apply top_k_keys_NoDup.
  - intros doc total_score Hin%get_top_k_elem. by apply Hfinal.
  - intros doc score total_score Hin Hscore.
    assert ((doc, total_score) ∈ map_to_list final_score) as Hentry.
    { apply elem_of_map_to_list, Hfinal. eauto. }
    rewrite Hperm in Hentry. apply elem_of_app in Hentry as [?|Hleft];
      [by left|right].
    intros entry Hentry. by apply (Hrest entry (doc, total_score)).
Qed.
End refinement_more.

Lemma search_engine_3_no_criteria_witness :
  search_engine_3 (λ text, text) String.eqb
    (λ _, Done ["dune"; "dune saga"; "frank herbert"]) 5 (EncList [10%Z])
    {[10%Z := [(1%Z, 1%R); (2%Z, 2%R); (3%Z, 3%R); (4%Z, 4%R)]]}
    (<[1%Z := 1%R]> (<[2%Z := 1%R]> (<[3%Z := 1%R]> {[4%Z := 1%R]}))) []
  = search_engine_2 5 (EncList [10%Z])
      {[10%Z := [(1%Z, 1%R); (2%Z, 2%R); (3%Z, 3%R); (4%Z, 4%R)]]}
      (<[1%Z := 1%R]> (<[2%Z := 1%R]> (<[3%Z := 1%R]> {[4%Z := 1%R]}))) 3.
Proof.
  apply (search_engine_3_no_criteria (λ text, text) String.eqb
           (λ _, Done ["dune"; "dune saga"; "frank herbert"]) 5
           (EncList [10%Z])
           {[10%Z := [(1%Z, 1%R); (2%Z, 2%R); (3%Z, 3%R); (4%Z, 4%R)]]}
           (<[1%Z := 1%R]> (<[2%Z := 1%R]> (<[3%Z := 1%R]> {[4%Z := 1%R]})))
           [(4%Z, 4%R); (3%Z, 3%R); (2%Z, 2%R); (1%Z, 1%R)]).
  - exact four_candidates_search.
  - intros doc score _. by eexists.
Defined.

Lemma search_engine_3_result_witness :
  ∃ result,
    search_engine_3 (λ text, text) String.eqb
      (λ doc, Done [if (doc <=? 2)%Z then "dune" else "emma"]) 5
      (EncList [10%Z])
      {[10%Z := [(1%Z, 1%R); (2%Z, 2%R); (3%Z, 3%R); (4%Z, 4%R)]]}
      (<[1%Z := 1%R]> (<[2%Z := 1%R]> (<[3%Z := 1%R]> {[4%Z := 1%R]})))
      [["booktitle"; "dune"]]
    = Done result
    ∧ length result
      = 3 `min` length [(4%Z, 4%R); (3%Z, 3%R); (2%Z, 2%R); (1%Z, 1%R)]
    ∧ StronglySorted (λ a b, (b.2 <= a.2)%R) result
    ∧ NoDup result.*1
    ∧ (∀ doc total_score,
         (doc, total_score) ∈ result →
         ∃ score,
           (doc, score) ∈ [(4%Z, 4%R); (3%Z, 3%R); (2%Z, 2%R); (1%Z, 1%R)]
           ∧ refined_score (λ text, text) String.eqb
               (λ doc, Done [if (doc <=? 2)%Z then "dune" else "emma"])
               [["booktitle"; "dune"]] doc score = Done total_score)
    ∧ (∀ doc score total_score,
         (doc, score) ∈ [(4%Z, 4%R); (3%Z, 3%R); (2%Z, 2%R); (1%Z, 1%R)] →
         refined_score (λ text, text) String.eqb
           (λ doc, Done [if (doc <=? 2)%Z then "dune" else "emma"])
           [["booktitle"; "dune"]] doc score = Done total_score →
         (doc, total_score) ∈ result
         ∨ ∀ entry, entry ∈ result → (total_score <= entry.2)%R).
Proof.
  apply (search_engine_3_result (λ text, text) String.eqb
           (λ doc, Done [if (doc <=? 2)%Z then "dune" else "emma"]) 5
           (EncList [10%Z])
           {[10%Z := [(1%Z, 1%R); (2%Z, 2%R); (3%Z, 3%R); (4%Z, 4%R)]]}
           (<[1%Z := 1%R]> (<[2%Z := 1%R]> (<[3%Z := 1%R]> {[4%Z := 1%R]})))
           [["booktitle"; "dune"]]
           [(4%Z, 4%R); (3%Z, 3%R); (2%Z, 2%R); (1%Z, 1%R)]).
  - exact four_candidates_search.
  - intros doc score Hin. apply list_elem_of_In in Hin. simpl in Hin.
    destruct Hin as [[= <- <-]|[[= <- <-]|[[= <- <-]|[[= <- <-]|[]]]]];
      by eexists.
Defined.

(** The four candidates re-scored: the criterion is found in documents 1
    and 2, whose scores become 1.5 and 3. Document 4 stays first, document
    2 now ties with document 3 and comes before it, the smaller number
    first, and document 1 is left out. *)
Lemma refined_ranking_example :
  search_engine_3 (λ text, text) String.eqb
    (λ doc, Done [if (doc <=? 2)%Z then "dune" else "emma"]) 5
    (EncList [10%Z])
    {[10%Z := [(1%Z, 1%R); (2%Z, 2%R); (3%Z, 3%R); (4%Z, 4%R)]]}
    (<[1%Z := 1%R]> (<[2%Z := 1%R]> (<[3%Z := 1%R]> {[4%Z := 1%R]})))
    [["booktitle"; "dune"]]
  = Done [(4%Z, 4%R); (2%Z, 3%R); (3%Z, 3%R)].
Proof.
  unfold search_engine_3. rewrite four_candidates_search.
  cbn [mbind py_bind for_each]. unfold refined_score.
  cbn [mbind py_bind fmap list_fmap for_each Z.leb Z.compare Pos.compare
       Pos.compare_cont].
  unfold boost. cbn [getitem lookup list_lookup mbind py_bind].
  assert (dict_getitem field_to_idx "booktitle" = Done 0) as ->
    by reflexivity.
  cbn [mbind py_bind getitem lookup list_lookup].
  change ("dune" =? "emma")%string with false.
  change ("dune" =? "dune")%string with true.
  cbn [mbind py_bind mret py_ret].
  replace (2 + 2 * 1 / 2)%R with 3%R by lra.
  replace (1 + 1 * 1 / 2)%R with 1.5%R by lra.
  unfold get_top_k.
  rewrite (top_k_of_items_sorted _
             [(4%Z, 4%R); (2%Z, 3%R); (3%Z, 3%R); (1%Z, 1.5%R)]).
  - done.
  - rewrite insert_empty.
    rewrite !map_to_list_insert, map_to_list_singleton.
    + change ([(1%Z, 1.5%R)] ++ ([(2%Z, 3%R); (3%Z, 3%R)] ++ [(4%Z, 4%R)])
              ≡ₚ ([(4%Z, 4%R)] ++ [(2%Z, 3%R); (3%Z, 3%R)])
                 ++ [(1%Z, 1.5%R)]).
      rewrite (Permutation_app_comm [(1%Z, 1.5%R)]).
      apply Permutation_app_tail, Permutation_app_comm.
    + apply lookup_singleton_ne. done.
    + rewrite lookup_insert_ne by done. apply lookup_singleton_ne. done.
    + rewrite !lookup_insert_ne by done. apply lookup_singleton_ne. done.
  - cbn [fmap list_fmap].
    apply SSorted_cons; [apply SSorted_cons; [apply SSorted_cons;
      [apply SSorted_cons; [apply SSorted_nil|]|]|]|].
    + apply Forall_nil_2.
    + apply Forall_cons_2; [left; simpl; lra|apply Forall_nil_2].
    + apply Forall_cons_2; [right; simpl; split; [lra|lia]|].
      apply Forall_cons_2; [left; simpl; lra|apply Forall_nil_2].
    + repeat (apply Forall_cons_2; [left; simpl; lra|]). apply Forall_nil_2.
Qed.

(** ** The prompt *)

Lemma py_split_head (sep : ascii) (s : string) :
  ∃ piece pieces, py_split sep s = piece :: pieces.
Proof.
  destruct s as [|c s]; simpl; [by eauto|].
  destruct (Ascii.eqb c sep); [by eauto|].
  destruct (py_split sep s); eauto.
Qed.

(** No field name holds a colon: typed alone, it is one piece. *)
Lemma field_name_split (name : string) :
  is_Some (field_to_idx !! name) → py_split ":" name = [name].
Proof.
  unfold field_to_idx. rewrite !lookup_insert_is_Some, lookup_empty.
  intros [<-|[_ [<-|[_ [<-|[_ [<-|[_ [<-|[_ [<-|[_ []%is_Some_None]]]]]]]]]]]];
    reflexivity.
Qed.

Section prompt_facts.
Variable py_lower : string → string.

Lemma read_additional_info_lines (typed : list string) (line_end : string)
    (rest : list string) (additional_info : list (list string)) :
  Forall (λ line, py_lower line ≠ "end") typed →
  py_lower line_end = "end" →
  read_additional_info py_lower (typed ++ line_end :: rest) additional_info
  = Done (additional_info
          ++ filter (λ item, known_field item)
               ((λ line, py_split ":" (py_lower line)) <$> typed)).
Proof.
  intros Htyped Hend. revert additional_info.
  induction Htyped as [|line typed Hline _ IH]; intros additional_info.
  - simpl. rewrite Hend. simpl. by rewrite app_nil_r.
  - cbn [app read_additional_info fmap list_fmap].
    apply String.eqb_neq in Hline. rewrite Hline.
    destruct (py_split_head ":" (py_lower line)) as (name & pieces & Hsplit).
    rewrite Hsplit. cbn [lookup list_lookup].
    destruct (decide (is_Some (field_to_idx !! name))) as [Hname|Hname].
    + rewrite IH, filter_cons_True, <- app_assoc; [done|].
      unfold known_field. simpl. by apply bool_decide_pack.
    + rewrite IH, filter_cons_False; [done|].
      unfold known_field. simpl. by intros ?%bool_decide_unpack.
Qed.

(** X19. The prompt loop reads lines up to the first one that lowers to
    ["end"] and no further. It keeps, in the order typed, the split of
    every lowered line whose text before the first colon is one of the six
    field names, and drops the other lines; a line is kept whether it has
    a value after the colon or not. When no line lowers to ["end"] the
    loop has no result. *)
Theorem read_additional_info_spec (typed : list string) (line_end : string)
    (rest : list string) :
  Forall (λ line, py_lower line ≠ "end") typed →
  py_lower line_end = "end" →
  read_additional_info py_lower (typed ++ line_end :: rest) []
  = Done (filter (λ item, known_field item)
            ((λ line, py_split ":" (py_lower line)) <$> typed))
  ∧ read_additional_info py_lower typed [] = OutOfFuel
  ∧ ∀ line, line ∈ typed →
            is_Some (field_to_idx !! py_lower line) →
            [py_lower line]
            ∈ filter (λ item, known_field item)
                ((λ line, py_split ":" (py_lower line)) <$> typed).
Proof.
  intros Htyped Hend. split_and!.
  - by rewrite read_additional_info_lines.
  - clear Hend. generalize (@nil (list string)).
    induction Htyped as [|line typed Hline _ IH]; intros additional_info;
      [done|].
    cbn [read_additional_info]. apply String.eqb_neq in Hline. rewrite Hline.
    destruct (_ !! 0); [|done]. by destruct (decide _).
  - intros line Hin Hname. apply list_elem_of_filter. split.
    + unfold known_field. simpl. by apply bool_decide_pack.
    + apply list_elem_of_fmap. exists line. split; [|done].
      by rewrite field_name_split.
Qed.
End prompt_facts.

Lemma read_additional_info_spec_witness :
  read_additional_info (λ line, line)
    (["booktitle:dune"; "year:1965"; "setting"] ++ "end" :: ["characters:x"])
    []
  = Done (filter (λ item, known_field item)
            ((λ line, py_split ":" line)
               <$> ["booktitle:dune"; "year:1965"; "setting"]))
  ∧ read_additional_info (λ line, line)
      ["booktitle:dune"; "year:1965"; "setting"] [] = OutOfFuel
  ∧ ∀ line, line ∈ ["booktitle:dune"; "year:1965"; "setting"] →
            is_Some (field_to_idx !! line) →
            [line]
            ∈ filter (λ item, known_field item)
                ((λ line, py_split ":" line)
                   <$> ["booktitle:dune"; "year:1965"; "setting"]).
Proof.
  apply (read_additional_info_spec (λ line, line)
           ["booktitle:dune"; "year:1965"; "setting"] "end"
           ["characters:x"]).
  - repeat constructor; discriminate.
  - reflexivity.
Defined.

Section prompt_and_scores.
Context {Field : Type}.
Variable preprocess_text : string → Field.
Variable py_in : string → Field → bool.
Variable article_fields : Z → py (list string).
Variable py_lower : string → string.

(** X20. A field name typed alone at the prompt, without a colon and a
    value, is kept as a criterion of one piece. If [search_engine_2] has
    returned a candidate whose article file can be read,
    [search_engine_3] then raises [IndexError] when it scores the first
    candidate: [item[1]] is read outside the [try] of the prompt. *)
Theorem bare_field_name_raises (fuel : nat) (encoded_query : encoded)
    (inverted_idx2 : gmap Z (list (Z * R)))
    (squared_tfidf_per_document : gmap Z R)
    (typed : list string) (line_end : string) (rest : list string)
    (line : string) (doc : Z) (score : R) (plot_rest : list (Z * R))
    (raw_fields : list string) :
  Forall (λ line, py_lower line ≠ "end") typed →
  py_lower line_end = "end" →
  line ∈ typed →
  is_Some (field_to_idx !! py_lower line) →
  search_engine_2 fuel encoded_query inverted_idx2
    squared_tfidf_per_document 10 = Done ((doc, score) :: plot_rest) →
  article_fields doc = Done raw_fields →
  ∃ additional_info,
    read_additional_info py_lower (typed ++ line_end :: rest) []
    = Done additional_info
    ∧ [py_lower line] ∈ additional_info
    ∧ search_engine_3 preprocess_text py_in article_fields fuel
        encoded_query inverted_idx2 squared_tfidf_per_document
        additional_info
      = Raise IndexError.
Proof.
  intros Htyped Hend Hline Hname Hplot Hfields.
  eexists. split; [by apply read_additional_info_lines|].
  rewrite app_nil_l.
  set (additional_info := filter _ _).
  assert ([py_lower line] ∈ additional_info) as Hbare.
  { apply list_elem_of_filter. split.
    - unfold known_field. simpl. by apply bool_decide_pack.
    - apply list_elem_of_fmap. exists line. split; [|done].
      by rewrite field_name_split. }
  split; [done|].
  unfold search_engine_3. rewrite Hplot. cbn [mbind py_bind for_each].
  destruct (refined_score_fault preprocess_text py_in article_fields
              additional_info doc raw_fields score [py_lower line])
    as [_ Hraise]; [done..|].
  rewrite Hraise; [done|].
  apply Forall_forall. intros item [Hitem _]%list_elem_of_filter.
  by apply Is_true_true.
Qed.
End prompt_and_scores.

Lemma bare_field_name_raises_witness :
  ∃ additional_info,
    read_additional_info (λ line, line)
      (["booktitle:dune"; "setting"] ++ "end" :: []) []
    = Done additional_info
    ∧ ["setting"] ∈ additional_info
    ∧ search_engine_3 (λ text, text) String.eqb
        (λ _, Done ["dune"; "dune saga"; "frank herbert"]) 2
        (EncList [10%Z]) {[10%Z := [(1%Z, 0%R)]]} {[1%Z := 1%R]}
        additional_info
      = Raise IndexError.
Proof.
  apply (bare_field_name_raises (λ text, text) String.eqb
           (λ _, Done ["dune"; "dune saga"; "frank herbert"])
           (λ line, line) 2 (EncList [10%Z]) {[10%Z := [(1%Z, 0%R)]]}
           {[1%Z := 1%R]} ["booktitle:dune"; "setting"] "end" [] "setting"
           1%Z 0%R [] ["dune"; "dune saga"; "frank herbert"]).
  - repeat constructor; discriminate.
  - reflexivity.
  - apply list_elem_of_further, list_elem_of_here.
  - by eexists.
  - exact one_candidate_search.
  - reflexivity.
Defined.

(** ** Searching the index that was built *)

Lemma NoDup_fmap_eq {A B} (f : A → B) (l : list A) (x y : A) :
  NoDup (f <$> l) → x ∈ l → y ∈ l → f x = f y → x = y.
Proof.
  induction l as [|a l IH]; [by intros _ ?%elem_of_nil|].
  rewrite fmap_cons, NoDup_cons.
  intros [Ha Hnd] [->|Hx]%elem_of_cons [->|Hy]%elem_of_cons Hf.
  - done.
  - destruct Ha. rewrite Hf. by apply list_elem_of_fmap_2.
  - destruct Ha. rewrite <- Hf. by apply list_elem_of_fmap_2.
  - by apply IH.
Qed.

Lemma built_lists_selected (files : list encoded_file)
    (encoded_query : list Z) :
  (∀ token, token ∈ encoded_query →
     ∃ file, file ∈ files ∧ is_Some (dict_repr file !! token)) →
  Forall2 (λ token L, create_inverted_idx files !! token = Some L)
    encoded_query
    ((λ token, doc_number <$> files_with token (py_sorted file_le files))
       <$> encoded_query).
Proof.
  intros Hfound. apply Forall2_fmap_r, Forall_Forall2_diag, Forall_forall.
  intros token Htoken.
  rewrite create_inverted_idx_scan, scan_files_lookup.
  destruct (Hfound token Htoken) as (file & Hfile & Hin).
  assert (file ∈ files_with token (py_sorted file_le files)) as Hwith.
  { unfold files_with. apply list_elem_of_filter.
    by rewrite py_sorted_Permutation. }
  simpl.
  destruct (files_with token (py_sorted file_le files)) as [|file' l];
    [by apply elem_of_nil in Hwith|done].
Qed.

Lemma built_lists_length (files : list encoded_file)
    (encoded_query : list Z) :
  sum_list (length <$>
              ((λ token,
                  doc_number <$> files_with token (py_sorted file_le files))
                 <$> encoded_query))
  ≤ length encoded_query * length files.
Proof.
  induction encoded_query as [|token q IH]; [done|].
  csimpl. rewrite length_fmap, files_with_sorted_length.
  pose proof (df_le_length token files). lia.
Qed.

(** X21. [search_engine] on the index that [create_inverted_idx] builds
    from files that are read in strictly ascending order of document
    number (as files named [<n>.pickle] with distinct numbers are), for a
    non-empty encoded query whose words each occur in some file: the call
    returns, in strictly ascending order, the numbers of the files that
    contain every word of the query, and no other number. *)
Theorem search_built_index (files : list encoded_file)
    (encoded_query : list Z) (fuel : nat) :
  read_ascending files →
  encoded_query ≠ [] →
  (∀ token, token ∈ encoded_query →
     ∃ file, file ∈ files ∧ is_Some (dict_repr file !! token)) →
  length encoded_query * length files < fuel →
  ∃ result,
    search_engine fuel (EncList encoded_query) (create_inverted_idx files)
    = Done result
    ∧ StronglySorted Z.lt result
    ∧ ∀ doc,
        doc ∈ result
        ↔ ∃ file,
            file ∈ files ∧ doc_number file = doc
            ∧ ∀ token, token ∈ encoded_query →
                       is_Some (dict_repr file !! token).
Proof.
  intros Hread Hq Hfound Hfuel.
  pose proof (read_ascending_NoDup files Hread) as Hnd.
  pose proof (built_lists_selected files encoded_query Hfound) as Hsel.
  pose proof (built_lists_length files encoded_query) as Hlen.
  set (Ls := (λ token, doc_number <$> files_with token _) <$> encoded_query)
    in *.
  assert (Ls ≠ []) as Hne.
  { intros HLs. apply fmap_nil_inv in HLs. done. }
  destruct (merge_intersects (λ doc, doc) append_doc (λ ks acc, acc = ks)
              Ls [] fuel Hne) as (ks & result & Hrun & -> & Hsorted & Hin);
    [|done| |lia|].
  { apply Forall_fmap, Forall_forall. intros token _.
    by apply docs_with_ascending. }
  { intros ks acc idx cur max_num -> _ _. by exists (ks ++ [max_num]). }
  exists ks. split_and!.
  - unfold search_engine. destruct encoded_query as [|token q]; [done|].
    cbn [py_not codes_of]. rewrite (selected_lists_Done _ _ _ Hsel). done.
  - done.
  - intros doc. rewrite Hin, common_id. unfold Ls. split.
    + intros Hall.
      destruct encoded_query as [|token0 q]; [done|].
      assert (doc ∈ doc_number
                      <$> files_with token0 (py_sorted file_le files))
        as Hfirst.
      { apply Hall, list_elem_of_fmap. exists token0.
        split; [done|apply list_elem_of_here]. }
      apply list_elem_of_fmap in Hfirst as (file & -> & Hfile).
      apply list_elem_of_filter in Hfile as [_ Hfile].
      rewrite py_sorted_Permutation in Hfile.
      exists file. split_and!; [done..|].
      intros token Htoken.
      assert (doc_number file
                ∈ doc_number <$> files_with token (py_sorted file_le files))
        as Hother.
      { apply Hall, list_elem_of_fmap. by exists token. }
      apply list_elem_of_fmap in Hother as (file' & Hsame & Hfile').
      apply list_elem_of_filter in Hfile' as [Hhas Hfile'].
      rewrite py_sorted_Permutation in Hfile'.
      by rewrite (NoDup_fmap_eq doc_number files file file' Hnd).
    + intros (file & Hfile & <- & Hall) L
        (token & -> & Htoken)%list_elem_of_fmap.
      apply list_elem_of_fmap. exists file. split; [done|].
      apply list_elem_of_filter. split; [by apply Hall|].
      by rewrite py_sorted_Permutation.
Qed.

Lemma search_built_index_witness :
  ∃ result,
    search_engine 7 (EncList [10; 11]%Z)
      (create_inverted_idx
         [EncodedFile 3 3 (<[10%Z := 1%R]> {[11%Z := 3%R]});
          EncodedFile 1 1 {[10%Z := 2%R]};
          EncodedFile 2 2 (<[10%Z := 1%R]> {[11%Z := 1%R]})])
    = Done result
    ∧ StronglySorted Z.lt result
    ∧ ∀ doc,
        doc ∈ result
        ↔ ∃ file,
            file ∈ [EncodedFile 3 3 (<[10%Z := 1%R]> {[11%Z := 3%R]});
                     EncodedFile 1 1 {[10%Z := 2%R]};
                     EncodedFile 2 2 (<[10%Z := 1%R]> {[11%Z := 1%R]})]
            ∧ doc_number file = doc
            ∧ ∀ token, token ∈ [10; 11]%Z →
                       is_Some (dict_repr file !! token).
Proof.
  apply (search_built_index
           [EncodedFile 3 3 (<[10%Z := 1%R]> {[11%Z := 3%R]});
            EncodedFile 1 1 {[10%Z := 2%R]};
            EncodedFile 2 2 (<[10%Z := 1%R]> {[11%Z := 1%R]})] [10; 11]%Z 7).
  - unfold read_ascending. simpl. repeat constructor; lia.
  - discriminate.
  - intros token Htoken.
    exists (EncodedFile 3 3 (<[10%Z := 1%R]> {[11%Z := 3%R]})).
    split; [apply list_elem_of_here|].
    apply elem_of_cons in Htoken as [->|Htoken].
    + cbn [dict_repr]. rewrite lookup_insert_eq. by eexists.
    + apply list_elem_of_singleton in Htoken as ->.
      cbn [dict_repr]. rewrite lookup_insert_ne by done.
      rewrite lookup_singleton_eq. by eexists.
  - simpl. lia.
Defined.

(** ** Ranking on the index that was built *)

Lemma built_weighted_list (files : list encoded_file)
    (inverted_idx2 : gmap Z (list (Z * R))) (key : Z)
    (postings : list (Z * R)) :
  create_inverted_idx_2 files = Done inverted_idx2 →
  inverted_idx2 !! key = Some postings →
  postings
  = (λ file,
       (doc_number file,
        (frequency key file
         * ln (INR (length files) / INR (df key files)))%R))
      <$> files_with key (py_sorted file_le files).
Proof.
  rewrite create_inverted_idx_2_Done. intros [= <-].
  apply weighted_list_lookup.
Qed.

Lemma built_weighted_is_Some (files : list encoded_file)
    (inverted_idx2 : gmap Z (list (Z * R))) (key : Z) (file : encoded_file) :
  create_inverted_idx_2 files = Done inverted_idx2 →
  file ∈ files → is_Some (dict_repr file !! key) →
  is_Some (inverted_idx2 !! key).
Proof.
  rewrite create_inverted_idx_2_Done. intros [= <-] Hfile Hkey.
  rewrite lookup_fmap, scan_files_lookup.
  assert (file ∈ files_with key (py_sorted file_le files)) as Hwith.
  { unfold files_with. apply list_elem_of_filter.
    by rewrite py_sorted_Permutation. }
  destruct (files_with key (py_sorted file_le files)) as [|file' l];
    [by apply elem_of_nil in Hwith|]. by eexists.
Qed.

Lemma selected_lists_exist `{Countable K} {V} (d : gmap K V) (ks : list K) :
  (∀ k, k ∈ ks → is_Some (d !! k)) →
  ∃ vs, Forall2 (λ k v, d !! k = Some v) ks vs.
Proof.
  induction ks as [|k ks IH]; intros Hall; [by exists []|].
  destruct (Hall k) as [v Hv]; [apply list_elem_of_here|].
  destruct IH as [vs Hvs].
  { intros k' Hk'. apply Hall. by apply list_elem_of_further. }
  exists (v :: vs). by constructor.
Qed.

(** The weight, in the built index, of a document whose words are in
    every file. *)
Lemma ubiquitous_weight (files : list encoded_file)
    (inverted_idx2 : gmap Z (list (Z * R))) (file0 : encoded_file)
    (term : Z) (postings : list (Z * R)) (weight : R) :
  NoDup (doc_number <$> files) →
  file0 ∈ files →
  (∀ key file, is_Some (dict_repr file0 !! key) → file ∈ files →
               is_Some (dict_repr file !! key)) →
  create_inverted_idx_2 files = Done inverted_idx2 →
  inverted_idx2 !! term = Some postings →
  (doc_number file0, weight) ∈ postings →
  weight = 0%R.
Proof.
  intros Hnd Hfile0 Hall Hbuilt Hterm Hin.
  rewrite (built_weighted_list _ _ _ _ Hbuilt Hterm) in Hin.
  apply list_elem_of_fmap in Hin as (file & [= Hdoc ->] & Hfile).
  unfold files_with in Hfile.
  apply list_elem_of_filter in Hfile as [Hhas Hfile].
  rewrite py_sorted_Permutation in Hfile.
  assert (file0 = file) as <- by by apply (NoDup_fmap_eq doc_number files).
  assert (df term files = length files) as ->.
  { unfold df, files_with. f_equal. apply filter_all, Forall_forall.
    intros file. by apply Hall. }
  replace (INR (length files) / INR (length files))%R with 1%R.
  - rewrite ln_1. lra.
  - field. apply not_0_INR. destruct files; [|done].
    by apply elem_of_nil in Hfile0.
Qed.

(** X22. Index, norms and search as the module builds them, on files with
    distinct document numbers: when the words of one file are in every
    file of the folder, the stored norm of that file is 0, and any query
    made of its words makes [search_engine_2] raise
    [ZeroDivisionError], whatever the other files hold. A folder with a
    single file is the smallest case. *)
Theorem ubiquitous_words_raise (files : list encoded_file)
    (file0 : encoded_file) (encoded_query : list Z) (k : Z) (fuel : nat) :
  NoDup (doc_number <$> files) →
  file0 ∈ files →
  (∀ key file, is_Some (dict_repr file0 !! key) → file ∈ files →
               is_Some (dict_repr file !! key)) →
  encoded_query ≠ [] →
  (∀ token, token ∈ encoded_query → is_Some (dict_repr file0 !! token)) →
  length encoded_query * length files < fuel →
  ∃ inverted_idx2,
    create_inverted_idx_2 files = Done inverted_idx2
    ∧ store_squared_tfidf_per_document inverted_idx2 !! doc_number file0
      = Some 0%R
    ∧ search_engine_2 fuel (EncList encoded_query) inverted_idx2
        (store_squared_tfidf_per_document inverted_idx2) k
      = Raise ZeroDivisionError.
Proof.
  intros Hnd Hfile0 Hall Hq Htokens Hfuel.
  destruct (create_inverted_idx_2 files) as [inverted_idx2| |] eqn:Hbuilt;
    try (by rewrite create_inverted_idx_2_Done in Hbuilt).
  exists inverted_idx2. split; [done|].
  destruct (selected_lists_exist inverted_idx2 encoded_query) as [Ls Hsel].
  { intros token Htoken.
    by apply (built_weighted_is_Some files _ _ file0), Htokens. }
  assert (Ls ≠ []) as Hne.
  { intros ->. apply Forall2_nil_inv_r in Hsel. done. }
  assert (∀ token L, inverted_idx2 !! token = Some L →
            L.*1 = doc_number <$> files_with token (py_sorted file_le files))
    as Hdocs.
  { intros token L HL.
    rewrite (built_weighted_list _ _ _ _ Hbuilt HL), <- list_fmap_compose.
    done. }
  assert (Forall (λ L, L.*1 = doc_number <$> py_sorted file_le files) Ls)
    as Hsame.
  { eapply Forall2_Forall_r; [exact Hsel|]. apply Forall_forall.
    intros token Htoken L HL. rewrite (Hdocs _ _ HL). f_equal.
    unfold files_with. apply filter_all, Forall_forall. intros file Hfile.
    rewrite py_sorted_Permutation in Hfile.
    apply (Hall token file); [by apply Htokens|done]. }
  assert (sum_list (length <$> Ls) ≤ length encoded_query * length files)
    as Hlen.
  { clear -Hsel Hdocs. induction Hsel as [|token L q Ls HL _ IH]; [done|].
    csimpl. rewrite <- (length_fmap fst L), (Hdocs _ _ HL), length_fmap.
    rewrite files_with_sorted_length.
    pose proof (df_le_length token files). lia. }
  assert (common fst Ls (doc_number file0)) as Hcommon.
  { eapply Forall2_Forall_r; [exact Hsel|]. apply Forall_forall.
    intros token Htoken L HL. rewrite (Hdocs _ _ HL).
    apply list_elem_of_fmap. exists file0. split; [done|].
    unfold files_with. apply list_elem_of_filter.
    split; [by apply Htokens|]. by rewrite py_sorted_Permutation. }
  assert (store_squared_tfidf_per_document inverted_idx2
            !! doc_number file0 = Some 0%R) as Hnorm.
  { destruct (squared_norms_facts inverted_idx2 (doc_number file0))
      as [Hsome Hfacts].
    destruct Hsel as [|token L q Ls' HL _]; [done|].
    apply Forall_cons in Hcommon as [HinL _].
    apply list_elem_of_fmap in HinL as ([doc weight] & Hdoc & HinL).
    simpl in Hdoc. subst doc.
    destruct (proj2 Hsome) as [norm Hnorm]; [by eauto|].
    rewrite Hnorm. f_equal.
    destruct (Hfacts norm Hnorm) as (_ & _ & _ & Hzero).
    apply Hzero. intros term postings weight' Hterm Hin.
    by eapply ubiquitous_weight. }
  split; [done|].
  destruct (ranked_search_outcome encoded_query inverted_idx2 k Ls fuel)
    as [Hraise|(all_scores & Hrun & _)]; [done|done|lia|done|].
  destruct (merge_lockstep fst add_score
              (λ ks docs_scores, ∀ doc, doc ∈ ks → doc ∈ dom docs_scores)
              Ls (doc_number <$> py_sorted file_le files) ∅ fuel Hne Hsame)
    as (docs_scores & Hmerge & Hdom); [|  |lia|].
  { by intros doc ?%elem_of_nil. }
  { intros ks acc idx cur max_num Hks Hu _.
    rewrite (add_score_Done _ _ _ _ _ Hu). eexists. split; [done|].
    intros doc [Hdoc| ->%list_elem_of_singleton]%elem_of_app.
    - apply elem_of_dom. apply Hks, elem_of_dom in Hdoc as [score Hdoc].
      destruct (decide (doc = max_num)) as [->|Hne'].
      + rewrite lookup_insert_eq. eauto.
      + rewrite lookup_insert_ne by done. eauto.
    - apply elem_of_dom. rewrite lookup_insert_eq. eauto. }
  destruct (compute_cosine_similarity_Raise encoded_query docs_scores
              (store_squared_tfidf_per_document inverted_idx2))
    as [e He].
  { exists (doc_number file0). split; [|by right].
    apply Hdom, list_elem_of_fmap. exists file0. split; [done|].
    by rewrite py_sorted_Permutation. }
  revert Hrun. unfold search_engine_2.
  destruct encoded_query as [|token q]; [done|].
  cbn [py_not codes_of]. rewrite (selected_lists_Done _ _ _ Hsel).
  cbn [mbind py_bind]. rewrite Hmerge. cbn [mbind py_bind].
  by rewrite He.
Qed.

Lemma ubiquitous_words_raise_witness :
  ∃ inverted_idx2,
    create_inverted_idx_2
      [EncodedFile 2 2 (<[10%Z := 1%R]> {[11%Z := 3%R]});
       EncodedFile 1 1 {[10%Z := 2%R]}]
    = Done inverted_idx2
    ∧ store_squared_tfidf_per_document inverted_idx2
        !! doc_number (EncodedFile 1 1 {[10%Z := 2%R]})
      = Some 0%R
    ∧ search_engine_2 3 (EncList [10%Z]) inverted_idx2
        (store_squared_tfidf_per_document inverted_idx2) 5
      = Raise ZeroDivisionError.
Proof.
  apply (ubiquitous_words_raise
           [EncodedFile 2 2 (<[10%Z := 1%R]> {[11%Z := 3%R]});
            EncodedFile 1 1 {[10%Z := 2%R]}]
           (EncodedFile 1 1 {[10%Z := 2%R]}) [10%Z] 5 3).
  - apply (bool_decide_unpack _). vm_compute. exact I.
  - apply list_elem_of_further, list_elem_of_here.
  - cbn [dict_repr]. intros key file [tf [<- _]%lookup_singleton_Some] Hfile.
    apply elem_of_cons in Hfile as [->|Hfile].
    + cbn [dict_repr]. rewrite lookup_insert_eq. by eexists.
    + apply list_elem_of_singleton in Hfile as ->.
      cbn [dict_repr]. rewrite lookup_singleton_eq. by eexists.
  - discriminate.
  - intros token ->%list_elem_of_singleton.
    cbn [dict_repr]. rewrite lookup_singleton_eq. by eexists.
  - simpl. lia.
Defined.
